(** * golang-clean-architecture: entities, mock repository and use cases

    A shallow embedding of the Go sources
    - [internal/domain/entities/users.go]            (the [User] entity),
    - [internal/domain/repositories] (the [UserRepository] interface and the
      in-memory [MockUserRepository] of repo.md),
    - the pointer-versus-copy demonstration program  ([GetByID], [List],
      [Update] of its [MockUserRepository]),
    - [internal/domain/usecases/user_usecases.go]    (the use cases),
    together with the properties of the specification that concern them.

    Conventions.
    - A Go [string] is a byte sequence: Rocq's [string], whose characters are
      bytes; [len] is the byte length.
    - A Go [int] is a 64-bit signed integer: a [Z] with the wrap-around
      written out where the source does arithmetic.
    - A Go [error] built by [errors.New] or [fmt.Errorf] is its message.
    - [time.Time] is a reading of the process clock: a [Z];
      [time.Now()] is an explicit argument of the function that calls it.
    - [context.Context] arguments are threaded through unchanged by every
      function of the sources and are left out. *)

From Stdlib Require Import ZArith Lia List String Ascii QArith Qround.
From stdpp Require Import gmap strings list fin_maps sorting.

Local Open Scope Z_scope.

(** ** Go's [unicode/utf8]: runes and their encoding *)

Module utf8.

Definition rune := Z.

Definition RuneError : rune := 0xFFFD.
Definition RuneSelf : rune := 0x80.
Definition MaxRune : rune := 0x10FFFF.

Definition byte_of_ascii (c : ascii) : Z := Z.of_N (N_of_ascii c).
Definition ascii_of_byte (b : Z) : ascii := ascii_of_N (Z.to_N b).

Definition bytes (s : string) : list Z := byte_of_ascii <$> list_ascii_of_string s.
Definition of_bytes (bs : list Z) : string := string_of_list_ascii (ascii_of_byte <$> bs).

(** What the table [first] of the Go decoder says about a leading byte. *)
Inductive lead :=
| LeadASCII
| LeadInvalid
| LeadMulti (size : nat) (lo hi : Z).

Definition first (s0 : Z) : lead :=
  if s0 <? 0x80 then LeadASCII
  else if s0 <? 0xC2 then LeadInvalid
  else if s0 <? 0xE0 then LeadMulti 2 0x80 0xBF
  else if s0 =? 0xE0 then LeadMulti 3 0xA0 0xBF
  else if s0 <? 0xED then LeadMulti 3 0x80 0xBF
  else if s0 =? 0xED then LeadMulti 3 0x80 0x9F
  else if s0 <? 0xF0 then LeadMulti 3 0x80 0xBF
  else if s0 =? 0xF0 then LeadMulti 4 0x90 0xBF
  else if s0 <? 0xF4 then LeadMulti 4 0x80 0xBF
  else if s0 =? 0xF4 then LeadMulti 4 0x80 0x8F
  else LeadInvalid.

Definition continuation (b : Z) : bool := (0x80 <=? b) && (b <=? 0xBF).

(** [DecodeRuneInString] on a non-empty input: the rune and the bytes it
    occupies. An invalid or truncated sequence yields [RuneError] of width 1. *)
Definition DecodeRune (s0 : Z) (rest : list Z) : rune * list Z :=
  let bad := (RuneError, [s0]) in
  match first s0 with
  | LeadASCII => (s0, [s0])
  | LeadInvalid => bad
  | LeadMulti sz lo hi =>
    match rest with
    | s1 :: rest1 =>
      if (lo <=? s1) && (s1 <=? hi) then
        if (sz <=? 2)%nat then
          (Z.lor (Z.shiftl (Z.land s0 0x1F) 6) (Z.land s1 0x3F), [s0; s1])
        else
          match rest1 with
          | s2 :: rest2 =>
            if continuation s2 then
              if (sz <=? 3)%nat then
                (Z.lor (Z.lor (Z.shiftl (Z.land s0 0x0F) 12)
                              (Z.shiftl (Z.land s1 0x3F) 6))
                       (Z.land s2 0x3F), [s0; s1; s2])
              else
                match rest2 with
                | s3 :: _ =>
                  if continuation s3 then
                    (Z.lor (Z.lor (Z.lor (Z.shiftl (Z.land s0 0x07) 18)
                                         (Z.shiftl (Z.land s1 0x3F) 12))
                                  (Z.shiftl (Z.land s2 0x3F) 6))
                           (Z.land s3 0x3F), [s0; s1; s2; s3])
                  else bad
                | [] => bad
                end
            else bad
          | [] => bad
          end
      else bad
    | [] => bad
    end
  end.

(** The runes of a string, each with the bytes it was decoded from, as a
    [for range] loop over the string visits them. The fuel is the number of
    bytes; every step consumes at least one. *)
Fixpoint segments_fuel (fuel : nat) (s : list Z) : list (rune * list Z) :=
  match fuel, s with
  | S fuel', s0 :: rest =>
    let '(r, bs) := DecodeRune s0 rest in
    (r, bs) :: segments_fuel fuel' (drop (length bs) s)
  | _, _ => []
  end.

Definition segments (s : list Z) : list (rune * list Z) :=
  segments_fuel (length s) s.

Definition decode (s : string) : list rune := fst <$> segments (bytes s).

(** [AppendRune]: the UTF-8 encoding of a rune; surrogates and values out of
    range are written as [RuneError]. *)
Definition encode3 (r : rune) : list Z :=
  [Z.lor 0xE0 (Z.shiftr r 12);
   Z.lor 0x80 (Z.land (Z.shiftr r 6) 0x3F);
   Z.lor 0x80 (Z.land r 0x3F)].

Definition EncodeRune (r : rune) : list Z :=
  if (0 <=? r) && (r <=? 0x7F) then [r]
  else if (0 <=? r) && (r <=? 0x7FF) then
    [Z.lor 0xC0 (Z.shiftr r 6); Z.lor 0x80 (Z.land r 0x3F)]
  else if (r <? 0) || (MaxRune <? r) || ((0xD800 <=? r) && (r <=? 0xDFFF)) then
    encode3 RuneError
  else if r <=? 0xFFFF then encode3 r
  else
    [Z.lor 0xF0 (Z.shiftr r 18);
     Z.lor 0x80 (Z.land (Z.shiftr r 12) 0x3F);
     Z.lor 0x80 (Z.land (Z.shiftr r 6) 0x3F);
     Z.lor 0x80 (Z.land r 0x3F)].

End utf8.

(** ** Go's [unicode]: white space and case *)

(** The lower-case mapping of the Unicode tables beyond ASCII
    ([unicode.To(unicode.LowerCase, r)]). The tables belong to the Go
    distribution; the development is parametric in them. *)
Class CaseTables := { To_LowerCase : Z -> Z }.

Module unicode.
Import utf8.

Definition MaxASCII : rune := 0x7F.

(** [unicode.IsSpace]: the Latin-1 switch, then the [White_Space] table. *)
Definition IsSpace (r : rune) : bool :=
  ((0x09 <=? r) && (r <=? 0x0D)) || (r =? 0x20) || (r =? 0x85) || (r =? 0xA0)
  || (r =? 0x1680) || ((0x2000 <=? r) && (r <=? 0x200A))
  || (r =? 0x2028) || (r =? 0x2029) || (r =? 0x202F) || (r =? 0x205F)
  || (r =? 0x3000).

Definition ToLower `{CaseTables} (r : rune) : rune :=
  if r <=? MaxASCII then
    (if (0x41 <=? r) && (r <=? 0x5A) then r + 0x20 else r)
  else To_LowerCase r.

(** The orbit of a rune under [unicode.SimpleFold], for the ASCII letters:
    the other case, and the two letters that fold to ASCII from outside it
    (U+212A KELVIN SIGN for k, U+017F LATIN SMALL LETTER LONG S for s).
    The patterns of the sources fold ASCII letters only; any other rune is
    taken to be alone in its orbit. *)
Definition SimpleFoldOrbit (r : rune) : list rune :=
  let extra (lower : rune) : list rune :=
    if lower =? 0x6B then [0x212A] else if lower =? 0x73 then [0x17F] else [] in
  if (0x41 <=? r) && (r <=? 0x5A) then r :: (r + 0x20) :: extra (r + 0x20)
  else if (0x61 <=? r) && (r <=? 0x7A) then r :: (r - 0x20) :: extra r
  else [r].

End unicode.

(** ** Go's [strings] *)

Module strings.
Import utf8.

Fixpoint drop_while {A} (p : A -> bool) (l : list A) : list A :=
  match l with
  | x :: l' => if p x then drop_while p l' else l
  | [] => []
  end.

Definition drop_end_while {A} (p : A -> bool) (l : list A) : list A :=
  rev (drop_while p (rev l)).

(** [strings.TrimSpace]: the leading and the trailing white-space runes are
    removed; the bytes in between are kept as they are. *)
Definition TrimSpace (s : string) : string :=
  let sp := fun seg : rune * list Z => unicode.IsSpace (fst seg) in
  of_bytes (concat (snd <$> drop_end_while sp (drop_while sp (segments (bytes s))))).

(** [strings.ToLower], that is [strings.Map(unicode.ToLower, s)]: every rune
    is mapped and written back; a negative result drops the rune. *)
Definition ToLower `{CaseTables} (s : string) : string :=
  of_bytes (concat ((fun r => let r' := unicode.ToLower r in
                              if r' <? 0 then [] else EncodeRune r') <$> decode s)).

Fixpoint has_prefix (sub s : list Z) : bool :=
  match sub, s with
  | [], _ => true
  | a :: sub', b :: s' => (a =? b) && has_prefix sub' s'
  | _ :: _, [] => false
  end.

Fixpoint contains_bytes (sub s : list Z) : bool :=
  has_prefix sub s ||
  match s with
  | _ :: s' => contains_bytes sub s'
  | [] => false
  end.

(** [strings.Contains]: a search for the bytes of [substr]. *)
Definition Contains (s substr : string) : bool :=
  contains_bytes (bytes substr) (bytes s).

Definition len (s : string) : Z := Z.of_nat (String.length s).

End strings.

(** ** Go's [regexp]: the syntax trees the patterns of the sources parse to *)

Module regexp.
Import utf8.

Inductive Regexp :=
| OpNoMatch
| OpEmptyMatch
| OpLiteral (fold : bool) (rs : list rune)
| OpCharClass (ranges : list (rune * rune))
| OpBeginText
| OpEndText
| OpCapture (sub : Regexp)
| OpStar (sub : Regexp)
| OpPlus (sub : Regexp)
| OpConcat (sub1 sub2 : Regexp)
| OpAlternate (sub1 sub2 : Regexp).

Definition in_class (ranges : list (rune * rune)) (c : rune) : bool :=
  existsb (fun '(lo, hi) => (lo <=? c) && (c <=? hi)) ranges.

(** A literal rune of the pattern against a rune of the text; under [(?i)]
    the text rune may be any member of the pattern rune's fold orbit. *)
Definition lit_eq (fold : bool) (p c : rune) : bool :=
  (p =? c) || (fold && existsb (Z.eqb c) (unicode.SimpleFoldOrbit p)).

Definition is_nil {A} (l : list A) : bool :=
  match l with [] => true | _ :: _ => false end.

(** Does the expression match the empty string here? [b]: nothing of the
    text lies before this position; [e]: nothing lies after it. *)
Fixpoint nullable (b e : bool) (re : Regexp) : bool :=
  match re with
  | OpNoMatch => false
  | OpEmptyMatch => true
  | OpLiteral _ rs => is_nil rs
  | OpCharClass _ => false
  | OpBeginText => b
  | OpEndText => e
  | OpCapture r => nullable b e r
  | OpStar _ => true
  | OpPlus r => nullable b e r
  | OpConcat r1 r2 => nullable b e r1 && nullable b e r2
  | OpAlternate r1 r2 => nullable b e r1 || nullable b e r2
  end.

(** What remains to be matched once the rune [c] has been read. *)
Fixpoint deriv (b : bool) (c : rune) (re : Regexp) : Regexp :=
  match re with
  | OpNoMatch | OpEmptyMatch | OpBeginText | OpEndText => OpNoMatch
  | OpLiteral f rs =>
    match rs with
    | p :: rs' => if lit_eq f p c then OpLiteral f rs' else OpNoMatch
    | [] => OpNoMatch
    end
  | OpCharClass cls => if in_class cls c then OpEmptyMatch else OpNoMatch
  | OpCapture r => deriv b c r
  | OpStar r => OpConcat (deriv b c r) (OpStar r)
  | OpPlus r => OpConcat (deriv b c r) (OpStar r)
  | OpConcat r1 r2 =>
    OpAlternate (OpConcat (deriv b c r1) r2)
                (if nullable b false r1 then deriv b c r2 else OpNoMatch)
  | OpAlternate r1 r2 => OpAlternate (deriv b c r1) (deriv b c r2)
  end.

(** Does some prefix of [s] match, starting at this position? *)
Fixpoint match_prefix (b : bool) (re : Regexp) (s : list rune) : bool :=
  match s with
  | [] => nullable b true re
  | c :: s' => nullable b false re || match_prefix false (deriv b c re) s'
  end.

(** Does a match start at this position or at a later one? *)
Fixpoint search (b : bool) (re : Regexp) (s : list rune) : bool :=
  match_prefix b re s ||
  match s with
  | [] => false
  | _ :: s' => search false re s'
  end.

(** [Regexp.MatchString]: the text contains a match of the expression. *)
Definition MatchString (re : Regexp) (s : string) : bool :=
  search true re (decode s).

(** The meaning of an expression: [matches b e re s] when [re] matches
    exactly [s], at a position with ([b]) nothing before [s] and ([e])
    nothing after it. *)
Inductive matches : bool -> bool -> Regexp -> list rune -> Prop :=
| m_empty b e : matches b e OpEmptyMatch []
| m_literal b e f rs s :
    Forall2 (fun p c => lit_eq f p c = true) rs s ->
    matches b e (OpLiteral f rs) s
| m_class b e cls c :
    in_class cls c = true -> matches b e (OpCharClass cls) [c]
| m_begin e : matches true e OpBeginText []
| m_end b : matches b true OpEndText []
| m_capture b e r s : matches b e r s -> matches b e (OpCapture r) s
| m_star_nil b e r : matches b e (OpStar r) []
| m_star_cons b e r s1 s2 :
    matches b (e && is_nil s2) r s1 ->
    matches (b && is_nil s1) e (OpStar r) s2 ->
    matches b e (OpStar r) (s1 ++ s2)
| m_plus b e r s1 s2 :
    matches b (e && is_nil s2) r s1 ->
    matches (b && is_nil s1) e (OpStar r) s2 ->
    matches b e (OpPlus r) (s1 ++ s2)
| m_concat b e r1 r2 s1 s2 :
    matches b (e && is_nil s2) r1 s1 ->
    matches (b && is_nil s1) e r2 s2 ->
    matches b e (OpConcat r1 r2) (s1 ++ s2)
| m_alt_l b e r1 r2 s : matches b e r1 s -> matches b e (OpAlternate r1 r2) s
| m_alt_r b e r1 r2 s : matches b e r2 s -> matches b e (OpAlternate r1 r2) s.

(** An alternation of case-folded words, as [(?i)(w1|w2|...)] parses. *)
Fixpoint alternation (fold : bool) (words : list string) : Regexp :=
  match words with
  | [] => OpNoMatch
  | [w] => OpLiteral fold (decode w)
  | w :: ws => OpAlternate (OpLiteral fold (decode w)) (alternation fold ws)
  end.

End regexp.

(** ** [internal/domain/entities/users.go] *)

Module entities.

Definition error := string.
Definition Time := Z.

Record User := {
  ID : Z;
  Email : string;
  Name : string;
  Password : string;
  Created : Time;
  Updated : Time
}.

Definition validateEmail (email : string) : option error :=
  let email := strings.TrimSpace email in
  if String.eqb email "" then Some "email can't be empty"%string
  else if negb (strings.Contains email "@") then Some "invalid email"%string
  else if strings.len email >? 255 then Some "email too long"%string
  else None.

(** [(?i)(fuck|shit|damn|idiot|stupid|hitler|cunt)] *)
Definition offensiveNameRegex : regexp.Regexp :=
  regexp.OpCapture
    (regexp.alternation true
       ["fuck"; "shit"; "damn"; "idiot"; "stupid"; "hitler"; "cunt"]%string).

(** The class [[a-zA-ZÀ-ÿ\s\-'.]]; [\s] is [[\t\n\f\r ]]. *)
Definition nameClass : list (utf8.rune * utf8.rune) :=
  [(0x61, 0x7A); (0x41, 0x5A); (0xC0, 0xFF);
   (0x09, 0x0A); (0x0C, 0x0D); (0x20, 0x20);
   (0x2D, 0x2D); (0x27, 0x27); (0x2E, 0x2E)].

(** [^[a-zA-ZÀ-ÿ\s\-'.]+$] *)
Definition validNameRegex : regexp.Regexp :=
  regexp.OpConcat regexp.OpBeginText
    (regexp.OpConcat (regexp.OpPlus (regexp.OpCharClass nameClass))
                     regexp.OpEndText).

Definition validateName (name : string) : option error :=
  let trimmedName := strings.TrimSpace name in
  if String.eqb trimmedName "" then Some "empty name"%string
  else if strings.len trimmedName <? 2 then
    Some "brother nobody has such a short name"%string
  else if strings.len trimmedName >? 100 then
    Some "brother nobody has such a long name"%string
  else if regexp.MatchString offensiveNameRegex trimmedName then
    Some "offensive name non approprié"%string
  else if negb (regexp.MatchString validNameRegex trimmedName) then
    Some "nom contient des caractères invalides"%string
  else None.

Definition validatePassword (password : string) : option error :=
  if String.eqb password "" then Some "mot de passe ne peut pas être vide"%string
  else if strings.len password <? 6 then
    Some "mot de passe trop court (min 6 caractères)"%string
  else if strings.len password >? 128 then
    Some "mot de passe trop long (max 128 caractères)"%string
  else None.

(** [NewUser]; [now] is the reading of [time.Now()]. The identifier is left
    at the zero value of [int]. *)
Definition NewUser `{CaseTables} (now : Time) (email name password : string)
  : error + User :=
  match validateEmail email with
  | Some err => inl err
  | None =>
    match validateName name with
    | Some err => inl err
    | None =>
      match validatePassword password with
      | Some err => inl err
      | None =>
        inr {| ID := 0;
               Email := strings.ToLower (strings.TrimSpace email);
               Name := strings.TrimSpace name;
               Password := password;
               Created := now;
               Updated := now |}
      end
    end
  end.

(** The methods with a pointer receiver take the receiver's value and
    return the value it holds afterwards, next to the error. *)
Definition UpdateUserProfile `{CaseTables} (now : Time) (u : User)
    (name email : string) : User * option error :=
  match validateName name with
  | Some err => (u, Some err)
  | None =>
    match validateEmail email with
    | Some err => (u, Some err)
    | None =>
      let u := {| ID := ID u; Email := Email u; Name := strings.TrimSpace name;
                  Password := Password u; Created := Created u;
                  Updated := Updated u |} in
      let u := {| ID := ID u;
                  Email := strings.ToLower (strings.TrimSpace email);
                  Name := Name u; Password := Password u;
                  Created := Created u; Updated := Updated u |} in
      let u := {| ID := ID u; Email := Email u; Name := Name u;
                  Password := Password u; Created := Created u;
                  Updated := now |} in
      (u, None)
    end
  end.

Definition ChangePassword (now : Time) (u : User) (newPassword : string)
  : User * option error :=
  match validatePassword newPassword with
  | Some err => (u, Some err)
  | None =>
    let u := {| ID := ID u; Email := Email u; Name := Name u;
                Password := newPassword; Created := Created u;
                Updated := Updated u |} in
    let u := {| ID := ID u; Email := Email u; Name := Name u;
                Password := Password u; Created := Created u;
                Updated := now |} in
    (u, None)
  end.

Definition isValidUser (u : User) : bool :=
  bool_decide (validateEmail (Email u) = None) &&
  bool_decide (validateName (Name u) = None) &&
  bool_decide (validatePassword (Password u) = None).

End entities.

(** ** Go's [int] *)

Module goint.

(** The value a 64-bit signed integer takes after an arithmetic operation
    whose mathematical result is [z]. *)
Definition wrap (z : Z) : Z := (z + 2 ^ 63) mod 2 ^ 64 - 2 ^ 63.

Definition add (a b : Z) : Z := wrap (a + b).
Definition sub (a b : Z) : Z := wrap (a - b).
Definition mul (a b : Z) : Z := wrap (a * b).

(** [a / b] truncates toward zero; the divisor is not zero where the
    sources divide. *)
Definition div (a b : Z) : Z := wrap (Z.quot a b).

(** The values of the type. *)
Definition fits (z : Z) : Prop := - 2 ^ 63 <= z < 2 ^ 63.

(** The least integer not below the quotient [a / b] of the rationals. *)
Definition ceil_quotient (a b : Z) : Z := Qceiling (inject_Z a / inject_Z b).

End goint.

(** ** [internal/domain/repositories]: the [UserRepository] interface *)

Module repositories.
Import entities.

(** An implementation over a state [S]. A method that returns a
    pointer to a [User] and an error returns either the error or the record
    the pointer leads to; an argument that is a pointer to a [User] is the
    record the use case holds at the call. A use case does not see what an
    implementation writes through such an argument: of the implementations
    in the sources the mock's [Create] alone does so (it sets the [ID]), and
    its caller does not read the record again. *)
Record UserRepository (S : Type) := {
  Create : User -> S -> (error + User) * S;
  GetById : Z -> S -> (error + User) * S;
  GetByEmail : string -> S -> (error + User) * S;
  isEmailTaken : string -> S -> (error + bool) * S;
  Update : User -> S -> (error + User) * S;
  DeleteById : Z -> S -> option error * S;
  List : Z -> Z -> S -> (error + list User) * S;
  Count : S -> (error + Z) * S
}.

Arguments Create {S}.
Arguments GetById {S}.
Arguments GetByEmail {S}.
Arguments isEmailTaken {S}.
Arguments Update {S}.
Arguments DeleteById {S}.
Arguments List {S}.
Arguments Count {S}.

End repositories.

(** ** The in-memory [MockUserRepository], with the memory it points into *)

Module mocks.
Import entities.

(** A [*User] is the address of a record in the heap; the heap only grows,
    and a new record is allocated at its end. *)
Abbreviation ptr := nat (only parsing).
Abbreviation Heap := (list User) (only parsing).

Definition zeroUser : User :=
  {| ID := 0; Email := ""; Name := ""; Password := ""; Created := 0; Updated := 0 |}.

(** [*p]: the pointers of a Go program lead to allocated records; an address
    outside the heap reads as the zero value. *)
Definition load (h : Heap) (p : ptr) : User := default zeroUser (h !! p).

(** [&v] for a fresh copy [v]: its address and the heap that holds it. *)
Definition alloc (h : Heap) (v : User) : ptr * Heap := (length h, h ++ [v]).

(** The maps of repo.md's mock; its [sync.RWMutex] guards code that runs
    here one call at a time. The demonstration program's repository has the
    [users] map alone. *)
Record MockUserRepository := {
  users : gmap Z ptr;
  emails : gmap string ptr;
  nextID : Z
}.

Definition NewMockUserRepository : MockUserRepository :=
  {| users := ∅; emails := ∅; nextID := 1 |}.

(** The pointers of the primary map lead to allocated records. *)
Definition allocated (m : MockUserRepository) (h : Heap) : Prop :=
  forall id p, users m !! id = Some p -> (p < length h)%nat.

(** repo.md, [MockUserRepository.Create]. *)
Definition Create (user : ptr) (m : MockUserRepository) (h : Heap)
  : (error + ptr) * MockUserRepository * Heap :=
  match emails m !! Email (load h user) with
  | Some _ => (inl "email déjà utilisé"%string, m, h)
  | None =>
    (* user.ID = m.nextID *)
    let u := load h user in
    let h := <[user := {| ID := nextID m; Email := Email u; Name := Name u;
                          Password := Password u; Created := Created u;
                          Updated := Updated u |}]> h in
    (* m.nextID++ *)
    let m := {| users := users m; emails := emails m;
                nextID := goint.add (nextID m) 1 |} in
    (* userCopy := *user *)
    let '(userCopy, h) := alloc h (load h user) in
    (* m.users[user.ID] = &userCopy; m.emails[user.Email] = &userCopy *)
    let m := {| users := <[ID (load h user) := userCopy]> (users m);
                emails := emails m; nextID := nextID m |} in
    let m := {| users := users m;
                emails := <[Email (load h user) := userCopy]> (emails m);
                nextID := nextID m |} in
    (* return &userCopy, nil *)
    (inr userCopy, m, h)
  end.

(** The demonstration program, [MockUserRepository.GetByID]. *)
Definition GetByID (id : Z) (m : MockUserRepository) (h : Heap)
  : (error + ptr) * Heap :=
  match users m !! id with
  | None => (inl "user not found"%string, h)
  | Some user =>
    let '(userCopy, h) := alloc h (load h user) in
    (inr userCopy, h)
  end.

(** The demonstration program, [MockUserRepository.List]. Go visits a map in
    an unspecified order; the order here is that of [map_to_list]. *)
Definition List (m : MockUserRepository) (h : Heap) : list ptr * Heap :=
  foldl (fun '(result, h) '(_, user) =>
           let '(userCopy, h) := alloc h (load h user) in
           (result ++ [userCopy], h))
        ([], h) (map_to_list (users m)).

(** The demonstration program, [MockUserRepository.Update]: in place. *)
Definition Update (user : ptr) (m : MockUserRepository) (h : Heap)
  : option error * Heap :=
  match users m !! ID (load h user) with
  | None => (Some "user not found"%string, h)
  | Some existing =>
    let e := load h existing in
    (None, <[existing := {| ID := ID e; Email := Email e;
                            Name := Name (load h user);
                            Password := Password e; Created := Created e;
                            Updated := Updated e |}]> h)
  end.

End mocks.

(** ** [internal/domain/usecases/user_usecases.go] *)

Module usecases.
Import entities repositories.

(** *** The external services *)

Record PasswordHasher := {
  Hash : string -> error + string;
  Verify : string -> string -> option error
}.

Record EmailSender := {
  SendWelcomeEmail : string -> string -> option error
}.

(** The [Logger] is the record of the calls made to it, in order; the
    [map[string]interface{}] of a call is the list of its entries. *)
Inductive Value :=
| VString (s : string)
| VInt (n : Z).

Definition Fields := list (string * Value).

Inductive LogEntry :=
| LogInfo (message : string) (fields : Fields)
| LogError (message : string) (err : error) (fields : Fields).

(** What a use case acts on: the state of the repository, the log (the
    [logger] field of the use cases), and the goroutines it has started and
    that have yet to run. The only [go]
    statement of the sources is the welcome email of [Create]; a started
    goroutine is the user it was started for. *)
Record World (S : Type) := {
  store : S;
  logs : list LogEntry;
  goroutines : list User
}.

Arguments store {S}.
Arguments logs {S}.
Arguments goroutines {S}.

Definition M (S A : Type) : Type := World S -> A * World S.

Definition ret {S A} (a : A) : M S A := fun w => (a, w).

Definition bind {S A B} (c : M S A) (k : A -> M S B) : M S B :=
  fun w => let '(a, w') := c w in k a w'.

Notation "'let!' x ':=' c 'in' k" := (bind c (fun x => k))
  (at level 10, x name, c at level 200, k at level 200).

Definition Info {S} (message : string) (fields : Fields) : M S unit :=
  fun w => (tt, {| store := store w;
                   logs := logs w ++ [LogInfo message fields];
                   goroutines := goroutines w |}).

Definition Error {S} (message : string) (err : error) (fields : Fields)
  : M S unit :=
  fun w => (tt, {| store := store w;
                   logs := logs w ++ [LogError message err fields];
                   goroutines := goroutines w |}).

(** A call of a repository method. *)
Definition call {S A} (f : S -> A * S) : M S A :=
  fun w => let '(a, s) := f (store w) in
           (a, {| store := s; logs := logs w; goroutines := goroutines w |}).

(** [go func() { ... }()] *)
Definition go {S} (createdUser : User) : M S unit :=
  fun w => (tt, {| store := store w; logs := logs w;
                   goroutines := goroutines w ++ [createdUser] |}).

(** *** Create *)

Module CreateUserRequest.
Record t := { Email : string; Name : string; Password : string }.
End CreateUserRequest.

Module CreateUserResponse.
Record t := { ID : Z; Email : string; Name : string; Created : Time }.
End CreateUserResponse.

Module CreateUserUseCase.

Record t (S : Type) := {
  userRepo : UserRepository S;
  passwordHash : PasswordHasher;
  emailSender : EmailSender
}.

Arguments userRepo {S}.
Arguments passwordHash {S}.
Arguments emailSender {S}.

Definition Execute `{CaseTables} {S} (uc : t S) (now : Time)
    (req : CreateUserRequest.t) : M S (error + CreateUserResponse.t) :=
  let! _ := Info "Creating new user"
       [("email", VString (CreateUserRequest.Email req));
        ("name", VString (CreateUserRequest.Name req))]%string in
  (* 1. the email must not exist yet *)
  let! r := call (isEmailTaken (userRepo uc) (CreateUserRequest.Email req)) in
  match r with
  | inl err =>
    let! _ := Error "Failed to check email existence" err
          [("email", VString (CreateUserRequest.Email req))]%string in
    ret (inl "erreur lors de la vérification de l'email"%string)
  | inr true => ret (inl "un utilisateur avec cet email existe déjà"%string)
  | inr false =>
    (* 2. the entity, with its validation *)
    match NewUser now (CreateUserRequest.Email req) (CreateUserRequest.Name req)
                  (CreateUserRequest.Password req) with
    | inl err =>
      let! _ := Error "Failed to create user entity" err
            [("email", VString (CreateUserRequest.Email req));
             ("name", VString (CreateUserRequest.Name req))]%string in
      ret (inl err)
    | inr user =>
      (* 3. the password hash *)
      match Hash (passwordHash uc) (Password user) with
      | inl err =>
        let! _ := Error "Failed to hash password" err
              [("email", VString (CreateUserRequest.Email req))]%string in
        ret (inl "erreur lors du traitement du mot de passe"%string)
      | inr hashedPassword =>
        let user := {| ID := ID user; Email := Email user; Name := Name user;
                       Password := hashedPassword; Created := Created user;
                       Updated := Updated user |} in
        (* 4. the repository *)
        let! r := call (Create (userRepo uc) user) in
        match r with
        | inl err =>
          let! _ := Error "Failed to save user" err
                [("email", VString (CreateUserRequest.Email req));
                 ("name", VString (CreateUserRequest.Name req))]%string in
          ret (inl "erreur lors de la création de l'utilisateur"%string)
        | inr createdUser =>
          (* 5. the welcome email, in a goroutine *)
          let! _ := go createdUser in
          let! _ := Info "User created successfully"
               [("user_id", VInt (ID createdUser));
                ("email", VString (Email createdUser))]%string in
          (* 6. the response *)
          ret (inr {| CreateUserResponse.ID := ID createdUser;
                      CreateUserResponse.Email := Email createdUser;
                      CreateUserResponse.Name := Name createdUser;
                      CreateUserResponse.Created := Created createdUser |})
        end
      end
    end
  end.

(** The body of the goroutine started at step 5, when it is run. *)
Definition welcome {S} (uc : t S) (createdUser : User) : M S unit :=
  match SendWelcomeEmail (emailSender uc) (Email createdUser) (Name createdUser) with
  | Some err =>
    Error "Failed to send welcome email" err
          [("user_id", VInt (ID createdUser));
           ("email", VString (Email createdUser))]%string
  | None => ret tt
  end.

(** The goroutines started so far, run to their end one after the other. *)
Definition drain {S} (uc : t S) : M S unit :=
  fun w =>
    (tt, foldl (fun w createdUser => (welcome uc createdUser w).2)
               {| store := store w; logs := logs w; goroutines := [] |}
               (goroutines w)).

End CreateUserUseCase.

(** *** Get *)

Module GetUserResponse.
Record t := {
  ID : Z; Email : string; Name : string; Created : Time; Updated : Time
}.
End GetUserResponse.

Module GetUserUseCase.

Record t (S : Type) := { userRepo : UserRepository S }.
Arguments userRepo {S}.

Definition ExecuteByID {S} (uc : t S) (id : Z) : M S (error + GetUserResponse.t) :=
  let! r := call (GetById (userRepo uc) id) in
  match r with
  | inl err =>
    let! _ := Error "Failed to get user by ID" err [("user_id", VInt id)]%string in
    ret (inl "utilisateur non trouvé"%string)
  | inr user =>
    ret (inr {| GetUserResponse.ID := ID user;
                GetUserResponse.Email := Email user;
                GetUserResponse.Name := Name user;
                GetUserResponse.Created := Created user;
                GetUserResponse.Updated := Updated user |})
  end.

Definition ExecuteByEmail {S} (uc : t S) (email : string)
  : M S (error + GetUserResponse.t) :=
  let! r := call (GetByEmail (userRepo uc) email) in
  match r with
  | inl err =>
    let! _ := Error "Failed to get user by email" err [("email", VString email)]%string in
    ret (inl "utilisateur non trouvé"%string)
  | inr user =>
    ret (inr {| GetUserResponse.ID := ID user;
                GetUserResponse.Email := Email user;
                GetUserResponse.Name := Name user;
                GetUserResponse.Created := Created user;
                GetUserResponse.Updated := Updated user |})
  end.

End GetUserUseCase.

(** *** Update *)

Module UpdateUserRequest.
Record t := { ID : Z; Email : string; Name : string }.
End UpdateUserRequest.

Module UpdateUserResponse.
Record t := { ID : Z; Email : string; Name : string; Updated : Time }.
End UpdateUserResponse.

Module UpdateUserUseCase.

Record t (S : Type) := { userRepo : UserRepository S }.
Arguments userRepo {S}.

(** Steps 3 and 4 and the response, once the email check has passed. *)
Definition save `{CaseTables} {S} (uc : t S) (now : Time)
    (req : UpdateUserRequest.t) (user : User)
  : M S (error + UpdateUserResponse.t) :=
  (* 3. the entity's own method *)
  let '(user, err) := UpdateUserProfile now user (UpdateUserRequest.Name req)
                                        (UpdateUserRequest.Email req) in
  match err with
  | Some err =>
    let! _ := Error "Failed to update user profile" err
          [("user_id", VInt (UpdateUserRequest.ID req))]%string in
    ret (inl err)
  | None =>
    (* 4. the repository *)
    let! r := call (Update (userRepo uc) user) in
    match r with
    | inl err =>
      let! _ := Error "Failed to save user update" err
            [("user_id", VInt (UpdateUserRequest.ID req))]%string in
      ret (inl "erreur lors de la mise à jour"%string)
    | inr _ =>
      let! _ := Info "User updated successfully"
           [("user_id", VInt (ID user)); ("email", VString (Email user))]%string in
      ret (inr {| UpdateUserResponse.ID := ID user;
                  UpdateUserResponse.Email := Email user;
                  UpdateUserResponse.Name := Name user;
                  UpdateUserResponse.Updated := Updated user |})
    end
  end.

Definition Execute `{CaseTables} {S} (uc : t S) (now : Time)
    (req : UpdateUserRequest.t) : M S (error + UpdateUserResponse.t) :=
  let! _ := Info "Updating user"
       [("user_id", VInt (UpdateUserRequest.ID req));
        ("email", VString (UpdateUserRequest.Email req));
        ("name", VString (UpdateUserRequest.Name req))]%string in
  (* 1. the existing user *)
  let! r := call (GetById (userRepo uc) (UpdateUserRequest.ID req)) in
  match r with
  | inl err =>
    let! _ := Error "Failed to get user for update" err
          [("user_id", VInt (UpdateUserRequest.ID req))]%string in
    ret (inl "utilisateur non trouvé"%string)
  | inr user =>
    (* 2. if the email changes, it must not be taken *)
    if negb (String.eqb (Email user) (UpdateUserRequest.Email req)) then
      let! r := call (isEmailTaken (userRepo uc) (UpdateUserRequest.Email req)) in
      match r with
      | inl err =>
        let! _ := Error "Failed to check email existence for update" err
              [("email", VString (UpdateUserRequest.Email req))]%string in
        ret (inl "erreur lors de la vérification de l'email"%string)
      | inr true => ret (inl "cet email est déjà utilisé"%string)
      | inr false => save uc now req user
      end
    else save uc now req user
  end.

End UpdateUserUseCase.

(** *** Delete *)

Module DeleteUserUseCase.

Record t (S : Type) := { userRepo : UserRepository S }.
Arguments userRepo {S}.

Definition Execute {S} (uc : t S) (id : Z) : M S (option error) :=
  let! _ := Info "Deleting user" [("user_id", VInt id)]%string in
  let! r := call (GetById (userRepo uc) id) in
  match r with
  | inl err =>
    let! _ := Error "Failed to get user for deletion" err [("user_id", VInt id)]%string in
    ret (Some "utilisateur non trouvé"%string)
  | inr _ =>
    let! r := call (DeleteById (userRepo uc) id) in
    match r with
    | Some err =>
      let! _ := Error "Failed to delete user" err [("user_id", VInt id)]%string in
      ret (Some "erreur lors de la suppression"%string)
    | None =>
      let! _ := Info "User deleted successfully" [("user_id", VInt id)]%string in
      ret None
    end
  end.

End DeleteUserUseCase.

(** *** List *)

Module ListUsersRequest.
Record t := { Page : Z; PageSize : Z }.
End ListUsersRequest.

Module ListUsersResponse.
Record t := {
  Users : list GetUserResponse.t;
  Total : Z;
  Page : Z;
  PageSize : Z;
  TotalPages : Z
}.
End ListUsersResponse.

Module ListUsersUseCase.

Record t (S : Type) := { userRepo : UserRepository S }.
Arguments userRepo {S}.

Definition Execute {S} (uc : t S) (req : ListUsersRequest.t)
  : M S (error + ListUsersResponse.t) :=
  (* the defaults *)
  let req := if ListUsersRequest.Page req =? 0
             then {| ListUsersRequest.Page := 1;
                     ListUsersRequest.PageSize := ListUsersRequest.PageSize req |}
             else req in
  let req := if ListUsersRequest.PageSize req =? 0
             then {| ListUsersRequest.Page := ListUsersRequest.Page req;
                     ListUsersRequest.PageSize := 10 |}
             else req in
  let offset := goint.mul (goint.sub (ListUsersRequest.Page req) 1)
                          (ListUsersRequest.PageSize req) in
  let! r := call (List (userRepo uc) (ListUsersRequest.PageSize req) offset) in
  match r with
  | inl err =>
    let! _ := Error "Failed to list users" err
          [("page", VInt (ListUsersRequest.Page req));
           ("page_size", VInt (ListUsersRequest.PageSize req))]%string in
    ret (inl "erreur lors de la récupération des utilisateurs"%string)
  | inr users =>
    let! r := call (Count (userRepo uc)) in
    match r with
    | inl err =>
      let! _ := Error "Failed to count users" err [] in
      ret (inl "erreur lors du comptage des utilisateurs"%string)
    | inr total =>
      let userResponses :=
        (fun user => {| GetUserResponse.ID := ID user;
                        GetUserResponse.Email := Email user;
                        GetUserResponse.Name := Name user;
                        GetUserResponse.Created := Created user;
                        GetUserResponse.Updated := Updated user |}) <$> users in
      let totalPages :=
        goint.div (goint.sub (goint.add total (ListUsersRequest.PageSize req)) 1)
                  (ListUsersRequest.PageSize req) in
      ret (inr {| ListUsersResponse.Users := userResponses;
                  ListUsersResponse.Total := total;
                  ListUsersResponse.Page := ListUsersRequest.Page req;
                  ListUsersResponse.PageSize := ListUsersRequest.PageSize req;
                  ListUsersResponse.TotalPages := totalPages |})
    end
  end.

End ListUsersUseCase.

End usecases.

(** ** The mock as an implementation of [UserRepository] *)

Module mockstore.
Import entities mocks.

(** The repository and the memory its pointers lead into. *)
Definition State : Type := MockUserRepository * Heap.

(** The normalization [NewUser] and [UpdateUserProfile] apply when they
    write an email. *)
Definition normalize `{CaseTables} (email : string) : string :=
  strings.ToLower (strings.TrimSpace email).

(** [Create] of the interface: the use case's record lies in memory, the
    mock is handed its address, and the use case reads the record behind the
    pointer it gets back. *)
Definition Create (u : User) (s : State) : (error + User) * State :=
  let '(user, h) := alloc s.2 u in
  let '(r, m, h) := mocks.Create user s.1 h in
  (match r with inl err => inl err | inr p => inr (load h p) end, (m, h)).

Definition GetById (id : Z) (s : State) : (error + User) * State :=
  let '(r, h) := mocks.GetByID id s.1 s.2 in
  (match r with inl err => inl err | inr p => inr (load h p) end, (s.1, h)).

(** Modelled from the spec: no implementation of [GetByEmail] is among the
    sources. Section 4.1: the same contract as [GetByID] through the
    secondary index; the comparison is case-insensitive and uses the
    normalization applied at write time; [NotFound] when absent; a fresh copy
    otherwise. *)
Definition GetByEmail `{CaseTables} (email : string) (s : State)
  : (error + User) * State :=
  match emails s.1 !! normalize email with
  | None => (inl "user not found"%string, s)
  | Some user =>
    let '(userCopy, h) := alloc s.2 (load s.2 user) in
    (inr (load h userCopy), (s.1, h))
  end.

(** Modelled from the spec: no implementation of [isEmailTaken] (the spec's
    [ExistsByEmail]) is among the sources. Section 4.1: a lookup against the
    email index, with no error path; section 3: the comparison is
    case-insensitive, the store normalizes before it compares. *)
Definition isEmailTaken `{CaseTables} (email : string) (s : State)
  : (error + bool) * State :=
  (inr (match emails s.1 !! normalize email with Some _ => true | None => false end), s).

(** [Update] of the interface, by the demonstration program's in-place
    [Update]; the record handed back is a copy of the stored one. *)
Definition Update (u : User) (s : State) : (error + User) * State :=
  let '(user, h) := alloc s.2 u in
  let '(err, h) := mocks.Update user s.1 h in
  match err with
  | Some err => (inl err, (s.1, h))
  | None => GetById (ID u) (s.1, h)
  end.

(** Modelled from the spec: no implementation of [DeleteById] is among the
    sources. Section 4.1: [NotFound] when absent; otherwise the record leaves
    the primary map and the email index together. *)
Definition DeleteById (id : Z) (s : State) : option error * State :=
  match users s.1 !! id with
  | None => (Some "user not found"%string, s)
  | Some user =>
    (None, ({| users := delete id (users s.1);
               emails := delete (Email (load s.2 user)) (emails s.1);
               nextID := nextID s.1 |}, s.2))
  end.

(** Modelled from the spec: no implementation of [List] with a limit and an
    offset is among the sources. Section 4.1: copies in ascending order of
    identifier, at most [limit] of them, after the first [offset]; the empty
    sequence when the offset exceeds the count. *)
Definition List (limit offset : Z) (s : State) : (error + list User) * State :=
  let ids := merge_sort Z.le (fst <$> map_to_list (users s.1)) in
  let page := take (Z.to_nat limit) (drop (Z.to_nat offset) ids) in
  let '(result, h) :=
    foldl (fun '(result, h) id =>
             match users s.1 !! id with
             | Some user =>
               let '(userCopy, h) := alloc h (load h user) in
               (result ++ [load h userCopy], h)
             | None => (result, h)
             end) ([], s.2) page in
  (inr result, (s.1, h)).

(** Modelled from the spec: no implementation of [Count] is among the
    sources. Section 4.1: the number of live records. *)
Definition Count (s : State) : (error + Z) * State :=
  (inr (Z.of_nat (size (users s.1))), s).

(** The records the repository holds. *)
Definition live (s : State) (u : User) : Prop :=
  exists id p, users s.1 !! id = Some p /\ s.2 !! p = Some u.

(** The state the use cases keep the mock in: the pointers of the primary
    map are allocated, every record it holds was written with a normalized
    email, and the index has an entry for that email. *)
Definition consistent `{CaseTables} (s : State) : Prop :=
  forall id p, users s.1 !! id = Some p ->
    (p < length s.2)%nat /\
    normalize (Email (load s.2 p)) = Email (load s.2 p) /\
    is_Some (emails s.1 !! Email (load s.2 p)).

(** The mock behind the interface, with [check] for its [isEmailTaken]. *)
Definition repository_checking `{CaseTables}
    (check : string -> State -> (error + bool) * State)
  : repositories.UserRepository State :=
  {| repositories.Create := Create;
     repositories.GetById := GetById;
     repositories.GetByEmail := GetByEmail;
     repositories.isEmailTaken := check;
     repositories.Update := Update;
     repositories.DeleteById := DeleteById;
     repositories.List := List;
     repositories.Count := Count |}.

Definition repository `{CaseTables} : repositories.UserRepository State :=
  repository_checking isEmailTaken.

End mockstore.


(** ** The acceptance condition of the constructor, as the specification
    words it *)

Module acceptance.
Import utf8.

(** "contains the character '@'" *)
Definition has_at (s : string) : bool := existsb (Z.eqb 0x40) (bytes s).

(** The trimmed email is non-empty, contains '@' and is at most 255 bytes. *)
Definition email_ok (email : string) : bool :=
  let e := strings.TrimSpace email in
  negb (String.eqb e "") && has_at e && (strings.len e <=? 255).

Definition offensiveWords : list string :=
  ["fuck"; "shit"; "damn"; "idiot"; "stupid"; "hitler"; "cunt"]%string.

(** Two letters that differ by case at most. *)
Definition lower_letter (r : rune) : rune :=
  if (0x41 <=? r) && (r <=? 0x5A) then r + 0x20 else r.

Definition same_letter (p c : rune) : bool := lower_letter p =? lower_letter c.

Fixpoint starts_with_nocase (w s : list rune) : bool :=
  match w, s with
  | [], _ => true
  | p :: w', c :: s' => same_letter p c && starts_with_nocase w' s'
  | _ :: _, [] => false
  end.

(** [w] is a substring of [s], case-insensitively. *)
Fixpoint contains_nocase (w s : list rune) : bool :=
  starts_with_nocase w s ||
  match s with
  | [] => false
  | _ :: s' => contains_nocase w s'
  end.

(** The Latin letters, the range from U+00C0 to U+00FF included. *)
Definition latin_letter (r : rune) : bool :=
  ((0x61 <=? r) && (r <=? 0x7A)) || ((0x41 <=? r) && (r <=? 0x5A))
  || ((0xC0 <=? r) && (r <=? 0xFF)).

(** White space, as the pattern's [\s] has it: space, tab, line feed, form
    feed, carriage return. *)
Definition whitespace (r : rune) : bool :=
  (r =? 0x20) || (r =? 0x09) || (r =? 0x0A) || (r =? 0x0C) || (r =? 0x0D).

Definition name_rune (r : rune) : bool :=
  latin_letter r || whitespace r || (r =? 0x2D) || (r =? 0x27) || (r =? 0x2E).

(** The trimmed name is at least 2 and at most 100 bytes, contains none of
    the offensive words, and consists of letters, white space, hyphen,
    apostrophe and period alone. *)
Definition name_ok (name : string) : bool :=
  let n := strings.TrimSpace name in
  (2 <=? strings.len n) && (strings.len n <=? 100)
  && negb (existsb (fun w => contains_nocase (decode w) (decode n)) offensiveWords)
  && forallb name_rune (decode n).

(** The password is non-empty, of 6 to 128 bytes. *)
Definition password_ok (password : string) : bool :=
  negb (String.eqb password "") && (6 <=? strings.len password)
  && (strings.len password <=? 128).

Definition accepts (email name password : string) : bool :=
  email_ok email && name_ok name && password_ok password.

End acceptance.

(** ** The life of a [User]: its construction, then mutations *)

Module history.
Import entities.

Inductive mutation :=
| CallUpdateUserProfile (name email : string)
| CallChangePassword (newPassword : string).

Definition apply `{CaseTables} (now : Time) (u : User) (m : mutation)
  : User * option error :=
  match m with
  | CallUpdateUserProfile name email => UpdateUserProfile now u name email
  | CallChangePassword newPassword => ChangePassword now u newPassword
  end.

(** The user after a sequence of calls, each with the reading of the clock
    at the call. *)
Fixpoint run `{CaseTables} (u : User) (calls : list (Time * mutation)) : User :=
  match calls with
  | [] => u
  | (now, m) :: calls' => run (apply now u m).1 calls'
  end.

(** The process clock does not run backwards: the readings, from [t] on,
    never decrease. *)
Fixpoint nondecreasing (t : Time) (readings : list Time) : Prop :=
  match readings with
  | [] => True
  | t' :: readings' => t <= t' /\ nondecreasing t' readings'
  end.

End history.

(** ** Repositories built from a repository *)

Module decorators.
Import entities repositories.

(** The calls a use case makes to its repository. *)
Inductive Call :=
| CallCreate (user : User)
| CallGetById (id : Z)
| CallGetByEmail (email : string)
| CallIsEmailTaken (email : string)
| CallUpdate (user : User)
| CallDeleteById (id : Z)
| CallList (limit offset : Z)
| CallCount.

Definition noted {S A} (c : Call) (f : S -> A * S) (s : S * list Call)
  : A * (S * list Call) :=
  let '(a, s') := f s.1 in (a, (s', s.2 ++ [c])).

(** The repository [R], keeping the list of the calls made to it. *)
Definition recording {S} (R : UserRepository S) : UserRepository (S * list Call) :=
  {| Create := fun user => noted (CallCreate user) (Create R user);
     GetById := fun id => noted (CallGetById id) (GetById R id);
     GetByEmail := fun email => noted (CallGetByEmail email) (GetByEmail R email);
     isEmailTaken := fun email => noted (CallIsEmailTaken email) (isEmailTaken R email);
     Update := fun user => noted (CallUpdate user) (Update R user);
     DeleteById := fun id => noted (CallDeleteById id) (DeleteById R id);
     List := fun limit offset => noted (CallList limit offset) (List R limit offset);
     Count := noted CallCount (Count R) |}.

Definition with_password (pw : string) (u : User) : User :=
  {| ID := ID u; Email := Email u; Name := Name u; Password := pw;
     Created := Created u; Updated := Updated u |}.

Definition scrub {S A B} (g : A -> B) (f : S -> (error + A) * S) (s : S)
  : (error + B) * S :=
  let '(r, s') := f s in
  (match r with inl err => inl err | inr a => inr (g a) end, s').

(** The repository [R], with the credential of every record it hands out
    replaced by [pw u]. *)
Definition redacting {S} (pw : User -> string) (R : UserRepository S)
  : UserRepository S :=
  let hide := fun u => with_password (pw u) u in
  {| Create := fun user => scrub hide (Create R user);
     GetById := fun id => scrub hide (GetById R id);
     GetByEmail := fun email => scrub hide (GetByEmail R email);
     isEmailTaken := isEmailTaken R;
     Update := fun user => scrub hide (Update R user);
     DeleteById := DeleteById R;
     List := fun limit offset => scrub (fmap hide) (List R limit offset);
     Count := Count R |}.

(** Two results that, when both are responses, are the same response. *)
Definition agree {A} (r r' : error + A) : Prop :=
  match r, r' with
  | inr a, inr a' => a = a'
  | _, _ => True
  end.

End decorators.

(** ** Concrete values *)

Module examples.
Import entities usecases.

(** Case tables that leave the runes beyond ASCII as they are. *)
Definition tables : CaseTables := {| To_LowerCase := fun r => r |}.

Definition ann : User :=
  {| ID := 1; Email := "a@x.com"; Name := "Ann"; Password := "#secret1";
     Created := 7; Updated := 7 |}.

Definition hasher : PasswordHasher :=
  {| Hash := fun p => inr ("#" ++ p)%string; Verify := fun _ _ => None |}.

Definition mailer_down : EmailSender :=
  {| SendWelcomeEmail := fun _ _ => Some "smtp: connection refused"%string |}.

(** The mock after [Create] of [ann]: the caller's record at address 0, the
    stored copy at address 1. *)
Definition one_user : mockstore.State :=
  ({| mocks.users := {[ 1 := 1%nat ]};
      mocks.emails := {[ "a@x.com"%string := 1%nat ]};
      mocks.nextID := 2 |}, [ann; ann]).

Definition bob : User :=
  {| ID := 2; Email := "b@x.com"; Name := "Bob"; Password := "#secret2";
     Created := 8; Updated := 8 |}.

Definition cid : User :=
  {| ID := 3; Email := "c@x.com"; Name := "Cid"; Password := "#secret3";
     Created := 9; Updated := 9 |}.

Definition three_users : mockstore.State :=
  ({| mocks.users := {[ 1 := 0%nat; 2 := 1%nat; 3 := 2%nat ]};
      mocks.emails := {[ "a@x.com"%string := 0%nat; "b@x.com"%string := 1%nat;
                         "c@x.com"%string := 2%nat ]};
      mocks.nextID := 4 |}, [ann; bob; cid]).

Definition world {S} (s : S) : World S :=
  {| store := s; logs := []; goroutines := [] |}.

(** A user as [NewUser] leaves it. *)
Definition fresh_ann : User :=
  {| ID := 0; Email := "a@x.com"; Name := "Ann"; Password := "secret1";
     Created := 7; Updated := 7 |}.

(** Three calls on that user; the second one fails. *)
Definition calls : list (Time * history.mutation) :=
  [(8, history.CallUpdateUserProfile "Annie" "ANN@x.com");
   (8, history.CallChangePassword "123");
   (11, history.CallChangePassword "secret2")]%string.

Definition empty_store : mockstore.State := (mocks.NewMockUserRepository, []).

(** The name a, vertical tab, b. *)
Definition name_with_vertical_tab : string :=
  String "a" (String (ascii_of_nat 11) (String "b" EmptyString)).

(** A user as [NewUser] and the hasher leave it, before [Create]. *)
Definition candidate : User :=
  {| ID := 0; Email := "a@x.com"; Name := "Ann"; Password := "#secret1";
     Created := 7; Updated := 7 |}.

Definition mallory : User :=
  {| ID := 1; Email := "a@x.com"; Name := "Mallory"; Password := "#secret1";
     Created := 7; Updated := 7 |}.

Definition creator : CreateUserUseCase.t mockstore.State :=
  {| CreateUserUseCase.userRepo := @mockstore.repository tables;
     CreateUserUseCase.passwordHash := hasher;
     CreateUserUseCase.emailSender := mailer_down |}.

Definition updater : UpdateUserUseCase.t mockstore.State :=
  {| UpdateUserUseCase.userRepo := @mockstore.repository tables |}.

Definition lister : ListUsersUseCase.t mockstore.State :=
  {| ListUsersUseCase.userRepo := @mockstore.repository tables |}.

End examples.

(** ** The closures of the demonstration program *)

Module demo.
Import entities mocks.

(** [demonstrateList], [dangerousList]: the pointers of [storage] as they
    are. *)
Definition dangerousList (storage : gmap Z ptr) (h : Heap) : list ptr * Heap :=
  (foldl (fun users '(_, user) => users ++ [user]) [] (map_to_list storage), h).

(** [demonstrateList], [safeList]: pointers to copies. *)
Definition safeList (storage : gmap Z ptr) (h : Heap) : list ptr * Heap :=
  foldl (fun '(users, h) '(_, user) =>
           let '(userCopy, h) := alloc h (load h user) in
           (users ++ [userCopy], h))
        ([], h) (map_to_list storage).

(** [demonstrateUpdate], [updateInPlace]. The map yields a nil pointer for
    an identifier it does not hold, and the assignment through it panics:
    [None]. *)
Definition updateInPlace (user : ptr) (storage : gmap Z ptr) (h : Heap)
  : option Heap :=
  match storage !! ID (load h user) with
  | None => None
  | Some existingUser =>
    let e := load h existingUser in
    Some (<[existingUser := {| ID := ID e; Email := Email e;
                               Name := Name (load h user);
                               Password := Password e; Created := Created e;
                               Updated := Updated e |}]> h)
  end.

(** [demonstrateUpdate], [updateWithReplace]. *)
Definition updateWithReplace (user : ptr) (storage : gmap Z ptr) (h : Heap)
  : gmap Z ptr * Heap :=
  let '(newUser, h') := alloc h (load h user) in
  (<[ID (load h' user) := newUser]> storage, h').

End demo.

(** ** What the mock keeps true *)

Module mockinv.
Import entities mocks.

(** The identifiers handed out so far are below the next one. *)
Definition ids_below (m : MockUserRepository) : Prop :=
  forall id p, users m !! id = Some p -> id < nextID m.

(** A record is stored under its own identifier. *)
Definition keyed (m : MockUserRepository) (h : Heap) : Prop :=
  forall id p, users m !! id = Some p -> ID (load h p) = id.

(** The email index leads from the email of a stored record to that
    record ... *)
Definition indexed (m : MockUserRepository) (h : Heap) : Prop :=
  forall id p, users m !! id = Some p -> emails m !! Email (load h p) = Some p.

(** ... and to stored records only, each under its email. *)
Definition index_exact (m : MockUserRepository) (h : Heap) : Prop :=
  forall email p, emails m !! email = Some p ->
    Email (load h p) = email /\ exists id, users m !! id = Some p.

Definition sound (m : MockUserRepository) (h : Heap) : Prop :=
  allocated m h /\ ids_below m /\ keyed m h /\ indexed m h /\ index_exact m h.

(** The record at [user] is not one of the stored ones. *)
Definition foreign (user : ptr) (m : MockUserRepository) : Prop :=
  forall id p, users m !! id = Some p -> p <> user.

(** The stored records: identifier and content. *)
Definition contents (m : MockUserRepository) (h : Heap) : gmap Z User :=
  load h <$> users m.

Definition with_ID (id : Z) (u : User) : User :=
  {| ID := id; Email := Email u; Name := Name u; Password := Password u;
     Created := Created u; Updated := Updated u |}.

Definition with_Name (name : string) (u : User) : User :=
  {| ID := ID u; Email := Email u; Name := name; Password := Password u;
     Created := Created u; Updated := Updated u |}.

End mockinv.

(** ** Repositories and hashers with other error texts *)

Module wording.
Import entities repositories usecases.

Definition reword {S A} (f : error -> error) (m : S -> (error + A) * S) (s : S)
  : (error + A) * S :=
  let '(r, s') := m s in
  (match r with inl err => inl (f err) | inr a => inr a end, s').

(** The repository [R], each of its errors [err] replaced by [f err]. *)
Definition rewording {S} (f : error -> error) (R : UserRepository S)
  : UserRepository S :=
  {| Create := fun user => reword f (Create R user);
     GetById := fun id => reword f (GetById R id);
     GetByEmail := fun email => reword f (GetByEmail R email);
     isEmailTaken := fun email => reword f (isEmailTaken R email);
     Update := fun user => reword f (Update R user);
     DeleteById := fun id s =>
       let '(r, s') := DeleteById R id s in (f <$> r, s');
     List := fun limit offset => reword f (List R limit offset);
     Count := reword f (Count R) |}.

Definition rewording_hasher (f : error -> error) (hp : PasswordHasher)
  : PasswordHasher :=
  {| Hash := fun password =>
       match Hash hp password with inl err => inl (f err) | inr d => inr d end;
     Verify := fun password hash => f <$> Verify hp password hash |}.

(** Two runs with the same result, the same repository and the same
    goroutines at their end; what they have logged may differ. *)
Definition same_but_log {S A} (x y : A * World S) : Prop :=
  x.1 = y.1 /\ store x.2 = store y.2 /\ goroutines x.2 = goroutines y.2.

End wording.

(** ** What a log entry carries *)

Module logging.
Import usecases.

(** The [map[string]interface{}] of a call to the logger. *)
Definition fields_of (e : LogEntry) : Fields :=
  match e with
  | LogInfo _ fields => fields
  | LogError _ _ fields => fields
  end.

End logging.

(** ** Strings in ASCII *)

Module charset.
Import utf8.

(** Every byte of the string is below [RuneSelf]: each is a rune of its
    own. *)
Definition ascii_only (s : string) : bool :=
  forallb (fun b => b <? RuneSelf) (bytes s).

End charset.

(** ** More concrete values *)

Module scenes.
Import entities mocks usecases.

(** A request for Bob, the user [NewUser] makes of it at time 8, and that
    user with the digest of [examples.hasher], before [Create]. *)
Definition bob_request : CreateUserRequest.t :=
  {| CreateUserRequest.Email := " B@X.com";
     CreateUserRequest.Name := "Bob ";
     CreateUserRequest.Password := "secret2" |}.

Definition fresh_bob : User :=
  {| ID := 0; Email := "b@x.com"; Name := "Bob"; Password := "secret2";
     Created := 8; Updated := 8 |}.

Definition bob_candidate : User :=
  {| ID := 0; Email := "b@x.com"; Name := "Bob"; Password := "#secret2";
     Created := 8; Updated := 8 |}.

(** The memory of [examples.one_user], and one more record, the caller's,
    at address 2. *)
Definition with_caller (u : User) : Heap := examples.one_user.2 ++ [u].

(** An email check that finds nothing and touches nothing. *)
Definition no_check (email : string) (s : mockstore.State)
  : (error + bool) * mockstore.State := (inr false, s).

Definition creator : CreateUserUseCase.t mockstore.State :=
  {| CreateUserUseCase.userRepo := @mockstore.repository_checking examples.tables no_check;
     CreateUserUseCase.passwordHash := examples.hasher;
     CreateUserUseCase.emailSender := examples.mailer_down |}.




(** The repository of [demonstrateRepositoryMemory]: Alice and Bob, at
    addresses 0 and 1, and the record the program hands to [Update], at
    address 2. The program's [User] has an identifier and a name, and its
    repository a [users] map alone: the other fields are at their zero
    values. *)
Definition named (id : Z) (name : string) : User :=
  {| ID := id; Email := ""; Name := name; Password := ""; Created := 0; Updated := 0 |}.

Definition alice_and_bob : MockUserRepository :=
  {| users := {[ 1 := 0%nat; 2 := 1%nat ]}; emails := ∅; nextID := 0 |}.

Definition demonstration_memory : Heap :=
  [named 1 "Alice"; named 2 "Bob"; named 1 "Updated Alice"].

(** A repository that has no user to list and answers [n] when asked for
    its count. *)
Definition counting (n : Z) : repositories.UserRepository unit :=
  {| repositories.Create := fun _ s => (inl "no storage"%string, s);
     repositories.GetById := fun _ s => (inl "user not found"%string, s);
     repositories.GetByEmail := fun _ s => (inl "user not found"%string, s);
     repositories.isEmailTaken := fun _ s => (inr false, s);
     repositories.Update := fun _ s => (inl "user not found"%string, s);
     repositories.DeleteById := fun _ s => (Some "user not found"%string, s);
     repositories.List := fun _ _ s => (inr [], s);
     repositories.Count := fun s => (inr n, s) |}.

End scenes.

(** * Properties *)

Import utf8 regexp entities acceptance.

(** ** The decoder loses no byte *)

Lemma of_bytes_bytes (s : string) : of_bytes (bytes s) = s.
Proof.
  unfold of_bytes, bytes. rewrite <- list_fmap_compose.
  rewrite <- (string_of_list_ascii_of_string s) at 2. f_equal.
  induction (list_ascii_of_string s) as [|c l IH]; [reflexivity|].
  rewrite fmap_cons, IH. unfold compose, ascii_of_byte, byte_of_ascii.
  rewrite N2Z.id, ascii_N_embedding. reflexivity.
Qed.

(** A decoded rune occupies a non-empty prefix of the input. *)
Lemma DecodeRune_prefix (s0 : Z) (rest : list Z) :
  exists tail, s0 :: rest = (DecodeRune s0 rest).2 ++ tail /\
               (length tail < length (s0 :: rest))%nat.
Proof.
  unfold DecodeRune.
  assert (Hbad : exists tail, s0 :: rest = [s0] ++ tail /\
                              (length tail < length (s0 :: rest))%nat).
  { exists rest. simpl. split; [reflexivity | lia]. }
  destruct (first s0) as [| | sz lo hi]; simpl; try exact Hbad.
  destruct rest as [|s1 rest1]; [exact Hbad|].
  destruct ((lo <=? s1) && (s1 <=? hi)); [|exact Hbad].
  destruct (sz <=? 2)%nat.
  { exists rest1. simpl. split; [reflexivity | lia]. }
  destruct rest1 as [|s2 rest2]; [exact Hbad|].
  destruct (continuation s2); [|exact Hbad].
  destruct (sz <=? 3)%nat.
  { exists rest2. simpl. split; [reflexivity | lia]. }
  destruct rest2 as [|s3 rest3]; [exact Hbad|].
  destruct (continuation s3); [|exact Hbad].
  exists rest3. simpl. split; [reflexivity | lia].
Qed.

(** The fuel suffices: the segments of a string, put end to end, are the
    string. *)
Lemma segments_fuel_concat (fuel : nat) : forall s : list Z,
  (length s <= fuel)%nat -> concat ((segments_fuel fuel s).*2) = s.
Proof.
  induction fuel as [|fuel IH]; intros s Hlen.
  - destruct s; [reflexivity | simpl in Hlen; lia].
  - destruct s as [|s0 rest]; [reflexivity|]. simpl.
    destruct (DecodeRune_prefix s0 rest) as (tail & Hs & Htail).
    destruct (DecodeRune s0 rest) as [r bs] eqn:Hd. simpl in *.
    assert (Hdrop : drop (length bs) (s0 :: rest) = tail).
    { rewrite Hs. rewrite drop_app_length. reflexivity. }
    rewrite Hdrop. rewrite IH by lia. symmetry. exact Hs.
Qed.

Lemma segments_concat (s : list Z) : concat ((segments s).*2) = s.
Proof. apply segments_fuel_concat. reflexivity. Qed.

(** ** The matcher agrees with the meaning of the expressions *)

Lemma is_nil_true {A} (l : list A) : is_nil l = true <-> l = [].
Proof. destruct l; simpl; split; congruence. Qed.

Lemma nullable_matches b e r : nullable b e r = true -> matches b e r [].
Proof.
  revert b e. induction r; intros b e Hn; simpl in Hn; try discriminate.
  - constructor.
  - apply is_nil_true in Hn. subst. constructor. constructor.
  - subst. constructor.
  - subst. constructor.
  - constructor. auto.
  - constructor.
  - change (@nil utf8.rune) with (@nil utf8.rune ++ []).
    constructor; simpl; rewrite ?andb_true_r; auto. constructor.
  - apply andb_true_iff in Hn as [H1 H2].
    change (@nil utf8.rune) with (@nil utf8.rune ++ []).
    constructor; simpl; rewrite ?andb_true_r; auto.
  - apply orb_true_iff in Hn as [H1|H2]; [apply m_alt_l|apply m_alt_r]; auto.
Qed.

Lemma matches_nil_nullable b e r s : matches b e r s -> s = [] -> nullable b e r = true.
Proof.
  induction 1; intros Hs; simpl; try reflexivity; try discriminate; auto.
  - subst. inversion H. reflexivity.
  - apply app_eq_nil in Hs as [-> ->]. simpl in *. rewrite andb_true_r in *. auto.
  - apply app_eq_nil in Hs as [-> ->]. simpl in *. rewrite andb_true_r in *.
    rewrite IHmatches1, IHmatches2; auto.
  - rewrite IHmatches; auto.
  - rewrite IHmatches; auto. apply orb_true_r.
Qed.

Lemma matches_deriv b e r s :
  matches b e r s -> forall c s', s = c :: s' -> matches false e (deriv b c r) s'.
Proof.
  induction 1; intros c0 s' Hs; simpl; try discriminate.
  - (* literal *)
    subst. apply Forall2_cons_inv_r in H as (p & rs' & Hp & Hrs & ->).
    rewrite Hp. constructor. assumption.
  - injection Hs as -> <-. rewrite H. constructor.
  - apply IHmatches; assumption.
  - (* star *)
    destruct s1 as [|c1 s1]; simpl in *.
    + rewrite andb_true_r in *. apply IHmatches2 in Hs. simpl in Hs. exact Hs.
    + injection Hs as -> <-. rewrite andb_false_r in *.
      constructor; [apply IHmatches1; reflexivity | simpl; assumption].
  - (* plus *)
    destruct s1 as [|c1 s1]; simpl in *.
    + rewrite andb_true_r in *. apply IHmatches2 in Hs. simpl in Hs. exact Hs.
    + injection Hs as -> <-. rewrite andb_false_r in *.
      constructor; [apply IHmatches1; reflexivity | simpl; assumption].
  - (* concat *)
    destruct s1 as [|c1 s1]; simpl in *.
    + rewrite andb_true_r in *. subst s2. simpl in *. rewrite andb_false_r in *.
      apply m_alt_r. rewrite (matches_nil_nullable _ _ _ _ H eq_refl).
      apply IHmatches2; reflexivity.
    + injection Hs as -> <-. rewrite andb_false_r in *.
      apply m_alt_l. constructor; [apply IHmatches1; reflexivity | simpl; assumption].
  - apply m_alt_l; auto.
  - apply m_alt_r; auto.
Qed.

Lemma deriv_matches r : forall b e c s,
  matches false e (deriv b c r) s -> matches b e r (c :: s).
Proof.
  induction r; intros b e c s Hm; simpl in Hm; try (inversion Hm; fail).
  - destruct rs as [|p rs]; [inversion Hm|].
    destruct (lit_eq fold p c) eqn:Hp; [|inversion Hm].
    inversion Hm; subst. constructor. constructor; assumption.
  - destruct (in_class ranges c) eqn:Hc; inversion Hm; subst. constructor. assumption.
  - constructor. auto.
  - inversion Hm; subst.
    change (c :: s1 ++ s2) with ((c :: s1) ++ s2).
    apply m_star_cons; [apply IHr; assumption|]. simpl. rewrite andb_false_r. assumption.
  - inversion Hm; subst.
    change (c :: s1 ++ s2) with ((c :: s1) ++ s2).
    apply m_plus; [apply IHr; assumption|]. simpl. rewrite andb_false_r. assumption.
  - inversion Hm; subst.
    + match goal with H : matches _ _ (OpConcat _ _) _ |- _ => inversion H; subst end.
      change (c :: s1 ++ s2) with ((c :: s1) ++ s2).
      apply m_concat; [apply IHr1; assumption|]. simpl. rewrite andb_false_r. assumption.
    + destruct (nullable b false r1) eqn:Hn;
        [|match goal with H : matches _ _ OpNoMatch _ |- _ => inversion H end].
      change (c :: s) with ([] ++ c :: s).
      apply m_concat; simpl; rewrite ?andb_true_r, ?andb_false_r.
      * apply nullable_matches. assumption.
      * apply IHr2. assumption.
  - inversion Hm; subst; [apply m_alt_l|apply m_alt_r]; auto.
Qed.

Lemma match_prefix_spec s : forall b r,
  match_prefix b r s = true <->
  exists m z, s = m ++ z /\ matches b (is_nil z) r m.
Proof.
  induction s as [|c s IH]; intros b r; simpl.
  - split.
    + intros Hn. exists [], []. split; [reflexivity|]. apply nullable_matches. assumption.
    + intros (m & z & Hs & Hm). symmetry in Hs. apply app_eq_nil in Hs as [-> ->].
      eapply matches_nil_nullable; eauto.
  - rewrite orb_true_iff, IH. split.
    + intros [Hn | (m & z & -> & Hm)].
      * exists [], (c :: s). split; [reflexivity|]. apply nullable_matches. assumption.
      * exists (c :: m), z. split; [reflexivity|]. apply deriv_matches. assumption.
    + intros (m & z & Hs & Hm). destruct m as [|c' m]; simpl in Hs.
      * left. subst z. eapply matches_nil_nullable; eauto.
      * injection Hs as <- ->. right. exists m, z. split; [reflexivity|].
        eapply matches_deriv; eauto.
Qed.

Lemma search_spec s : forall b r,
  search b r s = true <->
  exists a m z, s = a ++ m ++ z /\ matches (b && is_nil a) (is_nil z) r m.
Proof.
  induction s as [|c s IH]; intros b r; simpl.
  - rewrite orb_false_r. split.
    + intros Hn. exists [], [], []. split; [reflexivity|]. simpl. rewrite andb_true_r.
      apply nullable_matches. assumption.
    + intros (a & m & z & Hs & Hm). symmetry in Hs.
      apply app_eq_nil in Hs as [-> Hs]. apply app_eq_nil in Hs as [-> ->].
      simpl in Hm. rewrite andb_true_r in Hm. eapply matches_nil_nullable; eauto.
  - rewrite orb_true_iff, IH.
    pose proof (match_prefix_spec (c :: s) b r) as Hp. simpl in Hp. rewrite Hp. clear Hp.
    split.
    + intros [(m & z & Hs & Hm) | (a & m & z & -> & Hm)].
      * exists [], m, z. split; [exact Hs|]. simpl. rewrite andb_true_r. assumption.
      * exists (c :: a), m, z. split; [reflexivity|]. simpl. rewrite andb_false_r. exact Hm.
    + intros (a & m & z & Hs & Hm). destruct a as [|c' a]; simpl in *.
      * left. rewrite andb_true_r in Hm. eauto.
      * injection Hs as <- ->. right. rewrite andb_false_r in Hm. exists a, m, z. auto.
Qed.

Lemma matches_class_inv b e cls s :
  matches b e (OpCharClass cls) s -> exists c, s = [c] /\ in_class cls c = true.
Proof. inversion 1; subst; eauto. Qed.

Lemma matches_begin_inv b e s : matches b e OpBeginText s -> s = [] /\ b = true.
Proof. inversion 1; subst; auto. Qed.

Lemma matches_end_inv b e s : matches b e OpEndText s -> s = [] /\ e = true.
Proof. inversion 1; subst; auto. Qed.

Lemma matches_concat_inv b e r1 r2 s :
  matches b e (OpConcat r1 r2) s ->
  exists s1 s2, s = s1 ++ s2 /\ matches b (e && is_nil s2) r1 s1
                /\ matches (b && is_nil s1) e r2 s2.
Proof. inversion 1; subst; eauto. Qed.

Lemma matches_plus_inv b e r s :
  matches b e (OpPlus r) s ->
  exists s1 s2, s = s1 ++ s2 /\ matches b (e && is_nil s2) r s1
                /\ matches (b && is_nil s1) e (OpStar r) s2.
Proof. inversion 1; subst; eauto. Qed.

Lemma matches_capture_inv b e r s : matches b e (OpCapture r) s -> matches b e r s.
Proof. inversion 1; subst; auto. Qed.

Lemma matches_alt_inv b e r1 r2 s :
  matches b e (OpAlternate r1 r2) s -> matches b e r1 s \/ matches b e r2 s.
Proof. inversion 1; subst; auto. Qed.

Lemma matches_literal_inv b e f rs s :
  matches b e (OpLiteral f rs) s -> Forall2 (fun p c => lit_eq f p c = true) rs s.
Proof. inversion 1; subst; auto. Qed.

(** ** The two patterns of [users.go] *)

Lemma star_class_matches cls s b e :
  matches b e (OpStar (OpCharClass cls)) s <-> forallb (in_class cls) s = true.
Proof.
  split.
  - intros Hm. remember (OpStar (OpCharClass cls)) as r eqn:Hr.
    induction Hm; try discriminate; [reflexivity|].
    injection Hr as ->. apply matches_class_inv in Hm1 as (c & -> & Hc). simpl.
    rewrite Hc. simpl. apply IHHm2. reflexivity.
  - revert b e. induction s as [|c s IH]; intros b e; simpl; [constructor|].
    intros [Hc Hs]%andb_true_iff.
    change (c :: s) with ([c] ++ s). constructor; [constructor; assumption | apply IH; assumption].
Qed.

Lemma validNameRegex_spec (s : string) :
  MatchString validNameRegex s = true <->
  decode s <> [] /\ forallb (in_class nameClass) (decode s) = true.
Proof.
  unfold MatchString. rewrite search_spec. unfold validNameRegex. split.
  - intros (a & m & z & Hs & Hm).
    apply matches_concat_inv in Hm as (s1 & s2 & -> & Hb & Hrest).
    apply matches_begin_inv in Hb as [-> Ha].
    apply matches_concat_inv in Hrest as (s3 & s4 & -> & Hp & He).
    apply matches_end_inv in He as [-> Hz].
    apply matches_plus_inv in Hp as (s5 & s6 & -> & Hc & Hst).
    apply matches_class_inv in Hc as (c & -> & Hc).
    apply star_class_matches in Hst.
    destruct a; [|discriminate]. destruct z; [|discriminate].
    simpl in Hs. rewrite !app_nil_r in Hs. rewrite Hs. simpl. split; [discriminate|].
    apply andb_true_iff; split; assumption.
  - intros [Hne Hall]. destruct (decode s) as [|c l]; [congruence|].
    simpl in Hall. apply andb_true_iff in Hall as [Hc Hl].
    exists [], (c :: l), []. split; [simpl; rewrite app_nil_r; reflexivity|]. simpl.
    change (c :: l) with ([] ++ (c :: l)). constructor; [constructor|]. simpl.
    rewrite <- (app_nil_r (c :: l)). constructor; [|constructor]. simpl.
    change (c :: l) with ([c] ++ l). constructor; [constructor; assumption|].
    apply star_class_matches. assumption.
Qed.

Lemma alternation_matches words b e m :
  matches b e (alternation true words) m <->
  exists w, In w words /\ Forall2 (fun p c => lit_eq true p c = true) (decode w) m.
Proof.
  induction words as [|w ws IH]; simpl.
  - split; [inversion 1 | intros (w & [] & _)].
  - destruct ws as [|w' ws].
    + split.
      * intros Hm%matches_literal_inv. eauto.
      * intros (w0 & [<- | []] & Hf). constructor. assumption.
    + split.
      * intros [Hm%matches_literal_inv | Hm]%matches_alt_inv; [eauto|].
        apply IH in Hm as (w0 & Hin & Hf). eauto.
      * intros (w0 & [<- | Hin] & Hf).
        -- apply m_alt_l. constructor. assumption.
        -- apply m_alt_r. apply IH. eauto.
Qed.

Lemma offensiveNameRegex_spec (s : string) :
  MatchString offensiveNameRegex s = true <->
  exists a m z w, decode s = a ++ m ++ z /\ In w offensiveWords /\
                  Forall2 (fun p c => lit_eq true p c = true) (decode w) m.
Proof.
  unfold MatchString. rewrite search_spec. unfold offensiveNameRegex. split.
  - intros (a & m & z & Hs & Hm%matches_capture_inv).
    apply alternation_matches in Hm as (w & Hin & Hf). exists a, m, z, w. auto.
  - intros (a & m & z & w & Hs & Hin & Hf). exists a, m, z. split; [assumption|].
    constructor. apply alternation_matches. eauto.
Qed.

Lemma starts_with_nocase_spec w : forall s,
  starts_with_nocase w s = true <->
  exists m z, s = m ++ z /\ Forall2 (fun p c => same_letter p c = true) w m.
Proof.
  induction w as [|p w IH]; intros s; simpl.
  - split; [intros _; exists [], s; split; [reflexivity | constructor] | reflexivity].
  - destruct s as [|c s].
    + split; [discriminate|]. intros (m & z & Hs & Hf).
      inversion Hf; subst. discriminate.
    + rewrite andb_true_iff, IH. split.
      * intros (Hp & m & z & -> & Hf). exists (c :: m), z. split; [reflexivity|].
        constructor; assumption.
      * intros (m & z & Hs & Hf). apply Forall2_cons_inv_l in Hf as (c' & m' & Hp & Hf & ->).
        injection Hs as <- ->. eauto.
Qed.

Lemma contains_nocase_spec w s :
  contains_nocase w s = true <->
  exists a m z, s = a ++ m ++ z /\ Forall2 (fun p c => same_letter p c = true) w m.
Proof.
  induction s as [|c s IH]; simpl.
  - rewrite orb_false_r, starts_with_nocase_spec. split.
    + intros (m & z & Hs & Hf). exists [], m, z. auto.
    + intros (a & m & z & Hs & Hf). symmetry in Hs.
      apply app_eq_nil in Hs as [-> Hs]. exists m, z. auto.
  - rewrite orb_true_iff, IH, starts_with_nocase_spec. split.
    + intros [(m & z & Hs & Hf) | (a & m & z & -> & Hf)].
      * exists [], m, z. auto.
      * exists (c :: a), m, z. auto.
    + intros (a & m & z & Hs & Hf). destruct a as [|c' a]; simpl in Hs.
      * left. eauto.
      * injection Hs as <- ->. right. eauto.
Qed.

Lemma nameClass_name_rune r : in_class nameClass r = name_rune r.
Proof.
  unfold in_class, nameClass, name_rune, latin_letter, whitespace. simpl.
  apply eq_true_iff_eq.
  rewrite ?orb_true_iff, ?andb_true_iff, ?orb_true_iff, ?andb_true_iff,
          ?Z.leb_le, ?Z.eqb_eq. lia.
Qed.

Lemma same_letter_lit_eq p c :
  0x61 <= p <= 0x7A -> same_letter p c = true -> lit_eq true p c = true.
Proof.
  intros Hp. unfold same_letter, lower_letter, lit_eq, unicode.SimpleFoldOrbit.
  destruct ((0x41 <=? p) && (p <=? 0x5A)) eqn:Hup.
  { apply andb_true_iff in Hup as [_ H%Z.leb_le]. lia. }
  destruct ((0x61 <=? p) && (p <=? 0x7A)) eqn:Hlo.
  2:{ apply andb_false_iff in Hlo as [H%Z.leb_gt | H%Z.leb_gt]; lia. }
  intros Heq. simpl. apply Z.eqb_eq in Heq.
  destruct ((0x41 <=? c) && (c <=? 0x5A)) eqn:Hc.
  - assert (c = p - 0x20) as -> by lia.
    rewrite (Z.eqb_refl (p - 0x20)). rewrite !orb_true_r. reflexivity.
  - subst c. rewrite Z.eqb_refl. reflexivity.
Qed.

Lemma lit_eq_same_letter p c :
  0x61 <= p <= 0x7A -> name_rune c = true -> lit_eq true p c = true ->
  same_letter p c = true.
Proof.
  intros Hp Hc. unfold same_letter, lower_letter, lit_eq, unicode.SimpleFoldOrbit.
  destruct ((0x41 <=? p) && (p <=? 0x5A)) eqn:Hup.
  { apply andb_true_iff in Hup as [_ H%Z.leb_le]. lia. }
  destruct ((0x61 <=? p) && (p <=? 0x7A)) eqn:Hlo.
  2:{ apply andb_false_iff in Hlo as [H%Z.leb_gt | H%Z.leb_gt]; lia. }
  assert (c <= 0xFF) as Hle.
  { revert Hc. unfold name_rune, latin_letter, whitespace.
    rewrite ?orb_true_iff, ?andb_true_iff, ?Z.leb_le, ?Z.eqb_eq. lia. }
  simpl. intros Hm. apply Z.eqb_eq.
  assert (c = p \/ c = p - 0x20) as Hcases.
  { apply orb_true_iff in Hm as [Hm%Z.eqb_eq | Hm]; [lia|].
    apply orb_true_iff in Hm as [Hm%Z.eqb_eq | Hm]; [lia|].
    apply orb_true_iff in Hm as [Hm%Z.eqb_eq | Hm]; [lia|].
    exfalso. destruct (p =? 0x6B); [|destruct (p =? 0x73)]; simpl in Hm;
      rewrite ?orb_false_r in Hm; try discriminate; apply Z.eqb_eq in Hm; lia. }
  destruct Hcases as [-> | ->].
  - rewrite Hup. reflexivity.
  - destruct ((0x41 <=? p - 0x20) && (p - 0x20 <=? 0x5A)) eqn:Hq; [lia|].
    apply andb_false_iff in Hq as [H%Z.leb_gt | H%Z.leb_gt]; lia.
Qed.

Lemma offensiveWords_lower :
  Forall (fun w => Forall (fun p => 0x61 <= p <= 0x7A) (decode w)) offensiveWords.
Proof. repeat constructor; vm_compute; congruence. Qed.

Lemma Forall2_impl_l {A B} (P Q : A -> B -> Prop) (R : A -> Prop) (S : B -> Prop) l k :
  Forall R l -> Forall S k ->
  (forall a b, R a -> S b -> P a b -> Q a b) -> Forall2 P l k -> Forall2 Q l k.
Proof.
  intros Hl Hk HPQ HF. revert Hl Hk. induction HF; intros Hl Hk; constructor.
  - inversion Hl; inversion Hk; subst. auto.
  - inversion Hl; inversion Hk; subst. auto.
Qed.

Lemma offensive_nocase n :
  existsb (fun w => contains_nocase (decode w) (decode n)) offensiveWords = true ->
  MatchString offensiveNameRegex n = true.
Proof.
  intros (w & Hin & Hc)%existsb_exists.
  apply contains_nocase_spec in Hc as (a & m & z & Hs & Hf).
  apply offensiveNameRegex_spec. exists a, m, z, w. split; [assumption|]. split; [assumption|].
  pose proof offensiveWords_lower as Hlow. rewrite Forall_forall in Hlow.
  specialize (Hlow w). 
  eapply (Forall2_impl_l _ _ (fun p => 0x61 <= p <= 0x7A) (fun _ => True)); [ | | | exact Hf].
  - apply Hlow. apply list_elem_of_In. assumption.
  - apply Forall_forall. auto.
  - intros p c Hp _ Hpc. apply same_letter_lit_eq; assumption.
Qed.

Lemma offensive_fold n :
  forallb name_rune (decode n) = true ->
  MatchString offensiveNameRegex n = true ->
  existsb (fun w => contains_nocase (decode w) (decode n)) offensiveWords = true.
Proof.
  intros Hall (a & m & z & w & Hs & Hin & Hf)%offensiveNameRegex_spec.
  apply existsb_exists. exists w. split; [assumption|].
  apply contains_nocase_spec. exists a, m, z. split; [assumption|].
  pose proof offensiveWords_lower as Hlow. rewrite Forall_forall in Hlow.
  specialize (Hlow w).
  rewrite Hs, !forallb_app, !andb_true_iff in Hall. destruct Hall as (_ & Hm & _).
  eapply (Forall2_impl_l _ _ (fun p => 0x61 <= p <= 0x7A) (fun c => name_rune c = true));
    [ | | | exact Hf].
  - apply Hlow. apply list_elem_of_In. assumption.
  - apply Forall_forall. intros c Hc. rewrite forallb_forall in Hm. apply Hm.
    apply list_elem_of_In. assumption.
  - intros p c Hp Hc Hpc. apply lit_eq_same_letter; assumption.
Qed.

(** ** The validators against the acceptance condition *)

Lemma decode_nonempty (s : string) : s <> ""%string -> decode s <> [].
Proof.
  destruct s as [|c s]; [congruence|]. intros _.
  unfold decode, segments, bytes. simpl.
  destruct (DecodeRune _ _). simpl. discriminate.
Qed.

Lemma len_empty (s : string) : strings.len s < 1 -> s = ""%string.
Proof. unfold strings.len. destruct s; simpl; [reflexivity | lia]. Qed.

Lemma contains_at (s : list Z) :
  strings.contains_bytes [0x40] s = existsb (Z.eqb 0x40) s.
Proof.
  induction s as [|b s IH]; simpl; [reflexivity|].
  rewrite IH. rewrite andb_true_r. reflexivity.
Qed.

Lemma validateEmail_ok email : validateEmail email = None <-> email_ok email = true.
Proof.
  unfold validateEmail, email_ok, has_at, strings.Contains.
  change (bytes "@") with [0x40]. rewrite contains_at.
  destruct (String.eqb _ _); simpl; [split; discriminate|].
  destruct (existsb _ _); simpl; [|split; discriminate].
  rewrite Z.gtb_ltb. destruct (Z.ltb_spec 255 (strings.len (strings.TrimSpace email)));
    destruct (Z.leb_spec (strings.len (strings.TrimSpace email)) 255); try lia;
    split; congruence.
Qed.

Lemma validatePassword_ok password :
  validatePassword password = None <-> password_ok password = true.
Proof.
  unfold validatePassword, password_ok.
  destruct (String.eqb _ _); simpl; [split; discriminate|].
  rewrite Z.gtb_ltb.
  destruct (Z.ltb_spec (strings.len password) 6);
    destruct (Z.leb_spec 6 (strings.len password)); try lia; simpl; [split; discriminate|].
  destruct (Z.ltb_spec 128 (strings.len password));
    destruct (Z.leb_spec (strings.len password) 128); try lia; split; congruence.
Qed.

Lemma forallb_pointwise {A} (f g : A -> bool) (l : list A) :
  (forall x, f x = g x) -> forallb f l = forallb g l.
Proof. intros Hfg. induction l as [|x l IH]; simpl; [reflexivity|]. rewrite Hfg, IH. reflexivity. Qed.

Lemma validateName_ok name : validateName name = None <-> name_ok name = true.
Proof.
  unfold validateName, name_ok.
  set (n := strings.TrimSpace name).
  destruct (String.eqb_spec n "") as [Hn | Hn].
  { rewrite Hn. cbn. split; discriminate. }
  rewrite Z.gtb_ltb.
  destruct (Z.ltb_spec (strings.len n) 2);
    destruct (Z.leb_spec 2 (strings.len n)); try lia; cbn [andb negb];
    [split; discriminate|].
  destruct (Z.ltb_spec 100 (strings.len n));
    destruct (Z.leb_spec (strings.len n) 100); try lia; cbn [andb negb];
    [split; discriminate|].
  destruct (MatchString offensiveNameRegex n) eqn:Hoff.
  - split; [discriminate|]. intros [Hno Hall]%andb_true_iff.
    rewrite (offensive_fold n Hall Hoff) in Hno. discriminate.
  - destruct (MatchString validNameRegex n) eqn:Hval; cbn [andb negb].
    + apply validNameRegex_spec in Hval as [_ Hall].
      split; [intros _|reflexivity]. apply andb_true_iff. split.
      * destruct (existsb _ _) eqn:Hex; [|reflexivity].
        apply offensive_nocase in Hex. congruence.
      * rewrite <- (forallb_pointwise _ _ _ nameClass_name_rune). exact Hall.
    + split; [discriminate|]. intros [_ Hall]%andb_true_iff.
      assert (MatchString validNameRegex n = true); [|congruence].
      apply validNameRegex_spec. split; [apply decode_nonempty; assumption|].
      rewrite (forallb_pointwise _ _ _ nameClass_name_rune). exact Hall.
Qed.

(** ** The entity *)

Section Entity.
Context `{CaseTables}.

(** C9: [NewUser] succeeds exactly when the trimmed email is non-empty,
    contains '@' and has at most 255 bytes; the trimmed name has 2 to 100
    bytes, contains none of the offensive words whatever the case of its
    letters, and is made of Latin letters (the range from U+00C0 to U+00FF
    included), white space (space, tab, line feed, form feed, carriage
    return), hyphen, apostrophe and period; and the password is non-empty
    and has 6 to 128 bytes. *)
Theorem C9_NewUser_accepts (now : Time) (email name password : string) :
  (exists u, NewUser now email name password = inr u) <->
  accepts email name password = true.
Proof.
  unfold accepts. rewrite !andb_true_iff.
  rewrite <- validateEmail_ok, <- validateName_ok, <- validatePassword_ok.
  unfold NewUser.
  destruct (validateEmail email);
    [split; [intros [u Hu]; discriminate | intros [[? ?] ?]; discriminate]|].
  destruct (validateName name);
    [split; [intros [u Hu]; discriminate | intros [[? ?] ?]; discriminate]|].
  destruct (validatePassword password);
    [split; [intros [u Hu]; discriminate | intros [[? ?] ?]; discriminate]|].
  split; eauto.
Qed.

(** The user [NewUser] returns, when it returns one. *)
Lemma NewUser_inr (now : Time) (email name password : string) (u : User) :
  NewUser now email name password = inr u ->
  u = {| ID := 0;
         Email := strings.ToLower (strings.TrimSpace email);
         Name := strings.TrimSpace name;
         Password := password;
         Created := now;
         Updated := now |}.
Proof.
  unfold NewUser. intros Hu.
  destruct (validateEmail email); [discriminate|].
  destruct (validateName name); [discriminate|].
  destruct (validatePassword password); [discriminate|].
  injection Hu as <-. reflexivity.
Qed.

(** C8: the user [NewUser] returns has the lowercased, trimmed email, the
    trimmed name and the password as given. *)
Theorem C8_NewUser_fields (now : Time) (email name password : string) (u : User) :
  NewUser now email name password = inr u ->
  Email u = strings.ToLower (strings.TrimSpace email) /\
  Name u = strings.TrimSpace name /\
  Password u = password.
Proof. intros ->%NewUser_inr. auto. Qed.

(** C10: a mutator that returns an error leaves every field of its
    receiver as it was. *)
Theorem C10_mutators_atomic (now : Time) (u : User) :
  (forall name email,
      (UpdateUserProfile now u name email).2 <> None ->
      (UpdateUserProfile now u name email).1 = u) /\
  (forall newPassword,
      (ChangePassword now u newPassword).2 <> None ->
      (ChangePassword now u newPassword).1 = u).
Proof.
  split.
  - intros name email. unfold UpdateUserProfile.
    destruct (validateName name); [reflexivity|].
    destruct (validateEmail email); [reflexivity|]. simpl. congruence.
  - intros newPassword. unfold ChangePassword.
    destruct (validatePassword newPassword); [reflexivity|]. simpl. congruence.
Qed.

Lemma apply_created (now : Time) (u : User) (m : history.mutation) :
  Created (history.apply now u m).1 = Created u.
Proof.
  destruct m as [name email | newPassword]; simpl.
  - unfold UpdateUserProfile.
    destruct (validateName name); [reflexivity|].
    destruct (validateEmail email); reflexivity.
  - unfold ChangePassword. destruct (validatePassword newPassword); reflexivity.
Qed.

Lemma apply_updated (now : Time) (u : User) (m : history.mutation) :
  Updated (history.apply now u m).1 =
  match (history.apply now u m).2 with None => now | Some _ => Updated u end.
Proof.
  destruct m as [name email | newPassword]; simpl.
  - unfold UpdateUserProfile.
    destruct (validateName name); [reflexivity|].
    destruct (validateEmail email); reflexivity.
  - unfold ChangePassword. destruct (validatePassword newPassword); reflexivity.
Qed.

Lemma run_invariant (calls : list (Time * history.mutation)) :
  forall (u : User) (t : Time),
    Created u <= Updated u -> Updated u <= t ->
    history.nondecreasing t calls.*1 ->
    Created (history.run u calls) = Created u /\
    Created (history.run u calls) <= Updated (history.run u calls).
Proof.
  induction calls as [|[now m] calls IH]; intros u t Hcu Hut Hclock; simpl in *.
  - auto.
  - destruct Hclock as [Htn Hclock].
    pose proof (apply_created now u m) as Hc.
    pose proof (apply_updated now u m) as Hu.
    destruct (IH (history.apply now u m).1 now) as [IH1 IH2].
    + rewrite Hc, Hu. destruct (history.apply now u m).2; lia.
    + rewrite Hu. destruct (history.apply now u m).2; lia.
    + assumption.
    + rewrite IH1 in *. rewrite Hc in *. auto.
Qed.

(** C3: [NewUser] sets [Updated] to [Created]; a successful mutation, made
    when the clock reads no less than the last stamp, sets [Updated] to that
    reading and leaves [Created] alone; no mutation ever alters [Created];
    so, as the clock does not run backwards, [Updated] is never before
    [Created], whatever calls follow the construction. *)
Theorem C3_updated_not_before_created :
  (forall now email name password u,
      NewUser now email name password = inr u ->
      Updated u = Created u /\ Created u = now) /\
  (forall now u m u',
      Updated u <= now -> history.apply now u m = (u', None) ->
      Updated u' = now /\ Updated u <= Updated u' /\ Created u' = Created u) /\
  (forall now u m, Created (history.apply now u m).1 = Created u) /\
  (forall t0 email name password u0 calls,
      NewUser t0 email name password = inr u0 ->
      history.nondecreasing t0 calls.*1 ->
      Created (history.run u0 calls) = t0 /\
      Created (history.run u0 calls) <= Updated (history.run u0 calls)).
Proof.
  assert (Hnew : forall now email name password u,
             NewUser now email name password = inr u ->
             Updated u = Created u /\ Created u = now).
  { intros now email name password u ->%NewUser_inr. auto. }
  split; [exact Hnew|]. split; [|split; [exact apply_created|]].
  - intros now u m u' Hle Happ.
    pose proof (apply_created now u m) as Hc.
    pose proof (apply_updated now u m) as Hu.
    rewrite Happ in Hc, Hu. simpl in Hc, Hu. lia.
  - intros t0 email name password u0 calls Hu0 Hclock.
    destruct (Hnew _ _ _ _ _ Hu0) as [Hup Hcr].
    destruct (run_invariant calls u0 t0) as [H1 H2]; [lia | lia | assumption |].
    rewrite H1. split; [assumption | lia].
Qed.

End Entity.

(** ** The mock repository and the memory *)

Import mocks.

Lemma load_alloc (h : Heap) (v : User) : load (h ++ [v]) (length h) = v.
Proof. unfold load. rewrite lookup_app_r by lia. rewrite Nat.sub_diag. reflexivity. Qed.

Lemma load_app (h k : Heap) (p : ptr) : (p < length h)%nat -> load (h ++ k) p = load h p.
Proof. intros Hp. unfold load. rewrite lookup_app_l by assumption. reflexivity. Qed.

Lemma load_insert_ne (h : Heap) (p q : ptr) (v : User) :
  p <> q -> load (<[p := v]> h) q = load h q.
Proof. intros Hpq. unfold load. rewrite list_lookup_insert_ne by assumption. reflexivity. Qed.

Lemma load_insert_eq (h : Heap) (p : ptr) (v : User) :
  (p < length h)%nat -> load (<[p := v]> h) p = v.
Proof. intros Hp. unfold load. rewrite list_lookup_insert_eq by assumption. reflexivity. Qed.

(** What [GetByID] hands out does not depend on the cells beyond the ones
    the repository points to. *)
Lemma GetById_frame (m : MockUserRepository) (h k : Heap) (p : ptr) (v : User) (id : Z) :
  allocated m h -> (length h <= p)%nat ->
  (mockstore.GetById id (m, <[p := v]> (h ++ k))).1 = (mockstore.GetById id (m, h ++ k)).1.
Proof.
  intros Hall Hp. unfold mockstore.GetById, GetByID, alloc. simpl.
  destruct (users m !! id) as [q|] eqn:Hq; [|reflexivity]. simpl.
  apply Hall in Hq. rewrite !load_alloc.
  rewrite load_insert_ne by lia. reflexivity.
Qed.

Lemma GetByID_isolated (m : MockUserRepository) (h h' : Heap) (id : Z) (p : ptr) :
  allocated m h -> GetByID id m h = (inr p, h') ->
  forall (v : User) (id' : Z),
    (mockstore.GetById id' (m, <[p := v]> h')).1 = (mockstore.GetById id' (m, h')).1.
Proof.
  intros Hall Hget v id'. unfold GetByID, alloc in Hget.
  destruct (users m !! id); [|discriminate]. injection Hget as <- <-.
  apply GetById_frame; [assumption | lia].
Qed.

Lemma List_fold (l : list (Z * ptr)) :
  forall (acc : list ptr) (h0 : Heap) (ps : list ptr) (h' : Heap),
    foldl (fun '(result, h) '(_, user) =>
             let '(userCopy, h) := alloc h (load h user) in
             (result ++ [userCopy], h)) (acc, h0) l = (ps, h') ->
    (exists k, h' = h0 ++ k) /\
    forall p, p ∈ ps -> p ∈ acc \/ (length h0 <= p)%nat.
Proof.
  induction l as [|[id user] l IH]; intros acc h0 ps h' Hf; simpl in Hf.
  - injection Hf as <- <-. split; [exists []; rewrite app_nil_r; reflexivity | auto].
  - apply IH in Hf as [[k ->] Hps]. split.
    + exists ([load h0 user] ++ k). rewrite app_assoc. reflexivity.
    + intros p Hp. apply Hps in Hp as [Hp | Hp].
      * apply elem_of_app in Hp as [Hp | Hp]; [auto|].
        apply list_elem_of_singleton in Hp. right. lia.
      * right. rewrite length_app in Hp. simpl in Hp. lia.
Qed.

Lemma List_isolated (m : MockUserRepository) (h h' : Heap) (ps : list ptr) :
  allocated m h -> List m h = (ps, h') ->
  forall (p : ptr) (v : User) (id : Z), p ∈ ps ->
    (mockstore.GetById id (m, <[p := v]> h')).1 = (mockstore.GetById id (m, h')).1.
Proof.
  intros Hall Hl p v id Hp. unfold List in Hl.
  apply List_fold in Hl as [[k ->] Hps].
  apply Hps in Hp as [Hp | Hp]; [apply elem_of_nil in Hp; contradiction|].
  apply GetById_frame; assumption.
Qed.

(** The pointer [Create] returns is the pointer it has put in the maps. *)
Lemma Create_alias (m m' : MockUserRepository) (h h' : Heap) (user p : ptr) :
  (user < length h)%nat -> Create user m h = (inr p, m', h') ->
  users m' !! nextID m = Some p /\ emails m' !! Email (load h user) = Some p /\
  forall v : User, (mockstore.GetById (nextID m) (m', <[p := v]> h')).1 = inr v.
Proof.
  intros Huser. unfold Create, alloc.
  destruct (emails m !! Email (load h user)); [discriminate|]. simpl.
  intros Hc. injection Hc as <- <- <-. simpl.
  rewrite length_insert.
  rewrite !load_app by (rewrite length_insert; assumption).
  rewrite !load_insert_eq by assumption. simpl.
  rewrite !lookup_insert_eq. split; [reflexivity|]. split; [reflexivity|].
  intros v. unfold mockstore.GetById, GetByID, alloc. simpl.
  rewrite lookup_insert_eq. simpl. rewrite load_alloc.
  apply f_equal. apply load_insert_eq. rewrite length_app, length_insert. simpl. lia.
Qed.

(** C1: [Create] hands out the very pointer it has stored. On an empty
    repository, with the candidate at address 0, it returns address 1, which
    the primary map holds for identifier 1; [GetByID 1] then yields the
    stored record, and after a write through the returned pointer it yields
    what was written. *)
Theorem C1_Create_returns_the_stored_pointer :
  let '(r, m, h) := mocks.Create 0%nat mocks.NewMockUserRepository [examples.candidate] in
  r = inr 1%nat /\
  mocks.users m !! 1 = Some 1%nat /\
  (mockstore.GetById 1 (m, h)).1 = inr examples.ann /\
  (mockstore.GetById 1 (m, <[1%nat := examples.mallory]> h)).1 = inr examples.mallory.
Proof. vm_compute. auto. Qed.

(** ** The use cases *)

Import usecases repositories decorators.

Lemma ceil_quotient_pos (a b : Z) :
  0 < b -> goint.ceil_quotient a b = (a + b - 1) / b.
Proof.
  intros Hb. unfold goint.ceil_quotient.
  destruct b as [|p|p]; try lia.
  unfold Qceiling, Qfloor, Qdiv, Qinv, Qmult, Qopp, inject_Z. simpl.
  rewrite Z.mul_1_r, Pos.mul_1_l.
  pose proof (Z.div_mod (- a) (Z.pos p) ltac:(lia)) as Hdm.
  pose proof (Z.mod_pos_bound (- a) (Z.pos p) ltac:(lia)) as Hmb.
  apply Z.div_unique with (r := Z.pos p - 1 - (- a) mod Z.pos p); lia.
Qed.

Lemma wrap_fits (z : Z) : goint.fits z -> goint.wrap z = z.
Proof.
  unfold goint.fits, goint.wrap. intros Hz.
  rewrite Z.mod_small; lia.
Qed.

(** The wrap-around forgets multiples of 2^64 alone. *)
Lemma wrap_unfold (a : Z) : goint.wrap a = a - 2 ^ 64 * ((a + 2 ^ 63) / 2 ^ 64).
Proof. unfold goint.wrap. rewrite Z.mod_eq by lia. lia. Qed.

Lemma wrap_add_multiple (a k : Z) : goint.wrap (a + k * 2 ^ 64) = goint.wrap a.
Proof.
  unfold goint.wrap. replace (a + k * 2 ^ 64 + 2 ^ 63) with (a + 2 ^ 63 + k * 2 ^ 64) by lia.
  rewrite Z_mod_plus_full. reflexivity.
Qed.

Lemma mul_sub_wrap (a b : Z) : goint.mul (goint.sub a 1) b = goint.wrap ((a - 1) * b).
Proof.
  unfold goint.mul, goint.sub. rewrite (wrap_unfold (a - 1)).
  set (q := (a - 1 + 2 ^ 63) / 2 ^ 64).
  replace ((a - 1 - 2 ^ 64 * q) * b) with ((a - 1) * b + (- q * b) * 2 ^ 64) by lia.
  apply wrap_add_multiple.
Qed.

Lemma sub_add_wrap (a b : Z) : goint.sub (goint.add a b) 1 = goint.wrap (a + b - 1).
Proof.
  unfold goint.sub, goint.add. rewrite (wrap_unfold (a + b)).
  set (q := (a + b + 2 ^ 63) / 2 ^ 64).
  replace (a + b - 2 ^ 64 * q - 1) with (a + b - 1 + (- q) * 2 ^ 64) by lia.
  apply wrap_add_multiple.
Qed.

Ltac step := simpl; unfold scrub, noted; simpl.

Section UseCases.
Context `{CaseTables}.

Lemma consistent_taken (s : mockstore.State) (u : User) (email : string) :
  mockstore.consistent s -> mockstore.live s u ->
  mockstore.normalize (Email u) = mockstore.normalize email ->
  is_Some (emails s.1 !! mockstore.normalize email).
Proof.
  intros Hc (id & p & Hid & Hp) Hn.
  destruct (Hc id p Hid) as (_ & Hnorm & Hidx).
  unfold load in Hnorm, Hidx. rewrite Hp in Hnorm, Hidx. simpl in Hnorm, Hidx.
  rewrite <- Hn, Hnorm. assumption.
Qed.

(** The state of the mock the use cases start from and keep: a new mock is
    consistent, and so is the mock after [Create] of a user whose email is
    normalized. *)
Lemma empty_consistent (h : Heap) : mockstore.consistent (NewMockUserRepository, h).
Proof. intros id p Hid. simpl in Hid. rewrite lookup_empty in Hid. discriminate. Qed.

Lemma Create_consistent (u : User) (s : mockstore.State) :
  mockstore.consistent s ->
  mockstore.normalize (Email u) = Email u ->
  mockstore.consistent (mockstore.Create u s).2.
Proof.
  destruct s as [m h]. intros Hc Hu.
  unfold mockstore.Create, mocks.Create, alloc. simpl.
  rewrite load_alloc.
  destruct (emails m !! Email u) as [q|] eqn:Hq; simpl.
  - intros id p Hid. simpl in *. destruct (Hc id p Hid) as (Hp & Hn & Hi). simpl in *.
    rewrite length_app, load_app by assumption. simpl. split; [lia | auto].
  - rewrite load_app by (rewrite length_insert, length_app; simpl; lia).
    rewrite load_insert_eq by (rewrite length_app; simpl; lia). simpl.
    set (u' := {| ID := nextID m; Email := Email u; Name := Name u;
                  Password := Password u; Created := Created u;
                  Updated := Updated u |}).
    set (h2 := <[length h := u']> (h ++ [u])).
    assert (Hlen : length h2 = S (length h)).
    { subst h2. rewrite length_insert, length_app. simpl. lia. }
    intros id p Hid. simpl in *.
    apply lookup_insert_Some in Hid as [[<- <-] | [Hne Hid]].
    + rewrite load_alloc, length_app. simpl. split; [lia|]. split; [assumption|].
      rewrite lookup_insert_eq. eauto.
    + destruct (Hc id p Hid) as (Hp & Hn & Hi). simpl in *.
      rewrite length_app. simpl. split; [lia|].
      rewrite load_app by lia. subst h2.
      rewrite load_insert_ne by lia.
      rewrite load_app by assumption. split; [assumption|].
      destruct (decide (Email u = Email (load h p))) as [-> | Hne'].
      * rewrite lookup_insert_eq. eauto.
      * rewrite lookup_insert_ne by assumption. assumption.
Qed.

(** On a mock whose stored emails are normalized and indexed: when it holds
    a record whose email is the candidate's up to normalization, [Create]
    fails with the message that a user with this email exists already, and
    the store is as it was. Whatever a pre-check that only reads answers,
    [Create] fails, and the repository and its count are as they were: the
    mock's own [Create] refuses the email. *)
Lemma Create_refused_when_normalized (hasher : PasswordHasher) (sender : EmailSender)
    (now : Time) (req : CreateUserRequest.t) (w : World mockstore.State) (u : User) :
  mockstore.consistent (store w) -> mockstore.live (store w) u ->
  mockstore.normalize (Email u) = mockstore.normalize (CreateUserRequest.Email req) ->
  (let uc := {| CreateUserUseCase.userRepo := mockstore.repository;
                CreateUserUseCase.passwordHash := hasher;
                CreateUserUseCase.emailSender := sender |} in
   (CreateUserUseCase.Execute uc now req w).1
     = inl "un utilisateur avec cet email existe déjà"%string /\
   store (CreateUserUseCase.Execute uc now req w).2 = store w) /\
  (forall check,
      (forall email s, (check email s).2 = s) ->
      let uc := {| CreateUserUseCase.userRepo := mockstore.repository_checking check;
                   CreateUserUseCase.passwordHash := hasher;
                   CreateUserUseCase.emailSender := sender |} in
      (exists err, (CreateUserUseCase.Execute uc now req w).1 = inl err) /\
      (store (CreateUserUseCase.Execute uc now req w).2).1 = (store w).1 /\
      (mockstore.Count (store (CreateUserUseCase.Execute uc now req w).2)).1
        = (mockstore.Count (store w)).1).
Proof.
  intros Hc Hl Hn. pose proof (consistent_taken _ _ _ Hc Hl Hn) as [q Hq]. split.
  - unfold CreateUserUseCase.Execute, bind, call, Info. simpl.
    unfold mockstore.isEmailTaken. rewrite Hq. simpl. destruct w; auto.
  - intros check Hro uc.
    unfold CreateUserUseCase.Execute, bind, call, Info, Error, ret. subst uc. simpl.
    pose proof (Hro (CreateUserRequest.Email req) (store w)) as Hs.
    destruct (check (CreateUserRequest.Email req) (store w)) as [r s']. simpl in Hs. subst s'.
    destruct r as [err | [|]]; simpl; [eauto | eauto |].
    destruct (NewUser now _ _ _) as [err | user] eqn:Hnew; simpl; [eauto|].
    apply NewUser_inr in Hnew as ->. simpl.
    destruct (Hash hasher _) as [err | hashed]; simpl; [eauto|].
    unfold mockstore.Create, alloc, mocks.Create. simpl.
    rewrite load_alloc. simpl. fold (mockstore.normalize (CreateUserRequest.Email req)).
    rewrite Hq. simpl. eauto.
Qed.

End UseCases.

Section AnyRepository.
Context `{CaseTables} {S : Type} (R : UserRepository S).

(** The email check of [Update], by the calls made to the repository: it is
    skipped when the request carries the email of the fetched record, made
    otherwise; when it reports the email as taken the use case stops there,
    with no call of [Update]. *)
Lemma Update_email_check (now : Time) (req : UpdateUserRequest.t)
    (w : World (S * list Call)) (u : User) (s1 : S) :
  let uc := {| UpdateUserUseCase.userRepo := recording R |} in
  let fetched (s : S) (calls : list Call) :=
    {| store := (s, (store w).2 ++ CallGetById (UpdateUserRequest.ID req) :: calls);
       logs := logs w ++
         [LogInfo "Updating user"
            [("user_id", VInt (UpdateUserRequest.ID req));
             ("email", VString (UpdateUserRequest.Email req));
             ("name", VString (UpdateUserRequest.Name req))]%string];
       goroutines := goroutines w |} in
  GetById R (UpdateUserRequest.ID req) (store w).1 = (inr u, s1) ->
  (Email u = UpdateUserRequest.Email req ->
   UpdateUserUseCase.Execute uc now req w
   = UpdateUserUseCase.save uc now req u (fetched s1 [])) /\
  (Email u <> UpdateUserRequest.Email req ->
   forall s2,
     (isEmailTaken R (UpdateUserRequest.Email req) s1 = (inr true, s2) ->
      UpdateUserUseCase.Execute uc now req w
      = (inl "cet email est déjà utilisé"%string,
         fetched s2 [CallIsEmailTaken (UpdateUserRequest.Email req)])) /\
     (isEmailTaken R (UpdateUserRequest.Email req) s1 = (inr false, s2) ->
      UpdateUserUseCase.Execute uc now req w
      = UpdateUserUseCase.save uc now req u
          (fetched s2 [CallIsEmailTaken (UpdateUserRequest.Email req)]))).
Proof.
  intros uc fetched Hget.
  unfold UpdateUserUseCase.Execute, bind, call, Info. subst uc fetched. step.
  rewrite Hget. step. split.
  - intros ->. rewrite String.eqb_refl. reflexivity.
  - intros Hne s2. apply String.eqb_neq in Hne. rewrite Hne. step.
    split; intros ->; step; rewrite <- app_assoc; reflexivity.
Qed.

(** C5: a page of 0 is read as 1 and a page size of 0 as 10; the
    repository's [List] is called with the page size as limit and, as
    offset, the product (page - 1) * pageSize as [int] arithmetic computes
    it, which is that product whenever it fits an [int]; the response
    carries the page, the page size and the repository's count; and, when
    the page size of the request is not negative, the count is not negative
    and count + pageSize - 1 fits an [int], the number of pages is the
    ceiling of total / pageSize. *)
Theorem C5_list_pagination (req : ListUsersRequest.t) (w : World (S * list Call)) :
  let page := if ListUsersRequest.Page req =? 0 then 1 else ListUsersRequest.Page req in
  let pageSize := if ListUsersRequest.PageSize req =? 0 then 10
                  else ListUsersRequest.PageSize req in
  let offset := goint.mul (goint.sub page 1) pageSize in
  let uc := {| ListUsersUseCase.userRepo := recording R |} in
  (exists rest,
      (store (ListUsersUseCase.Execute uc req w).2).2
      = (store w).2 ++ CallList pageSize offset :: rest) /\
  (goint.fits ((page - 1) * pageSize) -> offset = (page - 1) * pageSize) /\
  (forall resp,
      (ListUsersUseCase.Execute uc req w).1 = inr resp ->
      ListUsersResponse.Page resp = page /\
      ListUsersResponse.PageSize resp = pageSize /\
      exists users s1 s2,
        List R pageSize offset (store w).1 = (inr users, s1) /\
        Count R s1 = (inr (ListUsersResponse.Total resp), s2) /\
        (0 <= ListUsersRequest.PageSize req ->
         0 <= ListUsersResponse.Total resp ->
         goint.fits (ListUsersResponse.Total resp + pageSize - 1) ->
         ListUsersResponse.TotalPages resp
         = goint.ceil_quotient (ListUsersResponse.Total resp)
                               (ListUsersResponse.PageSize resp))).
Proof.
  intros page pageSize offset uc.
  unfold ListUsersUseCase.Execute, bind, call, Error, ret. subst uc. simpl.
  set (req1 := if ListUsersRequest.Page req =? 0 then _ else req).
  set (req2 := if ListUsersRequest.PageSize req1 =? 0 then _ else req1).
  assert (Hpage : ListUsersRequest.Page req2 = page).
  { subst req2 req1 page. destruct (ListUsersRequest.Page req =? 0); simpl;
      destruct (ListUsersRequest.PageSize req =? 0); reflexivity. }
  assert (Hsize : ListUsersRequest.PageSize req2 = pageSize).
  { subst req2 req1 pageSize. destruct (ListUsersRequest.Page req =? 0); simpl;
      destruct (ListUsersRequest.PageSize req =? 0); reflexivity. }
  rewrite Hpage, Hsize. clearbody req2. clear req1.
  fold offset. unfold noted. simpl.
  assert (Hoff : goint.fits ((page - 1) * pageSize) -> offset = (page - 1) * pageSize).
  { intros Hfit. subst offset. rewrite mul_sub_wrap. apply wrap_fits. exact Hfit. }
  destruct (List R pageSize offset (store w).1) as [[err | users] s1] eqn:Hlist; simpl.
  - split; [eauto|]. split; [exact Hoff | discriminate].
  - destruct (Count R s1) as [[err | total] s2] eqn:Hcount; simpl.
    + split; [rewrite <- app_assoc; simpl; eauto|]. split; [exact Hoff | discriminate].
    + split; [rewrite <- app_assoc; simpl; eauto|]. split; [exact Hoff|].
      intros resp Hresp. injection Hresp as <-. simpl.
      split; [reflexivity|]. split; [reflexivity|].
      exists users, s1, s2. split; [reflexivity|]. split; [exact Hcount|].
      intros Hps Htot Hfit.
      assert (Hpos : 0 < pageSize).
      { subst pageSize. destruct (Z.eqb_spec (ListUsersRequest.PageSize req) 0); lia. }
      rewrite ceil_quotient_pos by assumption.
      rewrite sub_add_wrap. rewrite (wrap_fits (total + pageSize - 1)) by assumption.
      unfold goint.div, goint.fits in *.
      rewrite Z.quot_div_nonneg by lia.
      apply wrap_fits. unfold goint.fits. split.
      * pose proof (Z.div_pos (total + pageSize - 1) pageSize ltac:(lia) ltac:(lia)). lia.
      * assert ((total + pageSize - 1) / pageSize <= total + pageSize - 1).
        { apply Z.div_le_upper_bound; nia. }
        lia.
Qed.

(** A goroutine of [Create] leaves the repository as it finds it. *)
Lemma welcome_store (uc : CreateUserUseCase.t S) (createdUser : User) (w : World S) :
  store (CreateUserUseCase.welcome uc createdUser w).2 = store w.
Proof.
  unfold CreateUserUseCase.welcome.
  destruct (SendWelcomeEmail _ _ _); reflexivity.
Qed.

Lemma drain_store (uc : CreateUserUseCase.t S) (w : World S) :
  store (CreateUserUseCase.drain uc w).2 = store w.
Proof.
  unfold CreateUserUseCase.drain. simpl.
  change (store w) with
    (store {| store := store w; logs := logs w; goroutines := [] |}) at 2.
  generalize {| store := store w; logs := logs w; goroutines := @nil User |}.
  induction (goroutines w) as [|u l IH]; intros w0; simpl; [reflexivity|].
  rewrite IH. apply welcome_store.
Qed.

(** C6: the result of [Create], and all it leaves behind, is the same
    whatever the email sender; when the repository has stored the user the
    result is the response, and one goroutine has been started; a sender
    that fails makes that goroutine log the error, and nothing else; the
    goroutines, once run, have left the repository as it was. *)
Theorem C6_create_ignores_notification (hasher : PasswordHasher)
    (sender sender' : EmailSender) (now : Time) (req : CreateUserRequest.t)
    (w : World S) :
  let uc := {| CreateUserUseCase.userRepo := R;
               CreateUserUseCase.passwordHash := hasher;
               CreateUserUseCase.emailSender := sender |} in
  let uc' := {| CreateUserUseCase.userRepo := R;
                CreateUserUseCase.passwordHash := hasher;
                CreateUserUseCase.emailSender := sender' |} in
  CreateUserUseCase.Execute uc now req w = CreateUserUseCase.Execute uc' now req w /\
  (forall user s createdUser s',
      isEmailTaken R (CreateUserRequest.Email req) (store w) = (inr false, s) ->
      NewUser now (CreateUserRequest.Email req) (CreateUserRequest.Name req)
              (CreateUserRequest.Password req) = inr user ->
      (exists hashed, Hash hasher (Password user) = inr hashed /\
        Create R (decorators.with_password hashed user) s = (inr createdUser, s')) ->
      (CreateUserUseCase.Execute uc now req w).1
      = inr {| CreateUserResponse.ID := ID createdUser;
               CreateUserResponse.Email := Email createdUser;
               CreateUserResponse.Name := Name createdUser;
               CreateUserResponse.Created := Created createdUser |} /\
      goroutines (CreateUserUseCase.Execute uc now req w).2
      = goroutines w ++ [createdUser]) /\
  (forall createdUser w1 err,
      SendWelcomeEmail sender (Email createdUser) (Name createdUser) = Some err ->
      CreateUserUseCase.welcome uc createdUser w1
      = (tt, {| store := store w1;
                logs := logs w1 ++
                  [LogError "Failed to send welcome email" err
                     [("user_id", VInt (ID createdUser));
                      ("email", VString (Email createdUser))]%string];
                goroutines := goroutines w1 |})) /\
  (forall w1, store (CreateUserUseCase.drain uc w1).2 = store w1).
Proof.
  intros uc uc'. split; [reflexivity|]. split; [|split].
  - intros user s createdUser s' Hcheck Hnew (hashed & Hhash & Hcreate).
    unfold CreateUserUseCase.Execute, bind, call, Info, go, ret. subst uc. simpl.
    rewrite Hcheck. simpl. rewrite Hnew. simpl. rewrite Hhash. simpl.
    unfold with_password in Hcreate. rewrite Hcreate. simpl. auto.
  - intros createdUser w1 err Hsend. unfold CreateUserUseCase.welcome. subst uc. simpl.
    rewrite Hsend. reflexivity.
  - intros w1. apply drain_store.
Qed.

(** No response depends on the credential of the record the repository
    hands to the use case: with that credential replaced by any other,
    [Create], both [Get]s and [List] give the same result, and [Update] the
    same response whenever both runs give one. *)
Lemma responses_ignore_the_stored_credential (pw : User -> string) :
  (forall hasher sender now req (w : World S),
      (CreateUserUseCase.Execute
         {| CreateUserUseCase.userRepo := redacting pw R;
            CreateUserUseCase.passwordHash := hasher;
            CreateUserUseCase.emailSender := sender |} now req w).1
      = (CreateUserUseCase.Execute
         {| CreateUserUseCase.userRepo := R;
            CreateUserUseCase.passwordHash := hasher;
            CreateUserUseCase.emailSender := sender |} now req w).1) /\
  (forall id (w : World S),
      (GetUserUseCase.ExecuteByID {| GetUserUseCase.userRepo := redacting pw R |} id w).1
      = (GetUserUseCase.ExecuteByID {| GetUserUseCase.userRepo := R |} id w).1) /\
  (forall email (w : World S),
      (GetUserUseCase.ExecuteByEmail {| GetUserUseCase.userRepo := redacting pw R |} email w).1
      = (GetUserUseCase.ExecuteByEmail {| GetUserUseCase.userRepo := R |} email w).1) /\
  (forall req (w : World S),
      (ListUsersUseCase.Execute {| ListUsersUseCase.userRepo := redacting pw R |} req w).1
      = (ListUsersUseCase.Execute {| ListUsersUseCase.userRepo := R |} req w).1) /\
  (forall now req (w : World S),
      agree
        (UpdateUserUseCase.Execute {| UpdateUserUseCase.userRepo := redacting pw R |} now req w).1
        (UpdateUserUseCase.Execute {| UpdateUserUseCase.userRepo := R |} now req w).1).
Proof.
  split; [|split; [|split; [|split]]].
  - intros hasher sender now req w.
    unfold CreateUserUseCase.Execute, bind, call, Info, Error, go, ret. step.
    destruct (isEmailTaken R _ _) as [[err | [|]] s]; step; try reflexivity.
    destruct (NewUser now _ _ _) as [err | user]; step; [reflexivity|].
    destruct (Hash hasher _) as [err | hashed]; step; [reflexivity|].
    destruct (Create R _ s) as [[err | createdUser] s']; step; reflexivity.
  - intros id w. unfold GetUserUseCase.ExecuteByID, bind, call, Error, ret. step.
    destruct (GetById R id (store w)) as [[err | user] s]; step; reflexivity.
  - intros email w. unfold GetUserUseCase.ExecuteByEmail, bind, call, Error, ret. step.
    destruct (GetByEmail R email (store w)) as [[err | user] s]; step; reflexivity.
  - intros req w. unfold ListUsersUseCase.Execute, bind, call, Error, ret. step.
    destruct (List R _ _ (store w)) as [[err | users] s]; step; [reflexivity|].
    destruct (Count R s) as [[err | total] s']; step; [reflexivity|].
    rewrite <- list_fmap_compose. reflexivity.
  - intros now req w.
    unfold UpdateUserUseCase.Execute, bind, call, Info, Error, ret. step.
    destruct (GetById R _ _) as [[err | user] s]; step; [exact I|].
    assert (Hsave : forall w1 w2,
      agree (UpdateUserUseCase.save {| UpdateUserUseCase.userRepo := redacting pw R |}
               now req (with_password (pw user) user) w1).1
            (UpdateUserUseCase.save {| UpdateUserUseCase.userRepo := R |}
               now req user w2).1).
    { intros w1 w2. unfold UpdateUserUseCase.save, UpdateUserProfile.
      destruct (validateName _); [exact I|].
      destruct (validateEmail _); [exact I|].
      unfold bind, call, Info, Error, ret. step.
      destruct (Update R _ (store w1)) as [[err | u1] s1];
      destruct (Update R _ (store w2)) as [[err' | u2] s2]; step; try exact I.
      reflexivity. }
    destruct (negb _); step.
    + destruct (isEmailTaken R _ s) as [[err | [|]] s']; step; try exact I. apply Hsave.
    + apply Hsave.
Qed.

(** What [save] answers when it answers with a response. *)
Lemma save_response (now : Time) (req : UpdateUserRequest.t) (user : User)
    (w : World S) (resp : UpdateUserResponse.t) :
  (UpdateUserUseCase.save {| UpdateUserUseCase.userRepo := R |} now req user w).1
  = inr resp ->
  resp = {| UpdateUserResponse.ID := ID user;
            UpdateUserResponse.Email :=
              strings.ToLower (strings.TrimSpace (UpdateUserRequest.Email req));
            UpdateUserResponse.Name := strings.TrimSpace (UpdateUserRequest.Name req);
            UpdateUserResponse.Updated := now |}.
Proof.
  unfold UpdateUserUseCase.save, UpdateUserProfile.
  destruct (validateName _); [simpl; discriminate|].
  destruct (validateEmail _); [simpl; discriminate|].
  unfold bind, call, Info, Error, ret. simpl.
  destruct (Update R _ (store w)) as [[err | u'] s1]; simpl; [discriminate|].
  intros [= <-]. reflexivity.
Qed.

(** C7: no response carries the credential. Every field of a response is
    pinned to a field that is not the credential. The response of [Create]
    is the identifier, the email, the name and the date of creation of the
    record the repository's [Create] returned; the response of either [Get]
    is the identifier, the email, the name and the two dates of the record
    the repository returned; the response of [Update] is the identifier of
    the fetched record, the normalized email and the trimmed name of the
    request and the time of the call; each entry of the response of [List]
    is the identifier, the email, the name and the two dates of the record
    the repository listed at that place. And the response records have
    these fields and no other: a response is the record of its identifier,
    email, name and time stamps. *)
Theorem C7_responses_without_credential :
  (forall hasher sender now req (w : World S) resp,
      (CreateUserUseCase.Execute
         {| CreateUserUseCase.userRepo := R;
            CreateUserUseCase.passwordHash := hasher;
            CreateUserUseCase.emailSender := sender |} now req w).1 = inr resp ->
      exists user digest s1 createdUser s2,
        isEmailTaken R (CreateUserRequest.Email req) (store w) = (inr false, s1) /\
        NewUser now (CreateUserRequest.Email req) (CreateUserRequest.Name req)
                (CreateUserRequest.Password req) = inr user /\
        Hash hasher (Password user) = inr digest /\
        Create R (with_password digest user) s1 = (inr createdUser, s2) /\
        resp = {| CreateUserResponse.ID := ID createdUser;
                  CreateUserResponse.Email := Email createdUser;
                  CreateUserResponse.Name := Name createdUser;
                  CreateUserResponse.Created := Created createdUser |}) /\
  (forall id (w : World S) resp,
      (GetUserUseCase.ExecuteByID {| GetUserUseCase.userRepo := R |} id w).1 = inr resp ->
      exists user s1,
        GetById R id (store w) = (inr user, s1) /\
        resp = {| GetUserResponse.ID := ID user;
                  GetUserResponse.Email := Email user;
                  GetUserResponse.Name := Name user;
                  GetUserResponse.Created := Created user;
                  GetUserResponse.Updated := Updated user |}) /\
  (forall email (w : World S) resp,
      (GetUserUseCase.ExecuteByEmail {| GetUserUseCase.userRepo := R |} email w).1
      = inr resp ->
      exists user s1,
        GetByEmail R email (store w) = (inr user, s1) /\
        resp = {| GetUserResponse.ID := ID user;
                  GetUserResponse.Email := Email user;
                  GetUserResponse.Name := Name user;
                  GetUserResponse.Created := Created user;
                  GetUserResponse.Updated := Updated user |}) /\
  (forall now req (w : World S) resp,
      (UpdateUserUseCase.Execute {| UpdateUserUseCase.userRepo := R |} now req w).1
      = inr resp ->
      exists user s1,
        GetById R (UpdateUserRequest.ID req) (store w) = (inr user, s1) /\
        resp = {| UpdateUserResponse.ID := ID user;
                  UpdateUserResponse.Email :=
                    strings.ToLower (strings.TrimSpace (UpdateUserRequest.Email req));
                  UpdateUserResponse.Name :=
                    strings.TrimSpace (UpdateUserRequest.Name req);
                  UpdateUserResponse.Updated := now |}) /\
  (forall req (w : World S) resp,
      (ListUsersUseCase.Execute {| ListUsersUseCase.userRepo := R |} req w).1 = inr resp ->
      exists limit offset users s1,
        List R limit offset (store w) = (inr users, s1) /\
        ListUsersResponse.Users resp
        = (fun user => {| GetUserResponse.ID := ID user;
                          GetUserResponse.Email := Email user;
                          GetUserResponse.Name := Name user;
                          GetUserResponse.Created := Created user;
                          GetUserResponse.Updated := Updated user |}) <$> users) /\
  (forall resp : CreateUserResponse.t,
      resp = {| CreateUserResponse.ID := CreateUserResponse.ID resp;
                CreateUserResponse.Email := CreateUserResponse.Email resp;
                CreateUserResponse.Name := CreateUserResponse.Name resp;
                CreateUserResponse.Created := CreateUserResponse.Created resp |}) /\
  (forall resp : GetUserResponse.t,
      resp = {| GetUserResponse.ID := GetUserResponse.ID resp;
                GetUserResponse.Email := GetUserResponse.Email resp;
                GetUserResponse.Name := GetUserResponse.Name resp;
                GetUserResponse.Created := GetUserResponse.Created resp;
                GetUserResponse.Updated := GetUserResponse.Updated resp |}) /\
  (forall resp : UpdateUserResponse.t,
      resp = {| UpdateUserResponse.ID := UpdateUserResponse.ID resp;
                UpdateUserResponse.Email := UpdateUserResponse.Email resp;
                UpdateUserResponse.Name := UpdateUserResponse.Name resp;
                UpdateUserResponse.Updated := UpdateUserResponse.Updated resp |}).
Proof.
  split; [|split; [|split; [|split; [|split; [|split; [|split]]]]]].
  - intros hasher sender now req w resp.
    unfold CreateUserUseCase.Execute, bind, call, Info, Error, go, ret. simpl.
    destruct (isEmailTaken R _ (store w)) as [[err | [|]] s1]; simpl; try discriminate.
    destruct (NewUser now _ _ _) as [err | user]; simpl; [discriminate|].
    destruct (Hash hasher (Password user)) as [err | digest] eqn:Hhash; simpl;
      [discriminate|].
    fold (with_password digest user).
    destruct (Create R (with_password digest user) s1) as [[err | createdUser] s2] eqn:Hc;
      simpl; [discriminate|].
    intros [= <-]. exists user, digest, s1, createdUser, s2.
    repeat split; first [reflexivity | assumption].
  - intros id w resp. unfold GetUserUseCase.ExecuteByID, bind, call, Error, ret. simpl.
    destruct (GetById R id (store w)) as [[err | user] s1]; simpl; [discriminate|].
    intros [= <-]. eauto.
  - intros email w resp. unfold GetUserUseCase.ExecuteByEmail, bind, call, Error, ret. simpl.
    destruct (GetByEmail R email (store w)) as [[err | user] s1]; simpl; [discriminate|].
    intros [= <-]. eauto.
  - intros now req w resp.
    unfold UpdateUserUseCase.Execute, bind, call, Info, Error, ret.
    cbn -[UpdateUserUseCase.save].
    destruct (GetById R _ (store w)) as [[err | user] s1];
      cbn -[UpdateUserUseCase.save]; [discriminate|].
    destruct (negb _); cbn -[UpdateUserUseCase.save].
    + destruct (isEmailTaken R _ s1) as [[err | [|]] s2];
        cbn -[UpdateUserUseCase.save]; try discriminate.
      intros Hr. exists user, s1. split; [reflexivity|]. eapply save_response. exact Hr.
    + intros Hr. exists user, s1. split; [reflexivity|]. eapply save_response. exact Hr.
  - intros req w resp. unfold ListUsersUseCase.Execute, bind, call, Error, ret. simpl.
    destruct (List R _ _ (store w)) as [[err | users] s1] eqn:Hl; simpl; [discriminate|].
    destruct (Count R s1) as [[err | total] s2]; simpl; [discriminate|].
    intros [= <-]. simpl. eexists _, _, _, _. split; [exact Hl | reflexivity].
  - intros []. reflexivity.
  - intros []. reflexivity.
  - intros []. reflexivity.
Qed.

End AnyRepository.


(** C4: the mock holds one user, with identifier 1 and email a@x.com; the
    request to update user 1 carries A@X.com, which normalizes to that
    email; the use case answers that the email is already used. *)
Theorem C4_own_email_in_another_case_rejected :
  let req := {| UpdateUserRequest.ID := 1; UpdateUserRequest.Email := "A@X.com";
                UpdateUserRequest.Name := "Annie" |} in
  let w := examples.world examples.one_user in
  (mockstore.GetById 1 (store w)).1 = inr examples.ann /\
  (mockstore.Count (store w)).1 = inr 1 /\
  @mockstore.normalize examples.tables (UpdateUserRequest.Email req) = Email examples.ann /\
  (@UpdateUserUseCase.Execute examples.tables _ examples.updater 9 req w).1
  = inl "cet email est déjà utilisé"%string.
Proof. vm_compute. auto. Qed.

(** * The sources at concrete inputs *)

(** The scenario of the specification: the first [Create] succeeds with
    identifier 1 and leaves the mock with one user ... *)
Example scenario_create :
  @CreateUserUseCase.Execute examples.tables _ examples.creator 7
    {| CreateUserRequest.Email := "a@x.com"; CreateUserRequest.Name := "Ann";
       CreateUserRequest.Password := "secret1" |}
    (examples.world examples.empty_store)
  = (inr {| CreateUserResponse.ID := 1; CreateUserResponse.Email := "a@x.com";
            CreateUserResponse.Name := "Ann"; CreateUserResponse.Created := 7 |},
     {| store := examples.one_user;
        logs := [LogInfo "Creating new user"
                   [("email", VString "a@x.com"); ("name", VString "Ann")];
                 LogInfo "User created successfully"
                   [("user_id", VInt 1); ("email", VString "a@x.com")]]%string;
        goroutines := [examples.ann] |}).
Proof. vm_compute. reflexivity. Qed.

(** ... and [Update] of user 1 with the email as it is stored succeeds. *)
Example scenario_update :
  (@UpdateUserUseCase.Execute examples.tables _ examples.updater 9
     {| UpdateUserRequest.ID := 1; UpdateUserRequest.Email := "a@x.com";
        UpdateUserRequest.Name := "Annie" |}
     (examples.world examples.one_user)).1
  = inr {| UpdateUserResponse.ID := 1; UpdateUserResponse.Email := "a@x.com";
           UpdateUserResponse.Name := "Annie"; UpdateUserResponse.Updated := 9 |}.
Proof. vm_compute. reflexivity. Qed.

(** The vertical tab is white space to [strings.TrimSpace] and is not in the
    pattern's [\s]: inside a name it is an invalid character. *)
Example vertical_tab_in_name :
  unicode.IsSpace 11 = true /\
  validateName examples.name_with_vertical_tab
  = Some "nom contient des caractères invalides"%string.
Proof. vm_compute. auto. Qed.

(** [GetByID] and [List] after the scenario's [Create]: copies, at new
    addresses. *)
Example copies_after_create :
  mocks.GetByID 1 examples.one_user.1 examples.one_user.2
  = (inr 2%nat, [examples.ann; examples.ann; examples.ann]) /\
  mocks.List examples.one_user.1 examples.one_user.2
  = ([2%nat], [examples.ann; examples.ann; examples.ann]).
Proof. vm_compute. auto. Qed.

(** * The theorems at concrete inputs *)

Lemma C8_witness :
  @NewUser examples.tables 7 "  A@X.com " " Ann " "secret1" = inr examples.fresh_ann /\
  Email examples.fresh_ann
    = @strings.ToLower examples.tables (strings.TrimSpace "  A@X.com ") /\
  Name examples.fresh_ann = strings.TrimSpace " Ann " /\
  Password examples.fresh_ann = "secret1"%string.
Proof.
  assert (Hnew : @NewUser examples.tables 7 "  A@X.com " " Ann " "secret1"
                 = inr examples.fresh_ann) by (vm_compute; reflexivity).
  split; [exact Hnew|].
  exact (@C8_NewUser_fields examples.tables 7 _ _ _ _ Hnew).
Defined.

Lemma C10_witness :
  (@UpdateUserProfile examples.tables 9 examples.ann "x" "a@x.com").2 <> None /\
  (@UpdateUserProfile examples.tables 9 examples.ann "x" "a@x.com").1 = examples.ann /\
  (ChangePassword 9 examples.ann "123").2 <> None /\
  (ChangePassword 9 examples.ann "123").1 = examples.ann.
Proof.
  assert (H1 : (@UpdateUserProfile examples.tables 9 examples.ann "x" "a@x.com").2 <> None)
    by (vm_compute; discriminate).
  assert (H2 : (ChangePassword 9 examples.ann "123").2 <> None)
    by (vm_compute; discriminate).
  split; [exact H1|]. split.
  - exact (proj1 (@C10_mutators_atomic examples.tables 9 examples.ann) _ _ H1).
  - split; [exact H2|].
    exact (proj2 (@C10_mutators_atomic examples.tables 9 examples.ann) _ H2).
Defined.

Lemma C3_witness :
  @NewUser examples.tables 7 "  A@X.com " " Ann " "secret1" = inr examples.fresh_ann /\
  history.nondecreasing 7 examples.calls.*1 /\
  Created (@history.run examples.tables examples.fresh_ann examples.calls) = 7 /\
  Created (@history.run examples.tables examples.fresh_ann examples.calls)
  <= Updated (@history.run examples.tables examples.fresh_ann examples.calls).
Proof.
  assert (Hnew : @NewUser examples.tables 7 "  A@X.com " " Ann " "secret1"
                 = inr examples.fresh_ann) by (vm_compute; reflexivity).
  assert (Hclock : history.nondecreasing 7 examples.calls.*1) by (simpl; lia).
  split; [exact Hnew|]. split; [exact Hclock|].
  exact (proj2 (proj2 (proj2 (@C3_updated_not_before_created examples.tables)))
           7 _ _ _ _ examples.calls Hnew Hclock).
Defined.

Example Create_refused_when_normalized_example :
  let req := {| CreateUserRequest.Email := " A@X.com";
                CreateUserRequest.Name := "Ann Again";
                CreateUserRequest.Password := "secret2" |} in
  let w := examples.world examples.one_user in
  @mockstore.consistent examples.tables (store w) /\
  mockstore.live (store w) examples.ann /\
  @mockstore.normalize examples.tables (Email examples.ann)
  = @mockstore.normalize examples.tables (CreateUserRequest.Email req) /\
  (@CreateUserUseCase.Execute examples.tables _ examples.creator 9 req w).1
  = inl "un utilisateur avec cet email existe déjà"%string /\
  store (@CreateUserUseCase.Execute examples.tables _ examples.creator 9 req w).2
  = store w.
Proof.
  intros req w.
  assert (Hc : @mockstore.consistent examples.tables (store w)).
  { intros id p Hid. simpl in Hid.
    apply lookup_singleton_Some in Hid as [<- <-].
    split; [simpl; lia|]. split; [vm_compute; reflexivity|].
    exists 1%nat. vm_compute. reflexivity. }
  assert (Hl : mockstore.live (store w) examples.ann).
  { exists 1, 1%nat. split; vm_compute; reflexivity. }
  assert (Hn : @mockstore.normalize examples.tables (Email examples.ann)
               = @mockstore.normalize examples.tables (CreateUserRequest.Email req))
    by (vm_compute; reflexivity).
  split; [exact Hc|]. split; [exact Hl|]. split; [exact Hn|].
  exact (proj1 (@Create_refused_when_normalized examples.tables examples.hasher
                  examples.mailer_down 9 req w examples.ann Hc Hl Hn)).
Defined.

Lemma C5_witness :
  let req := {| ListUsersRequest.Page := 0; ListUsersRequest.PageSize := 0 |} in
  let w := examples.world (examples.three_users, @nil Call) in
  let uc := {| ListUsersUseCase.userRepo :=
                 recording (@mockstore.repository examples.tables) |} in
  0 <= ListUsersRequest.PageSize req /\
  goint.fits ((1 - 1) * 10) /\
  goint.fits (3 + 10 - 1) /\
  (exists rest, (store (ListUsersUseCase.Execute uc req w).2).2
                = [] ++ CallList 10 (goint.mul (goint.sub 1 1) 10) :: rest) /\
  goint.mul (goint.sub 1 1) 10 = (1 - 1) * 10 /\
  exists resp,
    (ListUsersUseCase.Execute uc req w).1 = inr resp /\
    ListUsersResponse.Page resp = 1 /\
    ListUsersResponse.PageSize resp = 10 /\
    ListUsersResponse.Total resp = 3 /\
    ListUsersResponse.TotalPages resp = goint.ceil_quotient 3 10.
Proof.
  intros req w uc.
  assert (H0 : 0 <= ListUsersRequest.PageSize req) by (simpl; lia).
  assert (H1 : goint.fits ((1 - 1) * 10)) by (unfold goint.fits; simpl; lia).
  assert (H2 : goint.fits (3 + 10 - 1)) by (unfold goint.fits; simpl; lia).
  destruct (C5_list_pagination (@mockstore.repository examples.tables) req w)
    as (Hcalls & Hoff & Hresp).
  split; [exact H0|]. split; [exact H1|]. split; [exact H2|]. split; [exact Hcalls|].
  split; [exact (Hoff H1)|].
  destruct (ListUsersUseCase.Execute uc req w).1 as [err | resp] eqn:Hrun;
    [vm_compute in Hrun; discriminate|].
  exists resp. split; [reflexivity|].
  destruct (Hresp resp Hrun) as (Hp & Hs & users & s1 & s2 & Hlist & Hcount & Hpages).
  assert (Htotal : ListUsersResponse.Total resp = 3).
  { vm_compute in Hrun. injection Hrun as <-. reflexivity. }
  split; [exact Hp|]. split; [exact Hs|]. split; [exact Htotal|].
  rewrite Hpages, Htotal, Hs; [reflexivity | exact H0 | | ]; rewrite Htotal.
  - lia.
  - exact H2.
Defined.

Lemma C6_witness :
  let req := {| CreateUserRequest.Email := "  A@X.com ";
                CreateUserRequest.Name := " Ann ";
                CreateUserRequest.Password := "secret1" |} in
  let w := examples.world examples.empty_store in
  SendWelcomeEmail examples.mailer_down (Email examples.ann) (Name examples.ann)
  = Some "smtp: connection refused"%string /\
  (@CreateUserUseCase.Execute examples.tables _ examples.creator 7 req w).1
  = inr {| CreateUserResponse.ID := 1;
           CreateUserResponse.Email := "a@x.com";
           CreateUserResponse.Name := "Ann";
           CreateUserResponse.Created := 7 |} /\
  goroutines (@CreateUserUseCase.Execute examples.tables _ examples.creator 7 req w).2
  = [examples.ann] /\
  CreateUserUseCase.welcome examples.creator examples.ann w
  = (tt, {| store := store w;
            logs := [LogError "Failed to send welcome email" "smtp: connection refused"
                       [("user_id", VInt 1); ("email", VString "a@x.com")]%string];
            goroutines := [] |}).
Proof.
  intros req w.
  assert (Hsend : SendWelcomeEmail examples.mailer_down (Email examples.ann)
                    (Name examples.ann) = Some "smtp: connection refused"%string)
    by reflexivity.
  destruct (@C6_create_ignores_notification examples.tables _
              (@mockstore.repository examples.tables) examples.hasher
              examples.mailer_down examples.mailer_down 7 req w)
    as (_ & Hok & Hlog & _).
  destruct (Hok examples.fresh_ann examples.empty_store examples.ann examples.one_user)
    as [Hresp Hgo].
  { vm_compute. reflexivity. }
  { vm_compute. reflexivity. }
  { exists "#secret1"%string. split; vm_compute; reflexivity. }
  split; [exact Hsend|]. split; [exact Hresp|]. split; [exact Hgo|].
  exact (Hlog examples.ann w _ Hsend).
Defined.

(** C5, as it is worded, at a negative page size: with three users and a
    page size of -2 the use case answers 0 pages, and the ceiling of
    3 / -2 is -1. *)
Lemma C5_negative_page_size :
  exists resp w',
    ListUsersUseCase.Execute examples.lister
      {| ListUsersRequest.Page := 1; ListUsersRequest.PageSize := -2 |}
      (examples.world examples.three_users) = (inr resp, w') /\
    ListUsersResponse.Total resp = 3 /\
    ListUsersResponse.PageSize resp = -2 /\
    ListUsersResponse.TotalPages resp
    <> goint.ceil_quotient (ListUsersResponse.Total resp) (ListUsersResponse.PageSize resp).
Proof.
  eexists _, _. split; [vm_compute; reflexivity|].
  split; [reflexivity|]. split; [reflexivity|]. vm_compute. discriminate.
Qed.

(** The offset overflows: page 2^62 + 1 with a page size of 4 asks for an
    offset of 2^64, and [List] is called with the offset 0. *)
Example list_offset_wraps :
  let req := {| ListUsersRequest.Page := 2 ^ 62 + 1; ListUsersRequest.PageSize := 4 |} in
  let uc := {| ListUsersUseCase.userRepo :=
                 recording (@mockstore.repository examples.tables) |} in
  (store (ListUsersUseCase.Execute uc req
            (examples.world (examples.three_users, @nil Call))).2).2
  = [CallList 4 0; CallCount] /\
  (ListUsersRequest.Page req - 1) * ListUsersRequest.PageSize req <> 0 /\
  ~ goint.fits ((ListUsersRequest.Page req - 1) * ListUsersRequest.PageSize req).
Proof.
  intros req uc. split; [vm_compute; reflexivity|].
  split; [vm_compute; discriminate|].
  unfold goint.fits. simpl. lia.
Qed.

(** A repository that counts -4 users: with a page size of 3 the use case
    answers 0 pages, and the ceiling of -4 / 3 is -1. *)
Example negative_count_pages :
  exists resp w',
    ListUsersUseCase.Execute {| ListUsersUseCase.userRepo := scenes.counting (-4) |}
      {| ListUsersRequest.Page := 1; ListUsersRequest.PageSize := 3 |}
      (examples.world tt) = (inr resp, w') /\
    ListUsersResponse.Total resp = -4 /\
    ListUsersResponse.TotalPages resp = 0 /\
    goint.ceil_quotient (ListUsersResponse.Total resp) (ListUsersResponse.PageSize resp)
    = -1.
Proof.
  eexists _, _. split; [vm_compute; reflexivity|].
  split; [reflexivity|]. split; vm_compute; reflexivity.
Qed.

(** A repository that counts 2^63 - 1 users, the largest [int]: with a page
    size of 10 the sum overflows, and the use case answers a negative number
    of pages. *)
Example count_overflow_pages :
  exists resp w',
    ListUsersUseCase.Execute
      {| ListUsersUseCase.userRepo := scenes.counting (2 ^ 63 - 1) |}
      {| ListUsersRequest.Page := 1; ListUsersRequest.PageSize := 10 |}
      (examples.world tt) = (inr resp, w') /\
    ListUsersResponse.Total resp = 2 ^ 63 - 1 /\
    ListUsersResponse.TotalPages resp < 0 /\
    0 < goint.ceil_quotient (ListUsersResponse.Total resp)
                            (ListUsersResponse.PageSize resp) /\
    ~ goint.fits (ListUsersResponse.Total resp + ListUsersResponse.PageSize resp - 1).
Proof.
  eexists _, _. split; [vm_compute; reflexivity|].
  split; [reflexivity|]. split; [vm_compute; reflexivity|].
  split; [vm_compute; reflexivity|].
  unfold goint.fits. simpl. lia.
Qed.

(** * More of the code *)

Import mockinv wording logging charset.

(** ** The mock repository: its maps and its memory *)

Lemma sound_allocated m h id p : sound m h -> users m !! id = Some p -> (p < length h)%nat.
Proof. intros (Ha & _) Hp. exact (Ha id p Hp). Qed.

Lemma index_allocated m h email p :
  sound m h -> emails m !! email = Some p -> (p < length h)%nat.
Proof.
  intros Hs Hp. pose proof Hs as (Ha & _ & _ & _ & Hx).
  destruct (Hx email p Hp) as (_ & id & Hid). exact (Ha id p Hid).
Qed.

(** Allocation leaves a sound mock sound. *)
Lemma sound_app m h k : sound m h -> sound m (h ++ k).
Proof.
  intros Hs. pose proof Hs as (Ha & Hb & Hk & Hi & Hx).
  split; [|split; [|split; [|split]]].
  - intros id p Hp. rewrite length_app. specialize (Ha id p Hp). lia.
  - exact Hb.
  - intros id p Hp. rewrite load_app by (eapply Ha; eauto). eauto.
  - intros id p Hp. rewrite load_app by (eapply Ha; eauto). eauto.
  - intros email p Hp. rewrite load_app by (eapply index_allocated; eauto). eauto.
Qed.

Lemma contents_app m h k : allocated m h -> contents m (h ++ k) = contents m h.
Proof.
  intros Ha. unfold contents. apply map_eq. intros id.
  rewrite !lookup_fmap. destruct (users m !! id) as [p|] eqn:Hp; simpl; [|reflexivity].
  rewrite load_app by (eapply Ha; eauto). reflexivity.
Qed.


Lemma wrap_succ z : goint.fits (z + 1) -> goint.add z 1 = z + 1.
Proof. intros Hf. unfold goint.add. apply wrap_fits. exact Hf. Qed.

(** What [Create] does when the email is not in the index. *)
Lemma Create_fresh user m h :
  (user < length h)%nat ->
  emails m !! Email (load h user) = None ->
  mocks.Create user m h =
  (inr (length h),
   {| users := <[nextID m := length h]> (users m);
      emails := <[Email (load h user) := length h]> (emails m);
      nextID := goint.add (nextID m) 1 |},
   <[user := with_ID (nextID m) (load h user)]> h ++ [with_ID (nextID m) (load h user)]).
Proof.
  intros Hu He. unfold mocks.Create, alloc. rewrite He. simpl.
  rewrite length_insert.
  rewrite !load_app by (rewrite length_insert; assumption).
  rewrite !load_insert_eq by assumption. reflexivity.
Qed.

Lemma Create_taken user m h p :
  emails m !! Email (load h user) = Some p ->
  mocks.Create user m h = (inl "email déjà utilisé"%string, m, h).
Proof. intros He. unfold mocks.Create. rewrite He. reflexivity. Qed.

Lemma Create_sound user m h r m' h' :
  sound m h -> (user < length h)%nat -> foreign user m ->
  goint.fits (nextID m + 1) ->
  mocks.Create user m h = (r, m', h') -> sound m' h'.
Proof.
  intros Hs Hu Hf Hfit Hc. pose proof Hs as (Ha & Hb & Hk & Hi & Hx).
  destruct (emails m !! Email (load h user)) as [q|] eqn:He.
  { rewrite (Create_taken _ _ _ _ He) in Hc. injection Hc as <- <- <-. exact Hs. }
  rewrite (Create_fresh _ _ _ Hu He) in Hc. injection Hc as <- <- <-.
  set (u := with_ID (nextID m) (load h user)).
  assert (Hold : forall p, (p < length h)%nat -> p <> user ->
                   load (<[user := u]> h ++ [u]) p = load h p).
  { intros p Hp Hne. rewrite load_app by (rewrite length_insert; assumption).
    apply load_insert_ne. congruence. }
  assert (Hnew : load (<[user := u]> h ++ [u]) (length h) = u).
  { unfold load. rewrite lookup_app_r by (rewrite length_insert; lia).
    rewrite length_insert, Nat.sub_diag. reflexivity. }
  split; [|split; [|split; [|split]]].
  - intros id p Hp; cbn [users emails nextID] in Hp |- *. rewrite length_app, length_insert. simpl.
    apply lookup_insert_Some in Hp as [[_ <-] | [_ Hp]]; [lia|].
    specialize (Ha id p Hp). lia.
  - intros id p Hp; cbn [users emails nextID] in Hp |- *. rewrite wrap_succ by assumption.
    apply lookup_insert_Some in Hp as [[<- _] | [_ Hp]]; [lia|].
    specialize (Hb id p Hp). lia.
  - intros id p Hp; cbn [users emails nextID] in Hp |- *.
    apply lookup_insert_Some in Hp as [[<- <-] | [_ Hp]].
    + rewrite Hnew. reflexivity.
    + rewrite Hold by (eauto using Hf). eauto.
  - intros id p Hp; cbn [users emails nextID] in Hp |- *.
    apply lookup_insert_Some in Hp as [[<- <-] | [Hne Hp]].
    + rewrite Hnew. simpl. apply lookup_insert_eq.
    + rewrite Hold by (eauto using Hf).
      rewrite lookup_insert_ne; [eauto|].
      intros Heq. rewrite Heq in He. rewrite (Hi id p Hp) in He. discriminate.
  - intros email p Hp; cbn [users emails nextID] in Hp |- *.
    apply lookup_insert_Some in Hp as [[<- <-] | [Hne Hp]].
    + rewrite Hnew. split; [reflexivity|]. exists (nextID m). apply lookup_insert_eq.
    + destruct (Hx email p Hp) as (Hem & id & Hid).
      rewrite Hold by (eauto using Hf). split; [assumption|].
      exists id. rewrite lookup_insert_ne; [assumption|].
      intros <-. specialize (Hb _ _ Hid). lia.
Qed.


Lemma Update_found user m h existing :
  users m !! ID (load h user) = Some existing ->
  mocks.Update user m h
  = (None, <[existing := with_Name (Name (load h user)) (load h existing)]> h).
Proof. intros He. unfold mocks.Update. rewrite He. reflexivity. Qed.

Lemma Update_missing user m h :
  users m !! ID (load h user) = None ->
  mocks.Update user m h = (Some "user not found"%string, h).
Proof. intros He. unfold mocks.Update. rewrite He. reflexivity. Qed.


(** In place: the record of the identifier changes its name, where it
    lies; every other stored record is as it was. *)
Lemma Update_contents user m h existing :
  allocated m h -> keyed m h ->
  users m !! ID (load h user) = Some existing ->
  contents m (mocks.Update user m h).2
  = <[ID (load h user) := with_Name (Name (load h user)) (load h existing)]>
      (contents m h).
Proof.
  intros Ha Hk He.
  rewrite (Update_found _ _ _ _ He). simpl.
  unfold contents. apply map_eq. intros id.
  destruct (decide (ID (load h user) = id)) as [<- | Hne].
  - rewrite lookup_insert_eq, lookup_fmap, He. simpl.
    rewrite load_insert_eq by (eapply Ha; eauto). reflexivity.
  - rewrite lookup_insert_ne by assumption. rewrite !lookup_fmap.
    destruct (users m !! id) as [p|] eqn:Hp; simpl; [|reflexivity].
    rewrite load_insert_ne; [reflexivity|].
    intros <-. apply Hne. rewrite <- (Hk _ _ He), <- (Hk _ _ Hp). reflexivity.
Qed.

Lemma GetByID_found id m h p :
  users m !! id = Some p -> mocks.GetByID id m h = (inr (length h), h ++ [load h p]).
Proof. intros Hp. unfold mocks.GetByID, alloc. rewrite Hp. reflexivity. Qed.

Lemma GetByID_missing id m h :
  users m !! id = None -> mocks.GetByID id m h = (inl "user not found"%string, h).
Proof. intros Hp. unfold mocks.GetByID. rewrite Hp. reflexivity. Qed.


(** The loop of [List] and [safeList], step by step. *)
Lemma copies_fold (l : list (Z * ptr)) : forall (acc : list ptr) (h0 : Heap),
  Forall (fun p => (p < length h0)%nat) l.*2 ->
  foldl (fun '(result, h) '(_, user) =>
           let '(userCopy, h) := alloc h (load h user) in
           (result ++ [userCopy], h)) (acc, h0) l
  = (acc ++ seq (length h0) (length l),
     h0 ++ ((fun '(_, user) => load h0 user) <$> l)).
Proof.
  induction l as [|[id user] l IH]; intros acc h0 Hall.
  - simpl. rewrite !app_nil_r. reflexivity.
  - rewrite fmap_cons in Hall. apply Forall_cons in Hall as [Hu Hall]. simpl in Hu.
    assert (Hall' : Forall (fun p => (p < length (h0 ++ [load h0 user]))%nat) l.*2).
    { eapply Forall_impl; [exact Hall|]. intros p Hp. simpl in Hp.
      rewrite length_app. simpl. lia. }
    etransitivity; [exact (IH (acc ++ [length h0]) (h0 ++ [load h0 user]) Hall')|].
    rewrite <- !app_assoc, length_app. simpl.
    replace (length h0 + 1)%nat with (S (length h0)) by lia. f_equal. f_equal. f_equal.
    apply list_fmap_ext. intros i [id' user'] Hi. simpl.
    apply load_app. rewrite Forall_forall in Hall. apply Hall.
    apply list_elem_of_lookup. exists i. rewrite list_lookup_fmap, Hi. reflexivity.
Qed.

Lemma stored_allocated m h :
  allocated m h -> Forall (fun p => (p < length h)%nat) (map_to_list (users m)).*2.
Proof.
  intros Ha. apply Forall_forall. intros p Hp.
  apply list_elem_of_fmap in Hp as ([id p'] & -> & Hin). simpl.
  apply elem_of_map_to_list in Hin. exact (Ha _ _ Hin).
Qed.

Lemma List_copies m h :
  allocated m h ->
  mocks.List m h = (seq (length h) (size (users m)),
              h ++ ((fun '(_, user) => load h user) <$> map_to_list (users m))).
Proof.
  intros Ha. unfold mocks.List. rewrite copies_fold by (apply stored_allocated; assumption).
  simpl. rewrite length_map_to_list. reflexivity.
Qed.

Lemma load_app_cons (h : Heap) (v : User) (k : Heap) : load (h ++ v :: k) (length h) = v.
Proof. unfold load. rewrite lookup_app_r by lia. rewrite Nat.sub_diag. reflexivity. Qed.

Lemma load_seq (h k : Heap) : load (h ++ k) <$> seq (length h) (length k) = k.
Proof.
  revert h. induction k as [|v k IH]; intros h; simpl; [reflexivity|].
  rewrite (load_app_cons h v k). f_equal.
  replace (h ++ v :: k) with ((h ++ [v]) ++ k) by (rewrite <- app_assoc; reflexivity).
  replace (S (length h)) with (length (h ++ [v])) by (rewrite length_app; simpl; lia).
  apply IH.
Qed.

Lemma contents_lookup m h id u :
  contents m h !! id = Some u <-> exists p, users m !! id = Some p /\ u = load h p.
Proof.
  unfold contents. rewrite lookup_fmap. destruct (users m !! id) as [p|]; simpl; split.
  - intros [= <-]. eauto.
  - intros (q & [= <-] & ->). reflexivity.
  - discriminate.
  - intros (q & Hq & _). discriminate.
Qed.


(** X2: [Create] refuses an email exactly when a stored user has it, and a
    refused call changes neither the maps nor the memory. *)
Theorem Create_refuses_stored_emails (user : ptr) (m : MockUserRepository) (h : Heap)
  (Hs : sound m h) :
  (exists id u, contents m h !! id = Some u /\ Email u = Email (load h user))
  <-> mocks.Create user m h = (inl "email déjà utilisé"%string, m, h).
Proof.
  pose proof Hs as (Ha & Hb & Hk & Hi & Hx). split.
  - intros (id & u & Hu & He). apply contents_lookup in Hu as (p & Hp & ->).
    apply (Create_taken _ _ _ p). rewrite <- He. eauto.
  - intros Hc. destruct (emails m !! Email (load h user)) as [p|] eqn:He.
    + destruct (Hx _ _ He) as (Hem & id & Hid).
      exists id, (load h p). split; [|assumption].
      apply contents_lookup. eauto.
    + unfold mocks.Create in Hc. rewrite He in Hc. simpl in Hc. discriminate.
Qed.

(** The stored records after an accepted [Create]. *)
Lemma Create_adds (user : ptr) (m : MockUserRepository) (h : Heap) :
  sound m h -> (user < length h)%nat -> foreign user m ->
  goint.fits (nextID m + 1) ->
  emails m !! Email (load h user) = None ->
  let '(r, m', h') := mocks.Create user m h in
  r = inr (length h) /\
  contents m h !! nextID m = None /\
  contents m' h' = <[nextID m := with_ID (nextID m) (load h user)]> (contents m h) /\
  nextID m' = nextID m + 1 /\
  load h' user = with_ID (nextID m) (load h user) /\
  load h' (length h) = load h' user.
Proof.
  intros Hs Hu Hf Hfit He. pose proof Hs as (Ha & Hb & Hk & Hi & Hx).
  rewrite (Create_fresh _ _ _ Hu He).
  set (u := with_ID (nextID m) (load h user)).
  assert (Hnone : users m !! nextID m = None).
  { destruct (users m !! nextID m) as [p|] eqn:Hp; [|reflexivity].
    specialize (Hb _ _ Hp). lia. }
  assert (Hnew : load (<[user := u]> h ++ [u]) (length h) = u).
  { unfold load. rewrite lookup_app_r by (rewrite length_insert; lia).
    rewrite length_insert, Nat.sub_diag. reflexivity. }
  assert (Hcaller : load (<[user := u]> h ++ [u]) user = u).
  { rewrite load_app by (rewrite length_insert; assumption).
    apply load_insert_eq. assumption. }
  split; [reflexivity|]. split; [|split; [|split; [|split]]].
  - unfold contents. rewrite lookup_fmap, Hnone. reflexivity.
  - unfold contents. cbn [users]. rewrite fmap_insert, Hnew. f_equal.
    apply map_eq. intros id. rewrite !lookup_fmap.
    destruct (users m !! id) as [p|] eqn:Hp; simpl; [|reflexivity].
    rewrite load_app by (rewrite length_insert; eapply Ha; eauto).
    rewrite load_insert_ne; [reflexivity|]. intros Heq. apply (Hf _ _ Hp). congruence.
  - cbn [nextID]. apply wrap_succ. assumption.
  - exact Hcaller.
  - rewrite Hnew, Hcaller. reflexivity.
Qed.

(** X3: what an accepted [Create] stores. The new user gets the value of
    the counter as identifier, an identifier no stored user has; the stored
    records are the former ones and the new one; the counter moves by one;
    the caller's record has the identifier written into it, and the pointer
    returned is a new address that holds a record equal to it. *)
Theorem Create_stores_new_record (user : ptr) (m : MockUserRepository) (h : Heap)
  (Hs : sound m h) (Hu : (user < length h)%nat) (Hf : foreign user m)
  (Hfit : goint.fits (nextID m + 1))
  (Hfree : forall id u, contents m h !! id = Some u -> Email u <> Email (load h user)) :
  let '(r, m', h') := mocks.Create user m h in
  r = inr (length h) /\
  contents m h !! nextID m = None /\
  contents m' h' = <[nextID m := with_ID (nextID m) (load h user)]> (contents m h) /\
  nextID m' = nextID m + 1 /\
  load h' user = with_ID (nextID m) (load h user) /\
  load h' (length h) = load h' user.
Proof.
  assert (He : emails m !! Email (load h user) = None).
  { destruct Hs as (_ & _ & _ & _ & Hx).
    destruct (emails m !! Email (load h user)) as [p|] eqn:He; [|reflexivity].
    destruct (Hx _ _ He) as (Hem & id & Hid).
    exfalso. apply (Hfree id (load h p)); [|assumption].
    apply contents_lookup. eauto. }
  exact (Create_adds user m h Hs Hu Hf Hfit He).
Qed.

(** X4: [Create] claims the email. Whatever the outcome of a call, the
    email of its record is in the index afterwards, and any later [Create]
    of a record with that very email is refused and changes nothing. *)
Theorem Create_claims_the_email (user : ptr) (m : MockUserRepository) (h : Heap)
  (Hu : (user < length h)%nat) :
  let '(r, m', h') := mocks.Create user m h in
  is_Some (emails m' !! Email (load h user)) /\
  forall user2, Email (load h' user2) = Email (load h user) ->
    mocks.Create user2 m' h' = (inl "email déjà utilisé"%string, m', h').
Proof.
  destruct (emails m !! Email (load h user)) as [p|] eqn:He.
  - rewrite (Create_taken _ _ _ _ He). split; [eauto|].
    intros user2 He2. apply (Create_taken _ _ _ p). rewrite He2. exact He.
  - rewrite (Create_fresh _ _ _ Hu He).
    assert (Hin : emails
              {| users := <[nextID m := length h]> (users m);
                 emails := <[Email (load h user) := length h]> (emails m);
                 nextID := goint.add (nextID m) 1 |} !! Email (load h user)
            = Some (length h)) by apply lookup_insert_eq.
    split; [eauto|].
    intros user2 He2. apply (Create_taken _ _ _ (length h)). rewrite He2. exact Hin.
Qed.

(** X5: [Update] works in place. On a repository whose stored pointers are
    allocated and whose records carry the identifier they are filed under:
    with no stored user of the record's identifier it fails and changes
    nothing; otherwise it allocates nothing, and the stored records are the
    former ones with, under that identifier, the former record with the new
    name: the other fields of the stored record stay, whatever the caller's
    record holds. *)
Theorem Update_in_place (user : ptr) (m : MockUserRepository) (h : Heap)
  (Ha : allocated m h) (Hk : keyed m h) :
  (contents m h !! ID (load h user) = None ->
   mocks.Update user m h = (Some "user not found"%string, h)) /\
  (forall stored, contents m h !! ID (load h user) = Some stored ->
   (mocks.Update user m h).1 = None /\
   length (mocks.Update user m h).2 = length h /\
   contents m (mocks.Update user m h).2
   = <[ID (load h user) := with_Name (Name (load h user)) stored]> (contents m h)).
Proof.
  split.
  - intros Hn. apply Update_missing. unfold contents in Hn.
    rewrite lookup_fmap in Hn. destruct (users m !! ID (load h user)); [discriminate|reflexivity].
  - intros stored Hst. apply contents_lookup in Hst as (p & Hp & ->).
    rewrite (Update_contents _ _ _ _ Ha Hk Hp).
    rewrite (Update_found _ _ _ _ Hp). simpl. rewrite length_insert. auto.
Qed.

(** X6: [GetByID] hands out a copy. For a stored identifier the pointer
    returned is a new address, it holds a record equal to the stored one,
    and the stored records are untouched; a second call returns another
    address again. For an unknown identifier the call fails and allocates
    nothing. *)
Theorem GetByID_fresh_copy (id : Z) (m : MockUserRepository) (h : Heap)
  (Ha : allocated m h) :
  match contents m h !! id with
  | None => mocks.GetByID id m h = (inl "user not found"%string, h)
  | Some stored =>
    exists q h', mocks.GetByID id m h = (inr q, h') /\
      (length h <= q < length h')%nat /\
      (forall i p, users m !! i = Some p -> p <> q) /\
      load h' q = stored /\
      contents m h' = contents m h /\
      exists q2 h2, mocks.GetByID id m h' = (inr q2, h2) /\ q2 <> q /\ load h2 q2 = stored /\
                    load h2 q = stored
  end.
Proof.
  unfold contents. rewrite lookup_fmap.
  destruct (users m !! id) as [p|] eqn:Hp; simpl.
  2:{ apply GetByID_missing. assumption. }
  exists (length h), (h ++ [load h p]).
  split; [apply GetByID_found; assumption|].
  assert (Hq : load (h ++ [load h p]) (length h) = load h p) by apply load_app_cons.
  split; [rewrite length_app; simpl; lia|].
  split; [intros i p' Hp'; specialize (Ha _ _ Hp'); lia|].
  split; [exact Hq|].
  split; [apply contents_app; assumption|].
  exists (length (h ++ [load h p])), ((h ++ [load h p]) ++ [load (h ++ [load h p]) p]).
  split; [apply GetByID_found; assumption|].
  split; [rewrite length_app; simpl; lia|].
  rewrite (load_app h [load h p] p) by (eapply Ha; eauto).
  split; [apply load_app_cons|].
  rewrite load_app by (rewrite length_app; simpl; lia). exact Hq.
Qed.

(** X7: [List] hands out copies. It returns one pointer for each stored
    user; the pointers are new addresses, different from one another and
    from every stored pointer; the records behind them are the stored
    records; the stored records are untouched. *)
Theorem List_fresh_copies (m : MockUserRepository) (h : Heap) (Ha : allocated m h) :
  let '(result, h') := mocks.List m h in
  length result = size (users m) /\
  NoDup result /\
  (forall q, q ∈ result ->
     (length h <= q < length h')%nat /\ forall i p, users m !! i = Some p -> p <> q) /\
  load h' <$> result ≡ₚ (map_to_list (contents m h)).*2 /\
  contents m h' = contents m h.
Proof.
  rewrite (List_copies _ _ Ha).
  set (copies := (fun '(_, user) => load h user) <$> map_to_list (users m)).
  assert (Hlen : length copies = size (users m)).
  { unfold copies. rewrite length_fmap. apply length_map_to_list. }
  split; [apply length_seq|]. split; [apply NoDup_seq|]. split; [|split].
  - intros q Hq. apply elem_of_seq in Hq. rewrite length_app, Hlen.
    split; [lia|]. intros i p Hp. specialize (Ha _ _ Hp). lia.
  - rewrite <- Hlen, load_seq. unfold contents.
    rewrite map_to_list_fmap. unfold copies. rewrite <- list_fmap_compose.
    erewrite list_fmap_ext; [reflexivity|]. intros i [k p] _. reflexivity.
  - apply contents_app. assumption.
Qed.

(** ** The closures of the demonstration program *)

Lemma dangerous_fold (l : list (Z * ptr)) (acc : list ptr) :
  foldl (fun users '(_, user) => users ++ [user]) acc l = acc ++ l.*2.
Proof.
  revert acc. induction l as [|[id user] l IH]; intros acc; simpl.
  - rewrite app_nil_r. reflexivity.
  - rewrite IH, <- app_assoc. reflexivity.
Qed.

Lemma overwrite_elsewhere (storage : gmap Z ptr) (h : Heap) (q : ptr) (v : User) :
  (forall id p, storage !! id = Some p -> p <> q) ->
  load (<[q := v]> h) <$> storage = load h <$> storage.
Proof.
  intros Hne. apply map_eq. intros id. rewrite !lookup_fmap.
  destruct (storage !! id) as [p|] eqn:Hp; simpl; [|reflexivity].
  rewrite load_insert_ne; [reflexivity|]. intros <-. exact (Hne _ _ Hp eq_refl).
Qed.

(** X8: the two listings of the demonstration. [dangerousList] allocates
    nothing and returns the stored pointers themselves, so a write through
    one of them is a write to the storage. [safeList] returns as many
    pointers, to new addresses that hold the same records (in an order of
    their own: each loop visits the map as it pleases), and a write through
    one of them leaves every stored record as it was. *)
Theorem dangerousList_shares_safeList_copies (storage : gmap Z ptr) (h : Heap)
  (Ha : forall id p, storage !! id = Some p -> (p < length h)%nat) :
  let '(shared, h1) := demo.dangerousList storage h in
  let '(copies, h2) := demo.safeList storage h in
  h1 = h /\
  (forall p, p ∈ shared <-> exists id, storage !! id = Some p) /\
  (forall p v, p ∈ shared -> exists id, (load (<[p := v]> h1) <$> storage) !! id = Some v) /\
  length copies = length shared /\
  (forall q, q ∈ copies -> forall id, storage !! id <> Some q) /\
  load h2 <$> copies ≡ₚ load h <$> shared /\
  (forall q v, q ∈ copies -> load (<[q := v]> h2) <$> storage = load h <$> storage).
Proof.
  unfold demo.dangerousList, demo.safeList.
  rewrite dangerous_fold. simpl.
  assert (Hall : Forall (fun p => (p < length h)%nat) (map_to_list storage).*2).
  { apply Forall_forall. intros p Hp.
    apply list_elem_of_fmap in Hp as ([id p'] & -> & Hin).
    apply elem_of_map_to_list in Hin. exact (Ha _ _ Hin). }
  pose proof (copies_fold (map_to_list storage) [] h Hall) as Hfold.
  simpl in Hfold.
  match type of Hfold with ?lhs = _ => change (let '(copies, h2) := lhs in
    h = h /\
    (forall p, p ∈ (map_to_list storage).*2 <-> exists id, storage !! id = Some p) /\
    (forall p v, p ∈ (map_to_list storage).*2 ->
       exists id, (load (<[p := v]> h) <$> storage) !! id = Some v) /\
    length copies = length (map_to_list storage).*2 /\
    (forall q, q ∈ copies -> forall id, storage !! id <> Some q) /\
    load h2 <$> copies ≡ₚ load h <$> (map_to_list storage).*2 /\
    (forall q v, q ∈ copies -> load (<[q := v]> h2) <$> storage = load h <$> storage))
  end.
  rewrite Hfold. clear Hfold.
  set (recs := (fun '(_, user) => load h user) <$> map_to_list storage).
  assert (Hlen : length recs = length (map_to_list storage)).
  { unfold recs. apply length_fmap. }
  assert (Hin : forall p, p ∈ (map_to_list storage).*2 <-> exists id, storage !! id = Some p).
  { intros p. split.
    - intros Hp. apply list_elem_of_fmap in Hp as ([id p'] & -> & Hp).
      apply elem_of_map_to_list in Hp. eauto.
    - intros (id & Hp). apply list_elem_of_fmap. exists (id, p).
      split; [reflexivity|]. apply elem_of_map_to_list. assumption. }
  split; [reflexivity|]. split; [exact Hin|]. split; [|split; [|split; [|split]]].
  - intros p v Hp. apply Hin in Hp as (id & Hp). exists id.
    rewrite lookup_fmap, Hp. simpl. f_equal. apply load_insert_eq. eauto.
  - rewrite length_seq, length_fmap. reflexivity.
  - intros q Hq id Hid. apply elem_of_seq in Hq. specialize (Ha _ _ Hid). lia.
  - rewrite <- Hlen, load_seq. unfold recs. rewrite <- list_fmap_compose.
    erewrite list_fmap_ext; [reflexivity|]. intros i [id p] _. reflexivity.
  - intros q v Hq. apply elem_of_seq in Hq.
    rewrite overwrite_elsewhere.
    + apply map_eq. intros id. rewrite !lookup_fmap.
      destruct (storage !! id) as [p|] eqn:Hp; simpl; [|reflexivity].
      rewrite load_app by eauto. reflexivity.
    + intros id p Hp. specialize (Ha _ _ Hp). lia.
Qed.

(** X9: the two updates of the demonstration. For an identifier the
    storage holds, [updateInPlace] allocates nothing, keeps the stored
    pointer and gives the record behind it the new name, its other fields
    staying; without such an identifier it dereferences a nil pointer.
    [updateWithReplace] files a new address under the identifier, with a copy
    of the caller's record, and leaves every record allocated before as it
    was, the one the storage pointed to included. *)
Theorem updateInPlace_keeps_updateWithReplace_allocates
  (user : ptr) (storage : gmap Z ptr) (h : Heap)
  (Hu : (user < length h)%nat)
  (Ha : forall id p, storage !! id = Some p -> (p < length h)%nat) :
  match storage !! ID (load h user) with
  | None => demo.updateInPlace user storage h = None
  | Some existingUser =>
    exists h1, demo.updateInPlace user storage h = Some h1 /\
      length h1 = length h /\
      load h1 existingUser = with_Name (Name (load h user)) (load h existingUser) /\
      forall p, p <> existingUser -> load h1 p = load h p
  end /\
  let '(storage2, h2) := demo.updateWithReplace user storage h in
  storage2 = <[ID (load h user) := length h]> storage /\
  (forall id p, storage !! id = Some p -> p <> length h) /\
  load h2 (length h) = load h user /\
  forall p, (p < length h)%nat -> load h2 p = load h p.
Proof.
  split.
  - unfold demo.updateInPlace.
    destruct (storage !! ID (load h user)) as [existingUser|] eqn:He; [|reflexivity].
    eexists. split; [reflexivity|]. split; [apply length_insert|]. split.
    + apply load_insert_eq. eauto.
    + intros p Hne. apply load_insert_ne. congruence.
  - unfold demo.updateWithReplace, alloc.
    rewrite (load_app h [load h user] user) by assumption.
    split; [reflexivity|]. split; [|split].
    + intros id p Hp. specialize (Ha _ _ Hp). lia.
    + apply load_app_cons.
    + intros p Hp. apply load_app. assumption.
Qed.

(** ** Trimming twice is trimming once *)

(** A rune is decoded from its own bytes: what follows them has no say. *)
Lemma DecodeRune_cut (s0 : Z) (l Y : list Z) (r : rune) (bs : list Z) :
  DecodeRune s0 (l ++ Y) = (r, bs) -> (length bs <= S (length l))%nat ->
  DecodeRune s0 l = (r, bs).
Proof.
  unfold DecodeRune. intros Hd Hlen.
  destruct (first s0) as [| | sz lo hi]; [exact Hd..|].
  destruct l as [|s1 [|s2 [|s3 l]]]; simpl in *;
    repeat match type of Hd with
           | context [match ?x with _ => _ end] => destruct x; simpl in Hd
           end;
    first [exact Hd | injection Hd as <- <-; simpl in Hlen; lia].
Qed.

Lemma segments_fuel_any (fuel1 : nat) : forall (fuel2 : nat) (s : list Z),
  (length s <= fuel1)%nat -> (length s <= fuel2)%nat ->
  segments_fuel fuel1 s = segments_fuel fuel2 s.
Proof.
  induction fuel1 as [|fuel1 IH]; intros fuel2 s H1 H2.
  - destruct s; [|simpl in H1; lia]. destruct fuel2; reflexivity.
  - destruct s as [|s0 rest]; [destruct fuel2; reflexivity|].
    destruct fuel2 as [|fuel2]; [simpl in H2; lia|]. simpl.
    destruct (DecodeRune_prefix s0 rest) as (tail & Hs & Htail).
    destruct (DecodeRune s0 rest) as [r bs]. simpl in *.
    assert (Hdrop : drop (length bs) (s0 :: rest) = tail).
    { rewrite Hs. rewrite drop_app_length. reflexivity. }
    rewrite Hdrop. f_equal. apply IH; lia.
Qed.

Lemma segments_cons (s0 : Z) (rest : list Z) :
  segments (s0 :: rest)
  = DecodeRune s0 rest
    :: segments (drop (length (DecodeRune s0 rest).2) (s0 :: rest)).
Proof.
  unfold segments at 1. simpl.
  destruct (DecodeRune_prefix s0 rest) as (tail & Hs & Htail).
  destruct (DecodeRune s0 rest) as [r bs]. simpl in *. f_equal.
  assert (Hdrop : drop (length bs) (s0 :: rest) = tail).
  { rewrite Hs. rewrite drop_app_length. reflexivity. }
  rewrite Hdrop. apply segments_fuel_any; lia.
Qed.

(** The first segment, and what is left of the input after it. *)
Lemma segments_head (s : list Z) (r : rune) (bs : list Z) (segs : list (rune * list Z)) :
  segments s = (r, bs) :: segs ->
  exists s0 bs0 tail,
    bs = s0 :: bs0 /\ s = s0 :: bs0 ++ tail /\
    DecodeRune s0 (bs0 ++ tail) = (r, bs) /\ segments tail = segs.
Proof.
  destruct s as [|s0 rest]; [discriminate|]. rewrite segments_cons.
  destruct (DecodeRune_prefix s0 rest) as (tail & Hs & Htail).
  destruct (DecodeRune s0 rest) as [r' bs'] eqn:Hd. simpl in *.
  intros [= -> -> Hsegs].
  destruct bs as [|b bs0]; [simpl in Hs; subst tail; simpl in Htail; lia|].
  simpl in Hs. injection Hs as <- ->.
  exists s0, bs0, tail. split; [reflexivity|]. split; [reflexivity|].
  split; [exact Hd|].
  rewrite <- Hsegs. f_equal.
  change (s0 :: bs0 ++ tail) with ((s0 :: bs0) ++ tail).
  rewrite drop_app_length. reflexivity.
Qed.

Lemma segments_suffix (pre : list (rune * list Z)) :
  forall (s : list Z) (suf : list (rune * list Z)),
  segments s = pre ++ suf -> segments (concat suf.*2) = suf.
Proof.
  induction pre as [|[r bs] pre IH]; intros s suf Hs.
  - simpl in Hs. rewrite <- Hs, segments_concat. reflexivity.
  - simpl in Hs. apply segments_head in Hs as (s0 & bs0 & tail & _ & _ & _ & Htail).
    exact (IH tail suf Htail).
Qed.

Lemma segments_prefix (pre : list (rune * list Z)) :
  forall (s : list Z) (suf : list (rune * list Z)),
  segments s = pre ++ suf -> segments (concat pre.*2) = pre.
Proof.
  induction pre as [|[r bs] pre IH]; intros s suf Hs; [reflexivity|].
  simpl in Hs. apply segments_head in Hs as (s0 & bs0 & tail & -> & -> & Hd & Htail).
  pose proof (segments_concat tail) as Hcat.
  rewrite Htail, fmap_app, concat_app in Hcat.
  rewrite <- Hcat, app_assoc in Hd.
  apply DecodeRune_cut in Hd; [|rewrite length_app; simpl; lia].
  change (concat ((r, s0 :: bs0) :: pre).*2) with (s0 :: bs0 ++ concat pre.*2).
  rewrite segments_cons, Hd. cbn [snd]. f_equal.
  change (s0 :: bs0 ++ concat pre.*2) with ((s0 :: bs0) ++ concat pre.*2).
  rewrite drop_app_length. exact (IH tail suf Htail).
Qed.

(** *** Dropping from both ends *)

Lemma drop_while_suffix {A} (p : A -> bool) (l : list A) :
  exists pre, l = pre ++ strings.drop_while p l.
Proof.
  induction l as [|x l [pre IH]]; [exists []; reflexivity|]. simpl.
  destruct (p x); [exists (x :: pre); simpl; congruence | exists []; reflexivity].
Qed.

Lemma drop_end_while_prefix {A} (p : A -> bool) (l : list A) :
  exists suf, l = strings.drop_end_while p l ++ suf.
Proof.
  unfold strings.drop_end_while.
  destruct (drop_while_suffix p (rev l)) as [pre Hpre].
  exists (rev pre). rewrite <- rev_app_distr, <- Hpre, rev_involutive. reflexivity.
Qed.

Lemma drop_while_head {A} (p : A -> bool) (l : list A) :
  match strings.drop_while p l with
  | [] => True
  | x :: _ => p x = false
  end.
Proof.
  induction l as [|x l IH]; [exact I|]. simpl.
  destruct (p x) eqn:Hx; [exact IH | exact Hx].
Qed.

Lemma drop_while_kept {A} (p : A -> bool) (l : list A) :
  match l with [] => True | x :: _ => p x = false end ->
  strings.drop_while p l = l.
Proof. destruct l as [|x l]; [reflexivity|]. simpl. intros ->. reflexivity. Qed.

Lemma drop_end_while_head {A} (p : A -> bool) (l : list A) :
  match l with [] => True | x :: _ => p x = false end ->
  match strings.drop_end_while p l with [] => True | x :: _ => p x = false end.
Proof.
  destruct (drop_end_while_prefix p l) as [suf Hsuf].
  destruct (strings.drop_end_while p l) as [|y k]; [trivial|].
  rewrite Hsuf. simpl. trivial.
Qed.

Lemma drop_end_while_twice {A} (p : A -> bool) (l : list A) :
  strings.drop_end_while p (strings.drop_end_while p l) = strings.drop_end_while p l.
Proof.
  unfold strings.drop_end_while. rewrite rev_involutive.
  rewrite (drop_while_kept p (strings.drop_while p (rev l))); [reflexivity|].
  apply drop_while_head.
Qed.

(** What [TrimSpace] keeps has no white space at either end. *)
Lemma trimmed_twice {A} (p : A -> bool) (l : list A) :
  let mid := strings.drop_end_while p (strings.drop_while p l) in
  strings.drop_end_while p (strings.drop_while p mid) = mid.
Proof.
  intros mid. rewrite (drop_while_kept p mid).
  - apply drop_end_while_twice.
  - apply drop_end_while_head. apply drop_while_head.
Qed.

(** *** Bytes *)

Lemma bytes_range (s : string) : Forall (fun b => 0 <= b < 256) (bytes s).
Proof.
  unfold bytes. apply Forall_fmap, Forall_forall. intros c _. simpl.
  unfold byte_of_ascii. pose proof (N_ascii_bounded c). lia.
Qed.

Lemma bytes_of_bytes (bs : list Z) :
  Forall (fun b => 0 <= b < 256) bs -> bytes (of_bytes bs) = bs.
Proof.
  intros Hall. unfold bytes, of_bytes.
  rewrite list_ascii_of_string_of_list_ascii, <- list_fmap_compose.
  induction Hall as [|b bs Hb _ IH]; [reflexivity|].
  rewrite fmap_cons, IH. f_equal. unfold compose, byte_of_ascii, ascii_of_byte.
  rewrite N_ascii_embedding by lia. lia.
Qed.

(** The segments [TrimSpace] keeps, and their bytes. *)
Lemma kept_segments (s : list Z) (p : rune * list Z -> bool) :
  let mid := strings.drop_end_while p (strings.drop_while p (segments s)) in
  segments (concat mid.*2) = mid /\ exists l k, s = l ++ concat mid.*2 ++ k.
Proof.
  intros mid.
  destruct (drop_while_suffix p (segments s)) as [pre Hpre].
  destruct (drop_end_while_prefix p (strings.drop_while p (segments s))) as [suf Hsuf].
  fold mid in Hsuf.
  pose proof (segments_suffix pre s _ Hpre) as Hmid'.
  rewrite Hsuf in Hmid' at 2.
  split.
  - eapply segments_prefix. exact Hmid'.
  - exists (concat pre.*2), (concat suf.*2).
    rewrite <- (segments_concat s) at 1. rewrite Hpre, Hsuf.
    rewrite !fmap_app, !concat_app. reflexivity.
Qed.

Lemma TrimSpace_bytes (s : string) :
  let sp := fun seg : rune * list Z => unicode.IsSpace seg.1 in
  bytes (strings.TrimSpace s)
  = concat (strings.drop_end_while sp (strings.drop_while sp (segments (bytes s)))).*2.
Proof.
  intros sp. unfold strings.TrimSpace. apply bytes_of_bytes.
  destruct (kept_segments (bytes s) sp) as [_ (l & k & Hs)].
  pose proof (bytes_range s) as Hr. rewrite Hs in Hr.
  apply Forall_app in Hr as [_ Hr]. apply Forall_app in Hr as [Hr _]. exact Hr.
Qed.

Lemma TrimSpace_twice (s : string) :
  strings.TrimSpace (strings.TrimSpace s) = strings.TrimSpace s.
Proof.
  unfold strings.TrimSpace at 1. rewrite TrimSpace_bytes.
  destruct (kept_segments (bytes s) (fun seg => unicode.IsSpace seg.1)) as [-> _].
  rewrite trimmed_twice. reflexivity.
Qed.

(** ** ASCII strings *)

Lemma segments_ascii (bs : list Z) :
  Forall (fun b => b < RuneSelf) bs -> segments bs = (fun b => (b, [b])) <$> bs.
Proof.
  induction 1 as [|b bs Hb _ IH]; [reflexivity|].
  rewrite segments_cons.
  assert (Hd : DecodeRune b bs = (b, [b])).
  { unfold DecodeRune, first. unfold RuneSelf in Hb.
    destruct (Z.ltb_spec b 0x80); [reflexivity | lia]. }
  rewrite Hd. simpl. rewrite drop_0, IH. reflexivity.
Qed.

Lemma ascii_only_spec (s : string) :
  ascii_only s = true <-> Forall (fun b => b < RuneSelf) (bytes s).
Proof.
  unfold ascii_only. rewrite forallb_forall, Forall_forall. split.
  - intros Hall b Hb. apply Z.ltb_lt. apply Hall. apply list_elem_of_In. exact Hb.
  - intros Hall b Hb. apply Z.ltb_lt. apply Hall. apply list_elem_of_In. exact Hb.
Qed.

Lemma drop_while_fmap {A B} (f : A -> B) (p : B -> bool) (l : list A) :
  strings.drop_while p (f <$> l) = f <$> strings.drop_while (fun x => p (f x)) l.
Proof.
  induction l as [|x l IH]; [reflexivity|]. simpl.
  destruct (p (f x)); [exact IH | reflexivity].
Qed.

Lemma rev_fmap {A B} (f : A -> B) (l : list A) : rev (f <$> l) = f <$> rev l.
Proof.
  induction l as [|x l IH]; [reflexivity|].
  rewrite fmap_cons. cbn [rev]. rewrite fmap_app, IH. reflexivity.
Qed.

Lemma drop_end_while_fmap {A B} (f : A -> B) (p : B -> bool) (l : list A) :
  strings.drop_end_while p (f <$> l)
  = f <$> strings.drop_end_while (fun x => p (f x)) l.
Proof.
  unfold strings.drop_end_while.
  rewrite rev_fmap, drop_while_fmap, rev_fmap. reflexivity.
Qed.

Lemma drop_while_pointwise {A} (p q : A -> bool) (l : list A) :
  (forall x, p x = q x) -> strings.drop_while p l = strings.drop_while q l.
Proof.
  intros Hpq. induction l as [|x l IH]; [reflexivity|]. simpl.
  rewrite Hpq, IH. reflexivity.
Qed.

Lemma drop_end_while_pointwise {A} (p q : A -> bool) (l : list A) :
  (forall x, p x = q x) -> strings.drop_end_while p l = strings.drop_end_while q l.
Proof.
  intros Hpq. unfold strings.drop_end_while.
  rewrite (drop_while_pointwise p q) by assumption. reflexivity.
Qed.

Lemma concat_singletons (bs : list Z) :
  concat ((fun b => (b, [b])) <$> bs).*2 = bs.
Proof.
  induction bs as [|b bs IH]; [reflexivity|].
  rewrite !fmap_cons. cbn [concat snd app]. rewrite IH. reflexivity.
Qed.

(** [TrimSpace] on an ASCII string works byte by byte. *)
Lemma TrimSpace_ascii (s : string) :
  ascii_only s = true ->
  bytes (strings.TrimSpace s)
  = strings.drop_end_while unicode.IsSpace (strings.drop_while unicode.IsSpace (bytes s)).
Proof.
  intros Ha. apply ascii_only_spec in Ha.
  rewrite TrimSpace_bytes. cbv zeta. rewrite (segments_ascii _ Ha).
  rewrite drop_while_fmap, drop_end_while_fmap. apply concat_singletons.
Qed.

Lemma Forall_infix {A} (P : A -> Prop) (l m k : list A) :
  Forall P (l ++ m ++ k) -> Forall P m.
Proof.
  intros Hall. apply Forall_app in Hall as [_ Hall].
  apply Forall_app in Hall as [Hall _]. exact Hall.
Qed.

Lemma TrimSpace_ascii_only (s : string) :
  ascii_only s = true -> ascii_only (strings.TrimSpace s) = true.
Proof.
  intros Ha. apply ascii_only_spec. apply ascii_only_spec in Ha.
  rewrite TrimSpace_bytes. cbv zeta.
  destruct (kept_segments (bytes s) (fun seg => unicode.IsSpace seg.1)) as [_ (l & k & Hs)].
  rewrite Hs in Ha. exact (Forall_infix _ _ _ _ Ha).
Qed.

Lemma runes_singletons (bs : list Z) : ((fun b => (b, [b])) <$> bs).*1 = bs.
Proof.
  induction bs as [|b bs IH]; [reflexivity|].
  rewrite !fmap_cons. cbn [fst]. rewrite IH. reflexivity.
Qed.

Lemma concat_fmap_singleton {A B} (g : A -> list B) (f : A -> B) (l : list A) :
  Forall (fun x => g x = [f x]) l -> concat (g <$> l) = f <$> l.
Proof.
  induction 1 as [|x l Hx _ IH]; [reflexivity|].
  rewrite !fmap_cons. cbn [concat]. rewrite Hx, IH. reflexivity.
Qed.

Lemma lower_letter_ascii (b : Z) : 0 <= b < 0x80 -> 0 <= lower_letter b < 0x80.
Proof.
  intros Hb. unfold lower_letter.
  destruct (Z.leb_spec 0x41 b); destruct (Z.leb_spec b 0x5A); simpl; lia.
Qed.

Lemma ToLower_rune_ascii `{CaseTables} (b : Z) :
  0 <= b < 0x80 ->
  (let r' := unicode.ToLower b in if r' <? 0 then [] else EncodeRune r')
  = [lower_letter b].
Proof.
  intros Hb. pose proof (lower_letter_ascii b Hb) as Hl.
  assert (Hlow : unicode.ToLower b = lower_letter b).
  { unfold unicode.ToLower, unicode.MaxASCII, lower_letter.
    destruct (Z.leb_spec b 0x7F); [reflexivity | lia]. }
  cbv zeta. rewrite Hlow.
  destruct (Z.ltb_spec (lower_letter b) 0); [lia|].
  unfold EncodeRune.
  destruct (Z.leb_spec 0 (lower_letter b)); [|lia].
  destruct (Z.leb_spec (lower_letter b) 0x7F); [|lia].
  reflexivity.
Qed.

(** [ToLower] on an ASCII string works byte by byte, whatever the tables. *)
Lemma ToLower_ascii `{CaseTables} (s : string) :
  ascii_only s = true -> bytes (strings.ToLower s) = lower_letter <$> bytes s.
Proof.
  intros Ha. apply ascii_only_spec in Ha.
  pose proof (bytes_range s) as Hr.
  assert (Hb : Forall (fun b => 0 <= b < 0x80) (bytes s)).
  { rewrite Forall_forall in *. intros b Hb. specialize (Ha b Hb).
    specialize (Hr b Hb). unfold RuneSelf in Ha. simpl in Hr. lia. }
  unfold strings.ToLower, decode. rewrite (segments_ascii _ Ha), runes_singletons.
  rewrite (concat_fmap_singleton _ lower_letter).
  - apply bytes_of_bytes. apply Forall_fmap. eapply Forall_impl; [exact Hb|].
    intros b Hb'. simpl. pose proof (lower_letter_ascii b Hb'). lia.
  - eapply Forall_impl; [exact Hb|]. intros b Hb'. apply ToLower_rune_ascii. exact Hb'.
Qed.

Lemma bytes_inj (s t : string) : bytes s = bytes t -> s = t.
Proof. intros Hb. rewrite <- (of_bytes_bytes s), <- (of_bytes_bytes t), Hb. reflexivity. Qed.

Lemma len_bytes (s : string) : strings.len s = Z.of_nat (length (bytes s)).
Proof.
  unfold strings.len, bytes. rewrite length_fmap. f_equal.
  induction s as [|c s IH]; [reflexivity|]. simpl. rewrite IH. reflexivity.
Qed.

Lemma IsSpace_lower (b : Z) : unicode.IsSpace (lower_letter b) = unicode.IsSpace b.
Proof.
  unfold lower_letter.
  destruct (Z.leb_spec 0x41 b); destruct (Z.leb_spec b 0x5A); simpl; try reflexivity.
  unfold unicode.IsSpace.
  repeat match goal with
         | |- context [?x <=? ?y] => destruct (Z.leb_spec x y); try lia
         | |- context [?x =? ?y] => destruct (Z.eqb_spec x y); try lia
         end; reflexivity.
Qed.

Lemma has_at_lower (bs : list Z) :
  existsb (Z.eqb 0x40) (lower_letter <$> bs) = existsb (Z.eqb 0x40) bs.
Proof.
  induction bs as [|b bs IH]; [reflexivity|].
  rewrite fmap_cons. cbn [existsb]. rewrite IH. f_equal.
  unfold lower_letter.
  destruct (Z.leb_spec 0x41 b); destruct (Z.leb_spec b 0x5A); cbn [andb]; try reflexivity.
  destruct (Z.eqb_spec 0x40 (b + 0x20)); destruct (Z.eqb_spec 0x40 b); try lia; reflexivity.
Qed.

(** A trimmed ASCII string is still trimmed once it is in lower case. *)
Lemma TrimSpace_ToLower_ascii `{CaseTables} (s : string) :
  ascii_only s = true ->
  strings.TrimSpace (strings.ToLower (strings.TrimSpace s))
  = strings.ToLower (strings.TrimSpace s).
Proof.
  intros Ha. pose proof (TrimSpace_ascii_only s Ha) as Ht.
  assert (Hl : ascii_only (strings.ToLower (strings.TrimSpace s)) = true).
  { apply ascii_only_spec. rewrite (ToLower_ascii _ Ht).
    apply Forall_fmap. pose proof (bytes_range (strings.TrimSpace s)) as Hr.
    apply ascii_only_spec in Ht. rewrite Forall_forall in *. intros b Hb.
    specialize (Ht b Hb). specialize (Hr b Hb). unfold RuneSelf in *. simpl in Hr |- *.
    pose proof (lower_letter_ascii b ltac:(lia)). lia. }
  apply bytes_inj. rewrite (TrimSpace_ascii _ Hl), (ToLower_ascii _ Ht).
  rewrite drop_while_fmap, drop_end_while_fmap.
  rewrite (drop_while_pointwise _ unicode.IsSpace) by apply IsSpace_lower.
  rewrite (drop_end_while_pointwise _ unicode.IsSpace) by apply IsSpace_lower.
  f_equal. rewrite (TrimSpace_ascii _ Ha). apply trimmed_twice.
Qed.

(** The email [NewUser] and [UpdateUserProfile] store passes the validation
    again when the email given is in ASCII. *)
Lemma stored_email_valid `{CaseTables} (email : string) :
  ascii_only email = true -> validateEmail email = None ->
  validateEmail (strings.ToLower (strings.TrimSpace email)) = None.
Proof.
  intros Ha Hv. pose proof (TrimSpace_ascii_only email Ha) as Ht.
  apply validateEmail_ok in Hv. apply validateEmail_ok.
  unfold email_ok in *. rewrite (TrimSpace_ToLower_ascii _ Ha).
  set (t := strings.TrimSpace email) in *.
  assert (Hlen : strings.len (strings.ToLower t) = strings.len t).
  { rewrite !len_bytes, (ToLower_ascii _ Ht), length_fmap. reflexivity. }
  assert (Hat : has_at (strings.ToLower t) = has_at t).
  { unfold has_at. rewrite (ToLower_ascii _ Ht). apply has_at_lower. }
  assert (Hne : String.eqb (strings.ToLower t) "" = String.eqb t "").
  { destruct (String.eqb_spec t "") as [Ht0 | Ht0].
    - rewrite Ht0. apply String.eqb_eq. apply bytes_inj.
      rewrite ToLower_ascii by reflexivity. reflexivity.
    - apply String.eqb_neq. intros Hl0. apply Ht0. apply len_empty.
      rewrite <- Hlen, Hl0. reflexivity. }
  rewrite Hlen, Hat, Hne. exact Hv.
Qed.

Section EntityMore.
Context `{CaseTables}.

Lemma validateEmail_trimmed (email : string) :
  validateEmail (strings.TrimSpace email) = validateEmail email.
Proof. unfold validateEmail. rewrite TrimSpace_twice. reflexivity. Qed.

Lemma validateName_trimmed (name : string) :
  validateName (strings.TrimSpace name) = validateName name.
Proof. unfold validateName. rewrite TrimSpace_twice. reflexivity. Qed.

(** X10: the white space around an email or a name counts for nothing. The
    validators, [NewUser] and [UpdateUserProfile] give the same result for a
    value and for the value trimmed; and the name and the password of the
    user [NewUser] returns pass their validators again. *)
Theorem outer_white_space_is_ignored (now : Time) (u : User)
    (email name password : string) :
  validateEmail (strings.TrimSpace email) = validateEmail email /\
  validateName (strings.TrimSpace name) = validateName name /\
  NewUser now (strings.TrimSpace email) (strings.TrimSpace name) password
  = NewUser now email name password /\
  UpdateUserProfile now u (strings.TrimSpace name) (strings.TrimSpace email)
  = UpdateUserProfile now u name email /\
  (forall v, NewUser now email name password = inr v ->
             validateName (Name v) = None /\ validatePassword (Password v) = None).
Proof.
  split; [apply validateEmail_trimmed|]. split; [apply validateName_trimmed|].
  split; [|split].
  - unfold NewUser. rewrite validateEmail_trimmed, validateName_trimmed, !TrimSpace_twice.
    reflexivity.
  - unfold UpdateUserProfile.
    rewrite validateEmail_trimmed, validateName_trimmed, !TrimSpace_twice. reflexivity.
  - intros v Hv. unfold NewUser in Hv.
    destruct (validateEmail email); [discriminate|].
    destruct (validateName name) eqn:Hn; [discriminate|].
    destruct (validatePassword password) eqn:Hp; [discriminate|].
    injection Hv as <-. simpl. rewrite validateName_trimmed. auto.
Qed.

Lemma UpdateUserProfile_passes (now : Time) (u : User) (name email : string) :
  (UpdateUserProfile now u name email).2 = None
  <-> validateName name = None /\ validateEmail email = None.
Proof.
  unfold UpdateUserProfile.
  destruct (validateName name); [simpl; split; [discriminate | intros [? _]; discriminate]|].
  destruct (validateEmail email); simpl; split; auto; try discriminate.
  intros [_ ?]; discriminate.
Qed.

Lemma ChangePassword_passes (now : Time) (u : User) (password : string) :
  (ChangePassword now u password).2 = None <-> validatePassword password = None.
Proof.
  unfold ChangePassword. destruct (validatePassword password); simpl; split; auto; discriminate.
Qed.

Lemma NewUser_passes (now : Time) (email name password : string) :
  (exists v, NewUser now email name password = inr v)
  <-> validateEmail email = None /\ validateName name = None /\
      validatePassword password = None.
Proof.
  unfold NewUser.
  destruct (validateEmail email);
    [split; [intros (v & ?); discriminate | intros (? & _); discriminate]|].
  destruct (validateName name);
    [split; [intros (v & ?); discriminate | intros (_ & ? & _); discriminate]|].
  destruct (validatePassword password);
    [split; [intros (v & ?); discriminate | intros (_ & _ & ?); discriminate]|].
  split; eauto.
Qed.

(** X11: the mutators accept what the constructor accepts.
    [UpdateUserProfile] succeeds exactly for a name and an email that pass
    the conditions of [NewUser], and [ChangePassword] exactly for a password
    that does; so [NewUser] accepts three values exactly when the two
    mutators, on any user, accept them. A successful [UpdateUserProfile]
    changes the name, the email and the date of update and nothing else; a
    successful [ChangePassword] the password, stored as given, and the date
    of update. *)
Theorem mutators_accept_what_NewUser_accepts (now : Time) (u : User)
    (email name password : string) :
  ((UpdateUserProfile now u name email).2 = None
   <-> name_ok name && email_ok email = true) /\
  ((ChangePassword now u password).2 = None <-> password_ok password = true) /\
  ((exists v, NewUser now email name password = inr v)
   <-> (UpdateUserProfile now u name email).2 = None /\
       (ChangePassword now u password).2 = None) /\
  ((UpdateUserProfile now u name email).2 = None ->
   (UpdateUserProfile now u name email).1
   = {| ID := ID u; Email := strings.ToLower (strings.TrimSpace email);
        Name := strings.TrimSpace name; Password := Password u;
        Created := Created u; Updated := now |}) /\
  ((ChangePassword now u password).2 = None ->
   (ChangePassword now u password).1
   = {| ID := ID u; Email := Email u; Name := Name u; Password := password;
        Created := Created u; Updated := now |}).
Proof.
  pose proof (validateEmail_ok email) as He.
  pose proof (validateName_ok name) as Hn.
  pose proof (validatePassword_ok password) as Hp.
  pose proof (UpdateUserProfile_passes now u name email) as Hup.
  pose proof (ChangePassword_passes now u password) as Hcp.
  pose proof (NewUser_passes now email name password) as Hnew.
  split; [rewrite andb_true_iff; tauto|]. split; [tauto|]. split; [tauto|]. split.
  - intros Hok. apply Hup in Hok as [Hn' He']. unfold UpdateUserProfile.
    rewrite Hn', He'. reflexivity.
  - intros Hok. apply Hcp in Hok. unfold ChangePassword. rewrite Hok. reflexivity.
Qed.

Lemma isValidUser_spec (u : User) :
  isValidUser u = true <->
  validateEmail (Email u) = None /\ validateName (Name u) = None /\
  validatePassword (Password u) = None.
Proof.
  unfold isValidUser. rewrite !andb_true_iff, !bool_decide_eq_true. tauto.
Qed.

(** X12: a valid user stays valid. For an email in ASCII, the user
    [NewUser] returns satisfies [isValidUser], and so does a valid user
    after [UpdateUserProfile], whether the call succeeds or fails; a valid
    user is still valid after [ChangePassword]. *)
Theorem valid_users_stay_valid (now : Time) (email : string)
    (Hascii : ascii_only email = true) :
  (forall name password u,
      NewUser now email name password = inr u -> isValidUser u = true) /\
  (forall u name,
      isValidUser u = true ->
      isValidUser (UpdateUserProfile now u name email).1 = true) /\
  (forall u newPassword,
      isValidUser u = true ->
      isValidUser (ChangePassword now u newPassword).1 = true).
Proof.
  split; [|split].
  - intros name password u Hu. unfold NewUser in Hu.
    destruct (validateEmail email) eqn:He; [discriminate|].
    destruct (validateName name) eqn:Hn; [discriminate|].
    destruct (validatePassword password) eqn:Hp; [discriminate|].
    injection Hu as <-. apply isValidUser_spec. simpl.
    split; [apply stored_email_valid; assumption|].
    split; [rewrite validateName_trimmed|]; assumption.
  - intros u name Hu. unfold UpdateUserProfile.
    destruct (validateName name) eqn:Hn; [exact Hu|].
    destruct (validateEmail email) eqn:He; [exact Hu|].
    apply isValidUser_spec in Hu as (_ & _ & Hp).
    apply isValidUser_spec. simpl.
    split; [apply stored_email_valid; assumption|].
    split; [rewrite validateName_trimmed|]; assumption.
  - intros u newPassword Hu. unfold ChangePassword.
    destruct (validatePassword newPassword) eqn:Hp; [exact Hu|].
    apply isValidUser_spec in Hu as (He & Hn & _).
    apply isValidUser_spec. simpl. auto.
Qed.

End EntityMore.

(** ** The use cases and their services *)

Section Discipline.
Context `{CaseTables} {S : Type} (R : UserRepository S).

(** X13: what [Create] asks of its repository. It first asks whether the
    email of the request is taken, and asks nothing more unless the answer is
    no, the entity accepts the request and the hasher returns a digest; then
    it calls [Create] once, with the record [NewUser] built and the digest in
    the place of the password, and the result is a response exactly when that
    call returns a record. No other method is called, and the password of the
    request is never handed to the repository. *)
Theorem Create_asks_then_stores (hasher : PasswordHasher) (sender : EmailSender)
    (now : Time) (req : CreateUserRequest.t) (w : World (S * list Call)) :
  let uc := {| CreateUserUseCase.userRepo := recording R;
               CreateUserUseCase.passwordHash := hasher;
               CreateUserUseCase.emailSender := sender |} in
  let '(r, w') := CreateUserUseCase.Execute uc now req w in
  let asked := isEmailTaken R (CreateUserRequest.Email req) (store w).1 in
  ((exists err, r = inl err) /\
   store w' = (asked.2, (store w).2 ++ [CallIsEmailTaken (CreateUserRequest.Email req)]) /\
   (asked.1 <> inr false \/
    (exists err, NewUser now (CreateUserRequest.Email req) (CreateUserRequest.Name req)
                         (CreateUserRequest.Password req) = inl err) \/
    exists user err,
      NewUser now (CreateUserRequest.Email req) (CreateUserRequest.Name req)
              (CreateUserRequest.Password req) = inr user /\
      Hash hasher (Password user) = inl err))
  \/
  exists user digest,
    asked.1 = inr false /\
    NewUser now (CreateUserRequest.Email req) (CreateUserRequest.Name req)
            (CreateUserRequest.Password req) = inr user /\
    Hash hasher (Password user) = inr digest /\
    let stored := Create R (with_password digest user) asked.2 in
    store w' = (stored.2, (store w).2 ++ [CallIsEmailTaken (CreateUserRequest.Email req);
                                         CallCreate (with_password digest user)]) /\
    ((exists resp, r = inr resp) <-> exists createdUser, stored.1 = inr createdUser).
Proof.
  intros uc. subst uc.
  unfold CreateUserUseCase.Execute, bind, call, Info, Error, ret, go. step.
  destruct (isEmailTaken R (CreateUserRequest.Email req) (store w).1)
    as [[err | [|]] s1] eqn:Hask; step.
  - left. split; [eauto|]. split; [reflexivity|]. left. discriminate.
  - left. split; [eauto|]. split; [reflexivity|]. left. discriminate.
  - destruct (NewUser now _ _ _) as [err | user] eqn:Hnew; step.
    { left. split; [eauto|]. split; [reflexivity|]. right. left. eauto. }
    destruct (Hash hasher (Password user)) as [err | digest] eqn:Hhash; step.
    { left. split; [eauto|]. split; [reflexivity|]. right. right. eauto. }
    unfold with_password.
    destruct (Create R _ s1) as [[err | createdUser] s2] eqn:Hc; step;
      right; exists user, digest;
      (split; [reflexivity|]); (split; [first [reflexivity | assumption]|]);
      (split; [assumption|]);
      unfold with_password; rewrite Hc; rewrite <- app_assoc; (split; [reflexivity|]).
    + split; intros (x & Hx); discriminate.
    + split; eauto.
Qed.

(** X14: what [Delete] asks of its repository. It fetches the user, and
    calls [DeleteById] exactly when the user was found; it reports success
    exactly when both calls succeed, and makes no other call. *)
Theorem Delete_fetches_then_deletes (id : Z) (w : World (S * list Call)) :
  let uc := {| DeleteUserUseCase.userRepo := recording R |} in
  let '(r, w') := DeleteUserUseCase.Execute uc id w in
  let fetched := GetById R id (store w).1 in
  match fetched.1 with
  | inl _ =>
    r = Some "utilisateur non trouvé"%string /\
    store w' = (fetched.2, (store w).2 ++ [CallGetById id])
  | inr _ =>
    let deleted := DeleteById R id fetched.2 in
    store w' = (deleted.2, (store w).2 ++ [CallGetById id; CallDeleteById id]) /\
    match deleted.1 with
    | Some _ => r = Some "erreur lors de la suppression"%string
    | None => r = None
    end
  end.
Proof.
  intros uc. subst uc.
  unfold DeleteUserUseCase.Execute, bind, call, Info, Error, ret. step.
  destruct (GetById R id (store w).1) as [[err | user] s1] eqn:Hget; step.
  - split; reflexivity.
  - destruct (DeleteById R id s1) as [[err|] s2] eqn:Hdel; step;
      rewrite <- app_assoc; split; reflexivity.
Qed.

(** What [save] hands to the repository. *)
Lemma save_calls (now : Time) (req : UpdateUserRequest.t) (user : User)
    (w : World (S * list Call)) :
  let uc := {| UpdateUserUseCase.userRepo := recording R |} in
  let '(r, w') := UpdateUserUseCase.save uc now req user w in
  let sent := {| ID := ID user;
                 Email := strings.ToLower (strings.TrimSpace (UpdateUserRequest.Email req));
                 Name := strings.TrimSpace (UpdateUserRequest.Name req);
                 Password := Password user; Created := Created user;
                 Updated := now |} in
  ((exists err, r = inl err) /\ store w' = store w) \/
  (store w' = ((Update R sent (store w).1).2, (store w).2 ++ [CallUpdate sent]) /\
   forall resp, r = inr resp ->
     resp = {| UpdateUserResponse.ID := ID sent;
               UpdateUserResponse.Email := Email sent;
               UpdateUserResponse.Name := Name sent;
               UpdateUserResponse.Updated := now |}).
Proof.
  intros uc. subst uc. unfold UpdateUserUseCase.save, UpdateUserProfile.
  destruct (validateName _) as [err|]; [step; left; eauto|].
  destruct (validateEmail _) as [err|]; [step; left; eauto|].
  unfold bind, call, Info, Error, ret. step.
  destruct (Update R _ (store w).1) as [[err | u'] s1] eqn:Hu; step; right.
  - split; [reflexivity|]. discriminate.
  - split; [reflexivity|]. intros resp [= <-]. reflexivity.
Qed.

(** X15: what [Update] asks of its repository. It fetches the user of the
    request first. Whatever it then hands to [Update] is the fetched record
    with the trimmed name and the trimmed, lowercased email of the request
    and the time of the call as date of update: the identifier, the
    credential and the date of creation are those of the fetched record. The
    other calls it makes are the fetch and the email check; and a response
    repeats the record it handed over, not what the repository returned. *)
Theorem Update_hands_over_the_fetched_record (now : Time) (req : UpdateUserRequest.t)
    (w : World (S * list Call)) :
  let uc := {| UpdateUserUseCase.userRepo := recording R |} in
  let '(r, w') := UpdateUserUseCase.Execute uc now req w in
  let fetched := GetById R (UpdateUserRequest.ID req) (store w).1 in
  exists rest,
    (store w').2 = (store w).2 ++ CallGetById (UpdateUserRequest.ID req) :: rest /\
    match fetched.1 with
    | inl _ => rest = [] /\ r = inl "utilisateur non trouvé"%string
    | inr user =>
      let sent := {| ID := ID user;
                     Email := strings.ToLower (strings.TrimSpace (UpdateUserRequest.Email req));
                     Name := strings.TrimSpace (UpdateUserRequest.Name req);
                     Password := Password user; Created := Created user;
                     Updated := now |} in
      (forall c, c ∈ rest ->
         c = CallIsEmailTaken (UpdateUserRequest.Email req) \/ c = CallUpdate sent) /\
      (CallIsEmailTaken (UpdateUserRequest.Email req) ∈ rest <->
       Email user <> UpdateUserRequest.Email req) /\
      forall resp, r = inr resp ->
        CallUpdate sent ∈ rest /\
        resp = {| UpdateUserResponse.ID := ID user;
                  UpdateUserResponse.Email := Email sent;
                  UpdateUserResponse.Name := Name sent;
                  UpdateUserResponse.Updated := now |}
    end.
Proof.
  intros uc.
  destruct (GetById R (UpdateUserRequest.ID req) (store w).1) as [[err | user] s1] eqn:Hget.
  { subst uc. unfold UpdateUserUseCase.Execute, bind, call, Info, Error, ret. step.
    rewrite Hget. step. exists []. split; [reflexivity|]. split; reflexivity. }
  pose proof (Update_email_check R now req w user s1 Hget) as [Hsame Hdiff].
  cbv zeta in Hsame, Hdiff. fold uc in Hsame, Hdiff.
  destruct (decide (Email user = UpdateUserRequest.Email req)) as [Heq | Hne].
  - rewrite (Hsame Heq).
    match goal with |- context [UpdateUserUseCase.save uc now req user ?w0] =>
      pose proof (save_calls now req user w0) as Hsave; cbv zeta in Hsave; fold uc in Hsave;
      destruct (UpdateUserUseCase.save uc now req user w0) as [r w'] end.
    cbn [fst snd store] in Hsave |- *.
    destruct Hsave as [[(err & ->) ->] | [-> Hresp]]; cbn [fst snd store].
    + exists []. split; [reflexivity|]. split; [intros c Hc; inversion Hc|].
      split; [|discriminate]. split; [intros Hc; inversion Hc | contradiction].
    + exists [CallUpdate {| ID := ID user;
                Email := strings.ToLower (strings.TrimSpace (UpdateUserRequest.Email req));
                Name := strings.TrimSpace (UpdateUserRequest.Name req);
                Password := Password user; Created := Created user; Updated := now |}].
      split; [rewrite <- app_assoc; reflexivity|].
      split; [intros c Hc; apply list_elem_of_singleton in Hc; auto|].
      split.
      * split; [|contradiction]. intros Hc. apply list_elem_of_singleton in Hc. discriminate.
      * intros resp Hr. split; [apply list_elem_of_singleton; reflexivity|].
        apply Hresp. assumption.
  - specialize (Hdiff Hne).
    destruct (isEmailTaken R (UpdateUserRequest.Email req) s1) as [[err | [|]] s2] eqn:Hask.
    + subst uc. unfold UpdateUserUseCase.Execute, bind, call, Info, Error, ret. step.
      rewrite Hget. step. apply String.eqb_neq in Hne as Hneb. rewrite Hneb. step.
      rewrite Hask. step.
      exists [CallIsEmailTaken (UpdateUserRequest.Email req)].
      split; [rewrite <- app_assoc; reflexivity|].
      split; [intros c Hc; apply list_elem_of_singleton in Hc; auto|].
      split; [|discriminate].
      split; [auto | intros _; apply list_elem_of_singleton; reflexivity].
    + destruct (Hdiff s2) as [Htaken _]. rewrite (Htaken eq_refl). cbn [fst snd store].
      exists [CallIsEmailTaken (UpdateUserRequest.Email req)].
      split; [reflexivity|].
      split; [intros c Hc; apply list_elem_of_singleton in Hc; auto|].
      split; [|discriminate].
      split; [auto | intros _; apply list_elem_of_singleton; reflexivity].
    + destruct (Hdiff s2) as [_ Hfree]. rewrite (Hfree eq_refl).
      match goal with |- context [UpdateUserUseCase.save uc now req user ?w0] =>
        pose proof (save_calls now req user w0) as Hsave; cbv zeta in Hsave; fold uc in Hsave;
        destruct (UpdateUserUseCase.save uc now req user w0) as [r w'] end.
      cbn [fst snd store] in Hsave |- *.
      destruct Hsave as [[(err & ->) ->] | [-> Hresp]]; cbn [fst snd store].
      * exists [CallIsEmailTaken (UpdateUserRequest.Email req)].
        split; [reflexivity|].
        split; [intros c Hc; apply list_elem_of_singleton in Hc; auto|].
        split; [|discriminate].
        split; [auto | intros _; apply list_elem_of_singleton; reflexivity].
      * eexists [CallIsEmailTaken (UpdateUserRequest.Email req); CallUpdate _].
        split; [rewrite <- app_assoc; reflexivity|].
        split.
        { intros c Hc. apply elem_of_cons in Hc as [-> | Hc]; [auto|].
          apply list_elem_of_singleton in Hc. auto. }
        split; [split; [auto | intros _; apply elem_of_cons; auto]|].
        intros resp Hr. split; [|apply Hresp; assumption].
        apply elem_of_cons. right. apply list_elem_of_singleton. reflexivity.
Qed.

End Discipline.

Lemma free_index m h email :
  sound m h ->
  (forall id u, contents m h !! id = Some u -> Email u <> email) ->
  emails m !! email = None.
Proof.
  intros (_ & _ & _ & _ & Hx) Hfree.
  destruct (emails m !! email) as [p|] eqn:He; [|reflexivity].
  destruct (Hx _ _ He) as (Hem & id & Hid).
  exfalso. apply (Hfree id (load h p)); [|assumption].
  apply contents_lookup. eauto.
Qed.

(** [Create] of the interface on the mock, for a record whose email no
    stored user has. *)
Lemma mockstore_Create_adds (u : User) (s : mockstore.State) :
  sound s.1 s.2 -> goint.fits (nextID s.1 + 1) ->
  (forall id v, contents s.1 s.2 !! id = Some v -> Email v <> Email u) ->
  let '(r, s') := mockstore.Create u s in
  r = inr (with_ID (nextID s.1) u) /\
  sound s'.1 s'.2 /\
  contents s'.1 s'.2 = <[nextID s.1 := with_ID (nextID s.1) u]> (contents s.1 s.2).
Proof.
  destruct s as [m h]. cbn [fst snd]. intros Hs Hfit Hfree.
  unfold mockstore.Create, alloc. cbn [fst snd].
  assert (Hs' : sound m (h ++ [u])) by (apply sound_app; assumption).
  assert (Hu : (length h < length (h ++ [u]))%nat) by (rewrite length_app; simpl; lia).
  assert (Hl : load (h ++ [u]) (length h) = u) by apply load_app_cons.
  assert (Hf : foreign (length h) m).
  { intros id p Hp. pose proof (sound_allocated _ _ _ _ Hs Hp). lia. }
  assert (He : emails m !! Email (load (h ++ [u]) (length h)) = None).
  { rewrite Hl. apply (free_index m h); assumption. }
  pose proof (Create_adds (length h) m (h ++ [u]) Hs' Hu Hf Hfit He) as Hadd.
  pose proof (Create_sound (length h) m (h ++ [u])) as Hsound.
  destruct (mocks.Create (length h) m (h ++ [u])) as [[r m'] h'].
  destruct Hadd as (-> & _ & Hc & _ & Hcaller & Hret). cbn [fst snd].
  rewrite Hret, Hcaller, Hl. split; [reflexivity|].
  split; [eapply Hsound; eauto|].
  rewrite Hc, Hl. f_equal. apply contents_app. apply Hs.
Qed.

Lemma mockstore_GetById_found (id : Z) (s : mockstore.State) (u : User) :
  allocated s.1 s.2 -> contents s.1 s.2 !! id = Some u ->
  (mockstore.GetById id s).1 = inr u.
Proof.
  destruct s as [m h]. cbn [fst snd]. intros Ha Hu.
  apply contents_lookup in Hu as (p & Hp & ->).
  unfold mockstore.GetById. cbn [fst snd]. rewrite (GetByID_found _ _ _ _ Hp).
  cbn [fst snd]. rewrite load_app_cons. reflexivity.
Qed.

(** X16: a user created is a user found. On a mock whose maps are in step,
    with room in the counter, for a request the email check lets through,
    the entity accepts and the hasher digests, and whose normalized email no
    stored user has: [Create] answers with the value of the counter as
    identifier and the normalized email and name; the mock stays in step and
    holds one more record, with the digest as credential; and [ExecuteByID]
    of that identifier then answers with the same identifier, email and name,
    and the time of the creation as both dates. *)
Theorem Create_then_Get_on_the_mock `{CaseTables}
    (check : string -> mockstore.State -> (error + bool) * mockstore.State)
    (hasher : PasswordHasher) (sender : EmailSender) (now : Time)
    (req : CreateUserRequest.t) (w : World mockstore.State)
    (user : User) (digest : string)
    (Hs : sound (store w).1 (store w).2)
    (Hfit : goint.fits (nextID (store w).1 + 1))
    (Hcheck : check (CreateUserRequest.Email req) (store w) = (inr false, store w))
    (Hnew : NewUser now (CreateUserRequest.Email req) (CreateUserRequest.Name req)
                    (CreateUserRequest.Password req) = inr user)
    (Hhash : Hash hasher (Password user) = inr digest)
    (Hfree : forall id u, contents (store w).1 (store w).2 !! id = Some u ->
                          Email u <> Email user) :
  let repo := mockstore.repository_checking check in
  let id := nextID (store w).1 in
  let '(r, w1) := CreateUserUseCase.Execute
                    {| CreateUserUseCase.userRepo := repo;
                       CreateUserUseCase.passwordHash := hasher;
                       CreateUserUseCase.emailSender := sender |} now req w in
  r = inr {| CreateUserResponse.ID := id;
             CreateUserResponse.Email := Email user;
             CreateUserResponse.Name := Name user;
             CreateUserResponse.Created := now |} /\
  sound (store w1).1 (store w1).2 /\
  contents (store w1).1 (store w1).2
  = <[id := with_ID id (with_password digest user)]> (contents (store w).1 (store w).2) /\
  (GetUserUseCase.ExecuteByID {| GetUserUseCase.userRepo := repo |} id w1).1
  = inr {| GetUserResponse.ID := id;
           GetUserResponse.Email := Email user;
           GetUserResponse.Name := Name user;
           GetUserResponse.Created := now;
           GetUserResponse.Updated := now |}.
Proof.
  intros repo id. subst repo.
  pose proof (NewUser_inr _ _ _ _ _ Hnew) as Hu.
  pose proof (mockstore_Create_adds (with_password digest user) (store w) Hs Hfit Hfree) as Hadd.
  unfold CreateUserUseCase.Execute, bind, call, Info, Error, ret, go. simpl.
  rewrite Hcheck. simpl. rewrite Hnew. simpl. rewrite Hhash. simpl.
  fold (with_password digest user).
  destruct (mockstore.Create (with_password digest user) (store w)) as [r s'].
  destruct Hadd as (-> & Hs' & Hc). fold id in Hc |- *. simpl.
  assert (Hnow : Created user = now /\ Updated user = now) by (rewrite Hu; split; reflexivity).
  destruct Hnow as [Hcr Hup].
  split; [rewrite Hcr; reflexivity|]. split; [exact Hs'|]. split; [exact Hc|].
  unfold GetUserUseCase.ExecuteByID, bind, call, Error, ret. simpl.
  pose proof (mockstore_GetById_found id s' (with_ID id (with_password digest user))
                ltac:(apply Hs') ltac:(rewrite Hc; apply lookup_insert_eq)) as Hget.
  destruct (mockstore.GetById id s') as [r s2]. simpl in Hget. subst r. simpl.
  rewrite Hcr, Hup. reflexivity.
Qed.

Section Wording.
Context `{CaseTables} {S : Type} (R : UserRepository S).

Ltac reworded :=
  unfold same_but_log, bind, call, Info, Error, ret, go; simpl; unfold reword; simpl.

(** [save] answers the same whatever the words of the repository's errors. *)
Lemma save_reworded (f : error -> error) (now : Time) (req : UpdateUserRequest.t)
    (user : User) (w w' : World S) :
  store w = store w' -> goroutines w = goroutines w' ->
  same_but_log
    (UpdateUserUseCase.save {| UpdateUserUseCase.userRepo := rewording f R |} now req user w)
    (UpdateUserUseCase.save {| UpdateUserUseCase.userRepo := R |} now req user w').
Proof.
  intros Hst Hgo. unfold UpdateUserUseCase.save.
  destruct (UpdateUserProfile now user _ _) as [u [err|]]; reworded.
  - auto.
  - rewrite Hst. destruct (Update R u (store w')) as [[err | u'] s1]; simpl; auto.
Qed.

(** X17: the words of an error of the repository or of the hasher do not
    reach the caller. With every such error replaced by any other, each use
    case returns the same result, error or response, and leaves the same
    repository and the same goroutines: the errors of these two services are
    logged, and answered with a message of the use case's own. *)
Theorem errors_of_the_services_stay_inside (f : error -> error) :
  (forall hasher sender now req (w : World S),
      same_but_log
        (CreateUserUseCase.Execute
           {| CreateUserUseCase.userRepo := rewording f R;
              CreateUserUseCase.passwordHash := rewording_hasher f hasher;
              CreateUserUseCase.emailSender := sender |} now req w)
        (CreateUserUseCase.Execute
           {| CreateUserUseCase.userRepo := R;
              CreateUserUseCase.passwordHash := hasher;
              CreateUserUseCase.emailSender := sender |} now req w)) /\
  (forall id (w : World S),
      same_but_log
        (GetUserUseCase.ExecuteByID {| GetUserUseCase.userRepo := rewording f R |} id w)
        (GetUserUseCase.ExecuteByID {| GetUserUseCase.userRepo := R |} id w)) /\
  (forall email (w : World S),
      same_but_log
        (GetUserUseCase.ExecuteByEmail {| GetUserUseCase.userRepo := rewording f R |} email w)
        (GetUserUseCase.ExecuteByEmail {| GetUserUseCase.userRepo := R |} email w)) /\
  (forall now req (w : World S),
      same_but_log
        (UpdateUserUseCase.Execute {| UpdateUserUseCase.userRepo := rewording f R |} now req w)
        (UpdateUserUseCase.Execute {| UpdateUserUseCase.userRepo := R |} now req w)) /\
  (forall id (w : World S),
      same_but_log
        (DeleteUserUseCase.Execute {| DeleteUserUseCase.userRepo := rewording f R |} id w)
        (DeleteUserUseCase.Execute {| DeleteUserUseCase.userRepo := R |} id w)) /\
  (forall req (w : World S),
      same_but_log
        (ListUsersUseCase.Execute {| ListUsersUseCase.userRepo := rewording f R |} req w)
        (ListUsersUseCase.Execute {| ListUsersUseCase.userRepo := R |} req w)).
Proof.
  split; [|split; [|split; [|split; [|split]]]].
  - intros hasher sender now req w. unfold CreateUserUseCase.Execute. reworded.
    destruct (isEmailTaken R _ (store w)) as [[err | [|]] s1]; simpl; auto.
    destruct (NewUser now _ _ _) as [err | user]; simpl; auto.
    destruct (Hash hasher (Password user)) as [err | digest]; simpl; auto.
    destruct (Create R _ s1) as [[err | createdUser] s2]; simpl; auto.
  - intros id w. unfold GetUserUseCase.ExecuteByID. reworded.
    destruct (GetById R id (store w)) as [[err | user] s1]; simpl; auto.
  - intros email w. unfold GetUserUseCase.ExecuteByEmail. reworded.
    destruct (GetByEmail R email (store w)) as [[err | user] s1]; simpl; auto.
  - intros now req w.
    unfold UpdateUserUseCase.Execute, bind, call, Info, Error, ret.
    cbn -[UpdateUserUseCase.save same_but_log]. unfold reword.
    destruct (GetById R _ (store w)) as [[err | user] s1];
      cbn -[UpdateUserUseCase.save same_but_log].
    { repeat split. }
    destruct (negb (String.eqb (Email user) (UpdateUserRequest.Email req)));
      [|apply save_reworded; reflexivity].
    unfold reword. cbn [store logs goroutines].
    destruct (isEmailTaken R _ s1) as [[err | [|]] s2];
      cbn -[UpdateUserUseCase.save same_but_log].
    + repeat split.
    + repeat split.
    + apply save_reworded; reflexivity.
  - intros id w. unfold DeleteUserUseCase.Execute. reworded.
    destruct (GetById R id (store w)) as [[err | user] s1]; simpl; auto.
    destruct (DeleteById R id s1) as [[err|] s2]; simpl; auto.
  - intros req w. unfold ListUsersUseCase.Execute. reworded.
    destruct (List R _ _ (store w)) as [[err | users] s1]; simpl; auto.
    destruct (Count R s1) as [[err | total] s2]; simpl; auto.
Qed.

End Wording.

Section Logs.
Context `{CaseTables} {S : Type} (R : UserRepository S).

(** X18: what [Create] writes to the log. It logs the email and the name of
    the request on entry, then at most one more entry: none when the email is
    reported as taken, an error when a step fails, the success otherwise.
    The fields of that entry are the email and the name of the request, or
    the identifier and the email of the response: neither the password of
    the request nor its digest is among them. *)
Theorem Create_logs_no_credential (hasher : PasswordHasher) (sender : EmailSender)
    (now : Time) (req : CreateUserRequest.t) (w : World S) :
  let uc := {| CreateUserUseCase.userRepo := R;
               CreateUserUseCase.passwordHash := hasher;
               CreateUserUseCase.emailSender := sender |} in
  let '(r, w') := CreateUserUseCase.Execute uc now req w in
  exists entries,
    logs w' = logs w ++
                LogInfo "Creating new user"
                  [("email", VString (CreateUserRequest.Email req));
                   ("name", VString (CreateUserRequest.Name req))]%string :: entries /\
    (length entries <= 1)%nat /\
    (entries = [] <->
     (isEmailTaken R (CreateUserRequest.Email req) (store w)).1 = inr true) /\
    forall e k v, e ∈ entries -> (k, v) ∈ fields_of e ->
      v = VString (CreateUserRequest.Email req) \/
      v = VString (CreateUserRequest.Name req) \/
      exists resp, r = inr resp /\
        (v = VInt (CreateUserResponse.ID resp) \/
         v = VString (CreateUserResponse.Email resp)).
Proof.
  intros uc. subst uc.
  unfold CreateUserUseCase.Execute, bind, call, Info, Error, ret, go. simpl.
  assert (Hone : forall k v, (k, v) ∈ [("email"%string, VString (CreateUserRequest.Email req))] ->
             v = VString (CreateUserRequest.Email req) \/
             v = VString (CreateUserRequest.Name req)).
  { intros k v Hin. apply list_elem_of_singleton in Hin. injection Hin as _ ->. auto. }
  assert (Htwo : forall k v,
             (k, v) ∈ [("email"%string, VString (CreateUserRequest.Email req));
                       ("name"%string, VString (CreateUserRequest.Name req))] ->
             v = VString (CreateUserRequest.Email req) \/
             v = VString (CreateUserRequest.Name req)).
  { intros k v Hin. apply elem_of_cons in Hin as [Hin | Hin].
    - injection Hin as _ ->. auto.
    - apply list_elem_of_singleton in Hin. injection Hin as _ ->. auto. }
  destruct (isEmailTaken R (CreateUserRequest.Email req) (store w))
    as [[err | [|]] s1] eqn:Hask; simpl.
  - eexists [_]. rewrite <- app_assoc. split; [reflexivity|]. split; [simpl; lia|].
    split; [split; discriminate|].
    intros e k v He Hin. apply list_elem_of_singleton in He. subst e. simpl in Hin.
    destruct (Hone k v Hin); auto.
  - exists []. split; [reflexivity|]. split; [simpl; lia|].
    split; [split; reflexivity|]. intros e k v He. inversion He.
  - destruct (NewUser now _ _ _) as [err | user]; simpl.
    { eexists [_]. rewrite <- app_assoc. split; [reflexivity|]. split; [simpl; lia|].
      split; [split; discriminate|].
      intros e k v He Hin. apply list_elem_of_singleton in He. subst e. simpl in Hin.
      destruct (Htwo k v Hin); auto. }
    destruct (Hash hasher (Password user)) as [err | digest]; simpl.
    { eexists [_]. rewrite <- app_assoc. split; [reflexivity|]. split; [simpl; lia|].
      split; [split; discriminate|].
      intros e k v He Hin. apply list_elem_of_singleton in He. subst e. simpl in Hin.
      destruct (Hone k v Hin); auto. }
    destruct (Create R _ s1) as [[err | createdUser] s2]; simpl.
    + eexists [_]. rewrite <- app_assoc. split; [reflexivity|]. split; [simpl; lia|].
      split; [split; discriminate|].
      intros e k v He Hin. apply list_elem_of_singleton in He. subst e. simpl in Hin.
      destruct (Htwo k v Hin); auto.
    + eexists [_]. rewrite <- app_assoc. split; [reflexivity|]. split; [simpl; lia|].
      split; [split; discriminate|].
      intros e k v He Hin. apply list_elem_of_singleton in He. subst e. simpl in Hin.
      right. right. eexists. split; [reflexivity|]. simpl.
      apply elem_of_cons in Hin as [Hin | Hin].
      * injection Hin as _ ->. auto.
      * apply list_elem_of_singleton in Hin. injection Hin as _ ->. auto.
Qed.

End Logs.

(** ** The properties at work *)

Lemma one_user_sound : sound examples.one_user.1 examples.one_user.2.
Proof.
  split; [|split; [|split; [|split]]].
  - intros id p Hp. simpl in Hp. apply lookup_singleton_Some in Hp as [_ <-]. simpl. lia.
  - intros id p Hp. simpl in Hp. apply lookup_singleton_Some in Hp as [<- _]. simpl. lia.
  - intros id p Hp. simpl in Hp. apply lookup_singleton_Some in Hp as [<- <-]. reflexivity.
  - intros id p Hp. simpl in Hp. apply lookup_singleton_Some in Hp as [<- <-].
    vm_compute. reflexivity.
  - intros email p Hp. simpl in Hp. apply lookup_singleton_Some in Hp as [<- <-].
    split; [reflexivity|]. exists 1. vm_compute. reflexivity.
Qed.

Lemma one_user_foreign : foreign 2%nat examples.one_user.1.
Proof.
  intros id p Hp. simpl in Hp. apply lookup_singleton_Some in Hp as [_ <-]. lia.
Qed.

Lemma one_user_other_email (u : User) :
  Email u <> Email examples.ann ->
  forall id v, contents examples.one_user.1 (scenes.with_caller u) !! id = Some v ->
               Email v <> Email u.
Proof.
  intros Hne id v Hc. apply contents_lookup in Hc as (p & Hp & ->).
  simpl in Hp. apply lookup_singleton_Some in Hp as [_ <-].
  intros Heq. apply Hne. rewrite <- Heq. reflexivity.
Qed.


Lemma Create_refuses_stored_emails_witness :
  let m := examples.one_user.1 in
  let h := examples.one_user.2 in
  sound m h /\
  contents m h !! 1 = Some examples.ann /\
  mocks.Create 0%nat m h = (inl "email déjà utilisé"%string, m, h).
Proof.
  intros m h.
  assert (Hst : contents m h !! 1 = Some examples.ann) by (vm_compute; reflexivity).
  split; [exact one_user_sound|]. split; [exact Hst|].
  apply (Create_refuses_stored_emails 0%nat m h one_user_sound).
  exists 1, examples.ann. split; [exact Hst | reflexivity].
Defined.

Lemma Create_stores_new_record_witness :
  let m := examples.one_user.1 in
  let h := scenes.with_caller scenes.bob_candidate in
  sound m h /\ (2 < length h)%nat /\ foreign 2%nat m /\ goint.fits (nextID m + 1) /\
  (forall id u, contents m h !! id = Some u -> Email u <> Email (load h 2%nat)) /\
  let '(r, m', h') := mocks.Create 2%nat m h in
  r = inr (length h) /\
  contents m h !! nextID m = None /\
  contents m' h' = <[nextID m := with_ID (nextID m) (load h 2%nat)]> (contents m h) /\
  nextID m' = nextID m + 1 /\
  load h' 2%nat = with_ID (nextID m) (load h 2%nat) /\
  load h' (length h) = load h' 2%nat.
Proof.
  intros m h.
  assert (Hs : sound m h) by (apply sound_app, one_user_sound).
  assert (Hu : (2 < length h)%nat) by (simpl; lia).
  assert (Hfit : goint.fits (nextID m + 1)) by (unfold goint.fits; simpl; lia).
  assert (Hfree : forall id u, contents m h !! id = Some u -> Email u <> Email (load h 2%nat)).
  { apply (one_user_other_email scenes.bob_candidate). discriminate. }
  split; [exact Hs|]. split; [exact Hu|]. split; [exact one_user_foreign|].
  split; [exact Hfit|]. split; [exact Hfree|].
  exact (Create_stores_new_record 2%nat m h Hs Hu one_user_foreign Hfit Hfree).
Defined.

Lemma Create_claims_the_email_witness :
  let m := examples.one_user.1 in
  let h := scenes.with_caller scenes.bob_candidate in
  (2 < length h)%nat /\
  let '(r, m', h') := mocks.Create 2%nat m h in
  is_Some (emails m' !! Email (load h 2%nat)) /\
  forall user2, Email (load h' user2) = Email (load h 2%nat) ->
    mocks.Create user2 m' h' = (inl "email déjà utilisé"%string, m', h').
Proof.
  intros m h.
  assert (Hu : (2 < length h)%nat) by (simpl; lia).
  split; [exact Hu|]. exact (Create_claims_the_email 2%nat m h Hu).
Defined.

Lemma Update_in_place_witness :
  let m := scenes.alice_and_bob in
  let h := scenes.demonstration_memory in
  allocated m h /\ keyed m h /\
  contents m h !! ID (load h 2%nat) = Some (scenes.named 1 "Alice") /\
  (mocks.Update 2%nat m h).1 = None /\
  length (mocks.Update 2%nat m h).2 = length h /\
  contents m (mocks.Update 2%nat m h).2
  = <[ID (load h 2%nat) := with_Name (Name (load h 2%nat)) (scenes.named 1 "Alice")]>
      (contents m h).
Proof.
  intros m h.
  assert (Ha : allocated m h).
  { intros id p Hp. unfold m, scenes.alice_and_bob in Hp. cbn [users] in Hp.
    apply lookup_insert_Some in Hp as [[_ <-] | [_ Hp]]; [simpl; lia|].
    apply lookup_singleton_Some in Hp as [_ <-]. simpl. lia. }
  assert (Hk : keyed m h).
  { intros id p Hp. unfold m, scenes.alice_and_bob in Hp. cbn [users] in Hp.
    apply lookup_insert_Some in Hp as [[<- <-] | [_ Hp]]; [reflexivity|].
    apply lookup_singleton_Some in Hp as [<- <-]. reflexivity. }
  assert (Hst : contents m h !! ID (load h 2%nat) = Some (scenes.named 1 "Alice"))
    by (vm_compute; reflexivity).
  split; [exact Ha|]. split; [exact Hk|]. split; [exact Hst|].
  exact (proj2 (Update_in_place 2%nat m h Ha Hk) (scenes.named 1 "Alice") Hst).
Defined.

Lemma one_user_allocated : allocated examples.one_user.1 examples.one_user.2.
Proof. exact (proj1 one_user_sound). Qed.

Lemma GetByID_fresh_copy_witness :
  let m := examples.one_user.1 in
  let h := examples.one_user.2 in
  allocated m h /\
  exists q h', mocks.GetByID 1 m h = (inr q, h') /\
    (length h <= q < length h')%nat /\ load h' q = examples.ann /\
    contents m h' = contents m h.
Proof.
  intros m h. split; [exact one_user_allocated|].
  pose proof (GetByID_fresh_copy 1 m h one_user_allocated) as Hg.
  assert (Hst : contents m h !! 1 = Some examples.ann) by (vm_compute; reflexivity).
  rewrite Hst in Hg. destruct Hg as (q & h' & Hg & Hq & _ & Hl & Hc & _).
  exists q, h'. auto.
Defined.

Lemma List_fresh_copies_witness :
  let m := examples.one_user.1 in
  let h := examples.one_user.2 in
  allocated m h /\
  let '(result, h') := mocks.List m h in
  length result = size (users m) /\
  NoDup result /\
  (forall q, q ∈ result ->
     (length h <= q < length h')%nat /\ forall i p, users m !! i = Some p -> p <> q) /\
  load h' <$> result ≡ₚ (map_to_list (contents m h)).*2 /\
  contents m h' = contents m h.
Proof.
  intros m h. split; [exact one_user_allocated|].
  exact (List_fresh_copies m h one_user_allocated).
Defined.

Lemma dangerousList_shares_safeList_copies_witness :
  let storage := users examples.one_user.1 in
  let h := examples.one_user.2 in
  (forall id p, storage !! id = Some p -> (p < length h)%nat) /\
  (demo.dangerousList storage h).2 = h /\
  length (demo.safeList storage h).1 = length (demo.dangerousList storage h).1 /\
  load (demo.safeList storage h).2 <$> (demo.safeList storage h).1
  ≡ₚ load h <$> (demo.dangerousList storage h).1.
Proof.
  intros storage h. split; [exact one_user_allocated|].
  pose proof (dangerousList_shares_safeList_copies storage h one_user_allocated) as Hd.
  destruct (demo.dangerousList storage h) as [shared h1].
  destruct (demo.safeList storage h) as [copies h2].
  destruct Hd as (Hh & _ & _ & Hlen & _ & Hrec & _). auto.
Defined.

Lemma updateInPlace_keeps_updateWithReplace_allocates_witness :
  let storage := users examples.one_user.1 in
  let h := scenes.with_caller examples.mallory in
  (2 < length h)%nat /\
  (forall id p, storage !! id = Some p -> (p < length h)%nat) /\
  (exists h1, demo.updateInPlace 2%nat storage h = Some h1 /\
     length h1 = length h /\
     load h1 1%nat = with_Name (Name (load h 2%nat)) (load h 1%nat)) /\
  (demo.updateWithReplace 2%nat storage h).1 = <[ID (load h 2%nat) := length h]> storage.
Proof.
  intros storage h.
  assert (Hu : (2 < length h)%nat) by (simpl; lia).
  assert (Ha : forall id p, storage !! id = Some p -> (p < length h)%nat).
  { intros id p Hp. pose proof (one_user_allocated id p Hp) as Hlt. simpl in Hlt |- *. lia. }
  split; [exact Hu|]. split; [exact Ha|].
  pose proof (updateInPlace_keeps_updateWithReplace_allocates 2%nat storage h Hu Ha)
    as [Hin Hre].
  assert (Hst : storage !! ID (load h 2%nat) = Some 1%nat) by (vm_compute; reflexivity).
  rewrite Hst in Hin. destruct Hin as (h1 & Hin & Hlen & Hl & _).
  split; [exists h1; auto|].
  destruct (demo.updateWithReplace 2%nat storage h) as [storage2 h2].
  destruct Hre as (Hre & _). exact Hre.
Defined.

Lemma valid_users_stay_valid_witness :
  ascii_only "  A@X.com " = true /\
  @NewUser examples.tables 7 "  A@X.com " " Ann " "secret1" = inr examples.fresh_ann /\
  isValidUser examples.fresh_ann = true /\
  isValidUser (@UpdateUserProfile examples.tables 7 examples.fresh_ann "Annie" "  A@X.com ").1
  = true.
Proof.
  assert (Ha : ascii_only "  A@X.com " = true) by (vm_compute; reflexivity).
  assert (Hnew : @NewUser examples.tables 7 "  A@X.com " " Ann " "secret1"
                 = inr examples.fresh_ann) by (vm_compute; reflexivity).
  destruct (@valid_users_stay_valid examples.tables 7 "  A@X.com " Ha) as (Hn & Hu & _).
  pose proof (Hn _ _ _ Hnew) as Hv.
  split; [exact Ha|]. split; [exact Hnew|]. split; [exact Hv|].
  exact (Hu examples.fresh_ann "Annie"%string Hv).
Defined.

Lemma Create_then_Get_on_the_mock_witness :
  let w := examples.world examples.one_user in
  sound (store w).1 (store w).2 /\
  goint.fits (nextID (store w).1 + 1) /\
  @NewUser examples.tables 8 (CreateUserRequest.Email scenes.bob_request)
     (CreateUserRequest.Name scenes.bob_request)
     (CreateUserRequest.Password scenes.bob_request) = inr scenes.fresh_bob /\
  Hash examples.hasher (Password scenes.fresh_bob) = inr "#secret2"%string /\
  (@CreateUserUseCase.Execute examples.tables _ scenes.creator 8 scenes.bob_request w).1
  = inr {| CreateUserResponse.ID := 2;
           CreateUserResponse.Email := "b@x.com";
           CreateUserResponse.Name := "Bob";
           CreateUserResponse.Created := 8 |} /\
  (GetUserUseCase.ExecuteByID
     {| GetUserUseCase.userRepo := CreateUserUseCase.userRepo scenes.creator |} 2
     (@CreateUserUseCase.Execute examples.tables _ scenes.creator 8 scenes.bob_request w).2).1
  = inr {| GetUserResponse.ID := 2;
           GetUserResponse.Email := "b@x.com";
           GetUserResponse.Name := "Bob";
           GetUserResponse.Created := 8;
           GetUserResponse.Updated := 8 |}.
Proof.
  intros w.
  assert (Hfit : goint.fits (nextID (store w).1 + 1)) by (unfold goint.fits; simpl; lia).
  assert (Hnew : @NewUser examples.tables 8 (CreateUserRequest.Email scenes.bob_request)
                   (CreateUserRequest.Name scenes.bob_request)
                   (CreateUserRequest.Password scenes.bob_request) = inr scenes.fresh_bob)
    by (vm_compute; reflexivity).
  assert (Hhash : Hash examples.hasher (Password scenes.fresh_bob) = inr "#secret2"%string)
    by reflexivity.
  assert (Hfree : forall id u, contents (store w).1 (store w).2 !! id = Some u ->
                               Email u <> Email scenes.fresh_bob).
  { intros id u Hc. apply contents_lookup in Hc as (p & Hp & ->).
    simpl in Hp. apply lookup_singleton_Some in Hp as [_ <-]. discriminate. }
  pose proof (@Create_then_Get_on_the_mock examples.tables scenes.no_check examples.hasher
                examples.mailer_down 8 scenes.bob_request w scenes.fresh_bob "#secret2"
                one_user_sound Hfit eq_refl Hnew Hhash Hfree) as Hrun.
  cbv zeta in Hrun.
  change (CreateUserUseCase.Execute _ 8 scenes.bob_request w)
    with (@CreateUserUseCase.Execute examples.tables _ scenes.creator 8 scenes.bob_request w)
    in Hrun.
  destruct (@CreateUserUseCase.Execute examples.tables _ scenes.creator 8 scenes.bob_request w)
    as [r w1].
  destruct Hrun as (Hr & _ & _ & Hget).
  split; [exact one_user_sound|]. split; [exact Hfit|]. split; [exact Hnew|].
  split; [exact Hhash|]. split; [exact Hr | exact Hget].
Defined.
